(** * Sorting templates: a shallow embedding of src/main.cpp

    The three template routines [bubble_sort], [shuttle_sort] and
    [quick_sort] are embedded as they are written: a [vector<T>] is a list,
    an iterator is the integer offset from [v.begin()], an [int] counter is
    an integer reduced to 32 bits, and every [while] loop runs on fuel.
    Dereferencing an iterator outside the vector is a fault.  A routine
    returns its final variables; what it prints on the way is left out. *)

From stdpp Require Import base list sorting strings gmap.
From Stdlib Require Import ZArith Lia Ascii.

Local Open Scope Z_scope.

(** ** Results of running a piece of code

    [OutOfBounds] is an access outside a vector, [OutOfFuel] a loop that
    the fuel did not let finish, and [Undefined] any other step to which
    C++ gives no meaning. *)

Inductive result (A : Type) : Type :=
  | Ok (a : A)
  | OutOfBounds
  | OutOfFuel
  | Undefined.
Arguments Ok {A} a.
Arguments OutOfBounds {A}.
Arguments OutOfFuel {A}.
Arguments Undefined {A}.

Global Instance result_ret : MRet result := λ A a, Ok a.
Global Instance result_bind : MBind result := λ A B f m,
  match m with
  | Ok a => f a
  | OutOfBounds => OutOfBounds
  | OutOfFuel => OutOfFuel
  | Undefined => Undefined
  end.

(** What the body of a loop asks for: another iteration or [break]. *)
Inductive ctl (S : Type) : Type :=
  | Next (s : S)
  | Break (s : S).
Arguments Next {S} s.
Arguments Break {S} s.

Section Loop.
Context {S : Type}.
Variable cond : S → bool.
Variable body : S → result (ctl S).

(** [while (cond) { body }] *)
Fixpoint while_loop (fuel : nat) (s : S) : result S :=
  if cond s then
    match fuel with
    | O => OutOfFuel
    | Datatypes.S fuel' =>
        match body s with
        | Ok (Next s') => while_loop fuel' s'
        | Ok (Break s') => Ok s'
        | OutOfBounds => OutOfBounds
        | OutOfFuel => OutOfFuel
        | Undefined => Undefined
        end
    end
  else Ok s.
End Loop.

(** ** The type [int] *)

Definition INT_MAX : Z := 2147483647.

(** An [int] result brought back to 32 bits, two's complement. *)
Definition wrap (z : Z) : Z := (z + 2147483648) mod 4294967296 - 2147483648.

(** ** Element types

    The templates ask the element type for its operators.  [bubble_sort] and
    [shuttle_sort] call [operator<], [quick_sort] calls [operator>]. *)

Class Less (T : Type) := op_lt : T → T → bool.
Class Greater (T : Type) := op_gt : T → T → bool.

(** The built-in numbers have both operators; integers stand for them. *)
Global Instance Z_less : Less Z := Z.ltb.
Global Instance Z_greater : Greater Z := Z.gtb.

(** [class Cat], with the one comparison that it overloads. *)
Record Cat : Type := { m_weight : Z }.
Global Instance Cat_less : Less Cat :=
  λ cat1 cat2, m_weight cat2 >? m_weight cat1.

(** ** Vectors and iterators *)

Section Vector.
Context {T : Type}.

(** [*it] *)
Definition deref (v : list T) (it : Z) : result T :=
  if 0 <=? it then
    match v !! Z.to_nat it with
    | Some x => Ok x
    | None => OutOfBounds
    end
  else OutOfBounds.

(** [*it = x] *)
Definition store (v : list T) (it : Z) (x : T) : result (list T) :=
  if (0 <=? it) && (it <? Z.of_nat (length v))
  then Ok (<[Z.to_nat it := x]> v)
  else OutOfBounds.

(** [v.size()], [v.begin()] and [v.end()] *)
Definition size (v : list T) : Z := Z.of_nat (length v).
Definition begin (v : list T) : Z := 0.
Definition end_ (v : list T) : Z := size v.
End Vector.

(** ** Bubble sort *)

Section BubbleSort.
Context {T : Type} `{Less T}.

Record bubble_state : Type := BubbleState {
  b_v : list T;
  b_e1 : Z;
  b_e2 : Z;
  b_end : Z;
  b_comparisons : Z;
  b_swaps : Z;
  b_swaps_total : Z;
  b_comparisons_total : Z;
  b_pass : Z
}.

(** Lines 84 to 95: one comparison of the pass. *)
Definition bubble_inner_cond (s : bubble_state) : bool :=
  b_e2 s <? b_end s.

Definition bubble_inner_body (s : bubble_state) : result (ctl bubble_state) :=
  let comparisons := wrap (b_comparisons s + 1) in
  x2 ← deref (b_v s) (b_e2 s);
  x1 ← deref (b_v s) (b_e1 s);
  '(v, swaps) ←
    (if op_lt x2 x1 then
       tmp ← deref (b_v s) (b_e1 s);
       y ← deref (b_v s) (b_e2 s);
       v1 ← store (b_v s) (b_e1 s) y;
       v2 ← store v1 (b_e2 s) tmp;
       mret (v2, wrap (b_swaps s + 1))
     else mret (b_v s, b_swaps s));
  mret (Next (BubbleState v (b_e1 s + 1) (b_e2 s + 1) (b_end s)
                comparisons swaps
                (b_swaps_total s) (b_comparisons_total s) (b_pass s))).

(** Lines 83 to 120: one pass, then the test that ends the sort. *)
Definition bubble_outer_body (fuel : nat) (s : bubble_state)
  : result (ctl bubble_state) :=
  s1 ← while_loop bubble_inner_cond bubble_inner_body fuel s;
  let e1 := begin (b_v s1) in
  let e2 := e1 + 1 in
  let swaps_total := wrap (b_swaps_total s1 + b_swaps s1) in
  let comparisons_total := wrap (b_comparisons_total s1 + b_comparisons s1) in
  if b_swaps s1 =? 0 then
    mret (Break (BubbleState (b_v s1) e1 e2 (b_end s1)
                   (b_comparisons s1) (b_swaps s1)
                   swaps_total comparisons_total (b_pass s1)))
  else
    mret (Next (BubbleState (b_v s1) e1 e2 (b_end s1 - 1)
                  0 0
                  swaps_total comparisons_total (wrap (b_pass s1 + 1)))).

Definition bubble_init (v : list T) : bubble_state :=
  let e1 := begin v in
  BubbleState v e1 (e1 + 1) (end_ v) 0 0 0 0 1.

(** The whole routine: the sorted vector and the final counters. *)
Definition bubble_sort (fuel : nat) (v : list T) : result bubble_state :=
  while_loop (λ _, true) (bubble_outer_body fuel) fuel (bubble_init v).
End BubbleSort.

(** ** Shuttle sort *)

Section ShuttleSort.
Context {T : Type} `{Less T}.

Record shuttle_state : Type := ShuttleState {
  s_v : list T;
  s_e1 : Z;
  s_e2 : Z;
  s_swaps : Z;
  s_comparisons : Z;
  s_swaps_total : Z;
  s_comparisons_total : Z;
  s_pass : Z;
  s_n : Z;
  s_start_index : Z
}.

(** Lines 174 to 195: the shuttle of one pass. *)
Definition shuttle_inner_cond (s : shuttle_state) : bool :=
  negb (s_e2 s =? end_ (s_v s)).

Definition shuttle_inner_body (s : shuttle_state)
  : result (ctl shuttle_state) :=
  let comparisons := wrap (s_comparisons s + 1) in
  x2 ← deref (s_v s) (s_e2 s);
  x1 ← deref (s_v s) (s_e1 s);
  if op_lt x2 x1 then
    tmp ← deref (s_v s) (s_e1 s);
    y ← deref (s_v s) (s_e2 s);
    v1 ← store (s_v s) (s_e1 s) y;
    v2 ← store v1 (s_e2 s) tmp;
    let swaps := wrap (s_swaps s + 1) in
    if s_e1 s =? begin v2 then
      mret (Break (ShuttleState v2 (s_e1 s) (s_e2 s) swaps comparisons
                     (s_swaps_total s) (s_comparisons_total s)
                     (s_pass s) (s_n s) (s_start_index s)))
    else if s_e1 s >? begin v2 then
      mret (Next (ShuttleState v2 (s_e1 s - 1) (s_e2 s - 1) swaps comparisons
                    (s_swaps_total s) (s_comparisons_total s)
                    (s_pass s) (s_n s) (s_start_index s)))
    else
      mret (Next (ShuttleState v2 (s_e1 s) (s_e2 s) swaps comparisons
                    (s_swaps_total s) (s_comparisons_total s)
                    (s_pass s) (s_n s) (s_start_index s)))
  else
    mret (Break (ShuttleState (s_v s) (s_e1 s) (s_e2 s) (s_swaps s) comparisons
                   (s_swaps_total s) (s_comparisons_total s)
                   (s_pass s) (s_n s) (s_start_index s))).

(** Lines 169 to 214: one outer pass. *)
Definition shuttle_outer_cond (s : shuttle_state) : bool :=
  s_pass s <=? wrap (s_n s - 1).

Definition shuttle_pass (fuel : nat) (s : shuttle_state)
  : result shuttle_state :=
  let e1 := begin (s_v s) + s_start_index s in
  let e2 := e1 + 1 in
  s1 ← while_loop shuttle_inner_cond shuttle_inner_body fuel
         (ShuttleState (s_v s) e1 e2 (s_swaps s) (s_comparisons s)
            (s_swaps_total s) (s_comparisons_total s)
            (s_pass s) (s_n s) (s_start_index s));
  mret (ShuttleState (s_v s1) (s_e1 s1) (s_e2 s1) 0 0
          (wrap (s_swaps_total s1 + s_swaps s1))
          (wrap (s_comparisons_total s1 + s_comparisons s1))
          (wrap (s_pass s1 + 1)) (s_n s1)
          (wrap (s_start_index s1 + 1))).

Definition shuttle_outer_body (fuel : nat) (s : shuttle_state)
  : result (ctl shuttle_state) :=
  s' ← shuttle_pass fuel s; mret (Next s').

Definition shuttle_init (v : list T) : shuttle_state :=
  let start_index := 0 in
  let e1 := begin v + start_index in
  ShuttleState v e1 (e1 + 1) 0 0 0 0 1 (wrap (size v)) start_index.

Definition shuttle_sort (fuel : nat) (v : list T) : result shuttle_state :=
  while_loop shuttle_outer_cond (shuttle_outer_body fuel) fuel
    (shuttle_init v).
End ShuttleSort.

(** ** Quick sort *)

Section QuickSort.
Context {T : Type} `{Greater T}.

Record quick_state : Type := QuickState {
  q_v : list T;
  q_e1 : Z;
  q_e2 : Z;
  q_pivot_it : Z
}.

(** Lines 267 to 295: the scan that moves the pivot to its place. *)
Definition quick_cond (s : quick_state) : bool :=
  negb (q_e1 s =? q_pivot_it s).

Definition quick_body (s : quick_state) : result (ctl quick_state) :=
  x1 ← deref (q_v s) (q_e1 s);
  p ← deref (q_v s) (q_pivot_it s);
  if op_gt x1 p then
    tmp ← deref (q_v s) (q_e1 s);
    y ← deref (q_v s) (q_e2 s);
    v1 ← store (q_v s) (q_e1 s) y;
    p' ← deref v1 (q_pivot_it s);
    v2 ← store v1 (q_e2 s) p';
    v3 ← store v2 (q_pivot_it s) tmp;
    let pivot_it := q_e2 s in
    mret (Next (QuickState v3 (q_e1 s) (pivot_it - 1) pivot_it))
  else
    mret (Next (QuickState (q_v s) (q_e1 s + 1) (q_e2 s) (q_pivot_it s))).

Fixpoint quick_sort (fuel : nat) (v : list T) (start end' : Z)
  : result (list T) :=
  match fuel with
  | O => OutOfFuel
  | S fuel' =>
      let pivot_it := end' in
      let e1 := start in
      let e2 := pivot_it - 1 in
      if end' - start <? 1 then Ok v
      else
        s ← while_loop quick_cond quick_body fuel
              (QuickState v e1 e2 pivot_it);
        v1 ← quick_sort fuel' (q_v s) (q_pivot_it s + 1) end';
        quick_sort fuel' v1 start (q_e2 s)
  end.

(** The call of [test_sorting_algorithms]:
    [quick_sort(v3, v3.begin(), v3.end() - 1)]. *)
Definition quick_sort_full (fuel : nat) (v : list T) : result (list T) :=
  quick_sort fuel v (begin v) (end_ v - 1).
End QuickSort.

Definition result_to_option {A} (r : result A) : option A :=
  match r with Ok a => Some a | _ => None end.


(** ** The utilities and the driver

    The files and the console are a state that the driver passes along.
    What is recorded of the console is what the driver and the utilities
    write themselves; the reports that the three routines print while they
    run are not. *)

(** What [cout] receives: a text, a number or [endl]. *)
Inductive out : Type :=
  | Str (s : string)
  | Num (z : Z)
  | Endl.

Record world : Type := World {
  w_files : gmap string string;   (* the files that exist, and their text *)
  w_locked : gset string;         (* the names that cannot be opened *)
  w_clock : list (Z * Z);         (* the readings of the clock to come *)
  w_stdout : list out             (* what has gone to the console *)
}.

Definition cout (items : list out) (w : world) : world :=
  World (w_files w) (w_locked w) (w_clock w) (w_stdout w ++ items).

(** [f.open(name)] followed by [f.is_open()]: the text of the file when it
    could be opened. *)
Definition open_in (name : string) (w : world) : option string :=
  if decide (name ∈ w_locked w) then None else w_files w !! name.

(** [f.open(name, ios::out)] followed by [f.is_open()]. *)
Definition open_out (name : string) (w : world) : bool :=
  bool_decide (name ∉ w_locked w).

Definition write_file (name text : string) (w : world) : world :=
  World (<[name := text]> (w_files w)) (w_locked w) (w_clock w) (w_stdout w).

(** The text of an element: [operator<<], and [operator>>] repeated until
    it fails, which gives the elements that a text starts with. *)
Class Text (T : Type) := {
  put : T → string;
  get_all : string → list T
}.

Definition newline : string := String "010"%char EmptyString.

Definition could_not_open : list out := [Str "Error! Could not open file"; Endl].

(** [struct timeval] is a pair of [long]. *)
Definition wrap_long (z : Z) : Z :=
  (z + 9223372036854775808) mod 18446744073709551616 - 9223372036854775808.

Definition timevaldiff (starttime finishtime : Z * Z) : Z :=
  let msec := wrap_long (wrap_long (fst finishtime - fst starttime) * 1000) in
  wrap_long (msec + wrap_long (snd finishtime - snd starttime) ÷ 1000).

Definition gettimeofday (w : world) : (Z * Z) * world :=
  match w_clock w with
  | t :: clock => (t, World (w_files w) (w_locked w) clock (w_stdout w))
  | [] => ((0, 0), w)
  end.

Definition time_taken (t1 t2 : Z * Z) : list out :=
  [Str "-------------------------------"; Endl;
   Str "Time taken (ms): "; Num (timevaldiff t1 t2); Endl;
   Str "-------------------------------"; Endl].

Section Utilities.
Context {T : Type} `{Text T}.

(** Lines 335 to 354. *)
Definition dump_vector (v : list T) (output_file : string) (w : world)
  : world :=
  if open_out output_file w then
    write_file output_file
      (foldl (λ text x, text +:+ put x +:+ newline) EmptyString v) w
  else cout could_not_open w.
End Utilities.

(** Lines 452 to 460.  [operator>>] and [operator<<] of [Cat] hand the
    weight to the operator of [int] and then reach their closing brace:
    neither has a [return] for the stream that its type promises, and a
    call that ends so has no defined behaviour.  [input] is what is left of
    the file; a call that returned would give the Cat it read, if any,
    and the rest of the file. *)
Definition Cat_extract (input : string) : result (option Cat * string) :=
  Undefined.

Definition Cat_insert (cat : Cat) : result string := Undefined.

(** Lines 477 to 479: [while (cats >> cat) cats_v1.push_back(cat);] *)
Fixpoint read_cats (fuel : nat) (input : string) (cats_v1 : list Cat)
  : result (list Cat) :=
  '(cat, input) ← Cat_extract input;
  match cat with
  | None => Ok cats_v1
  | Some cat =>
      match fuel with
      | O => OutOfFuel
      | S fuel' => read_cats fuel' input (cats_v1 ++ [cat])
      end
  end.

Section Driver.
Context {float : Type} `{Less float, Greater float, Text float, Text Z}.

(** Lines 356 to 415. *)
Definition test_sorting_algorithms (fuel : nat) (input_file : string)
    (w : world) : result world :=
  match open_in input_file w with
  | None => Ok (cout could_not_open w)
  | Some text =>
      let v1 : list float := get_all text in
      let v2 := v1 in
      let v3 := v1 in
      let w := cout [Endl; Str "Sorting using the Bubble Sort."; Endl] w in
      let '(t1, w) := gettimeofday w in
      s1 ← bubble_sort fuel v1;
      let '(t2, w) := gettimeofday w in
      let w := cout (time_taken t1 t2) w in
      let w := dump_vector (b_v s1) "out1.dat" w in
      let w := cout [Endl; Str "Sorting using the Shuttle Sort."; Endl] w in
      let '(t1, w) := gettimeofday w in
      s2 ← shuttle_sort fuel v2;
      let '(t2, w) := gettimeofday w in
      let w := cout (time_taken t1 t2) w in
      let w := dump_vector (s_v s2) "out2.dat" w in
      let w := cout [Endl; Str "Sorting using the Quick Sort."; Endl; Endl] w in
      let '(t1, w) := gettimeofday w in
      v3' ← quick_sort_full fuel v3;
      let '(t2, w) := gettimeofday w in
      let w := cout (time_taken t1 t2) w in
      Ok (dump_vector v3' "out3.dat" w)
  end.

(** Lines 462 to 490. *)
Definition test_class_sort (fuel : nat) (w : world) : result world :=
  let w := cout [Endl;
                 Str "Sorting a user defined class using the bubble sort.";
                 Endl; Endl] w in
  match open_in "cats.dat" w with
  | None => Ok (cout could_not_open w)
  | Some text =>
      cats_v1 ← read_cats fuel text [];
      s ← bubble_sort fuel cats_v1;
      let w := cout [Str "[ "] w in
      let w := foldl (λ w cit, cout [Num (m_weight cit); Str " "] w) w (b_v s) in
      Ok (cout [Str "]"; Endl] w)
  end.

(** Lines 493 to 498: the exit code comes with the final state. *)
Definition main (fuel : nat) (argv1 : string) (w : world) : result (Z * world) :=
  w ← test_sorting_algorithms fuel argv1 w;
  w ← test_class_sort fuel w;
  Ok (0, w).
End Driver.

(** ** What the routines are measured against *)

Section Order.
Context {T : Type} (lt : T → T → bool).

(** The elements compare: [lt] is a strict weak order. *)
Record strict_weak_order : Prop := {
  swo_asym : ∀ a b, lt a b = true → lt b a = false;
  swo_negtrans : ∀ a b c, lt a b = false → lt b c = false → lt a c = false
}.

(** [b] may follow [a]: it is not less than [a]. *)
Definition not_after (a b : T) : Prop := lt b a = false.

(** Non-decreasing: no element is less than an earlier one. *)
Definition nondecreasing (l : list T) : Prop := StronglySorted not_after l.

(** Fully reverse-sorted: every element is less than the earlier ones. *)
Definition strictly_decreasing (l : list T) : Prop :=
  StronglySorted (λ a b, lt b a = true) l.

(** A class of elements that are equal under the order. *)
Definition equal_class (P : T → bool) : Prop :=
  ∀ a b, P a = true → P b = true → lt a b = false.
End Order.

(** The effect of a pass of [bubble_sort] that starts with [x] in hand,
    on the elements that follow, and the swaps it makes. *)
Section BubblePass.
Context {T : Type} `{Less T}.

Fixpoint bubble_pass (x : T) (l : list T) : list T :=
  match l with
  | [] => [x]
  | y :: l' =>
      if op_lt y x then y :: bubble_pass x l' else x :: bubble_pass y l'
  end.

Fixpoint bubble_swaps (x : T) (l : list T) : Z :=
  match l with
  | [] => 0
  | y :: l' =>
      if op_lt y x then 1 + bubble_swaps x l' else bubble_swaps y l'
  end.

(** The state at the head of a pass: [p] is still scanned, [suf] is not. *)
Definition bubble_at (p suf : list T) (st ct pass : Z) : bubble_state :=
  BubbleState (p ++ suf) 0 1 (Z.of_nat (length p)) 0 0 st ct pass.
End BubblePass.

(** The effect of a pass of [shuttle_sort]: the element [x] shuttles
    leftward through the elements before it, given nearest first. *)
Section ShuttlePass.
Context {T : Type} `{Less T}.

Fixpoint shuttle_ins (x : T) (rpre : list T) : list T :=
  match rpre with
  | [] => [x]
  | y :: r => if op_lt x y then y :: shuttle_ins x r else x :: y :: r
  end.

Fixpoint shuttle_swaps (x : T) (rpre : list T) : Z :=
  match rpre with
  | [] => 0
  | y :: r => if op_lt x y then 1 + shuttle_swaps x r else 0
  end.

Fixpoint shuttle_comparisons (x : T) (rpre : list T) : Z :=
  match rpre with
  | [] => 0
  | y :: r => if op_lt x y then 1 + shuttle_comparisons x r else 1
  end.

Definition shuttle_insert (pre : list T) (x : T) : list T :=
  reverse (shuttle_ins x (reverse pre)).

(** The passes one after the other, each taking the next element. *)
Definition shuttle_list (v : list T) : list T :=
  match v with
  | [] => []
  | x :: l => foldl shuttle_insert [x] l
  end.
End ShuttlePass.

Section QuickScan.
Context {T : Type} `{Greater T}.

(** The state of the scan of [quick_sort]: [left] is scanned and does not
    exceed the pivot [p], [u] is still to scan, [right] exceeds the pivot. *)
Definition quick_at (pre left u : list T) (p : T) (right suf : list T)
  : quick_state :=
  let e1 := Z.of_nat (length pre) + Z.of_nat (length left) in
  let pivot_it := e1 + Z.of_nat (length u) in
  QuickState (pre ++ left ++ u ++ p :: right ++ suf) e1 (pivot_it - 1) pivot_it.

(** Ascending for [operator>]: no element exceeds a later one. *)
Definition ascending (l : list T) : Prop :=
  StronglySorted (λ a b, op_gt a b = false) l.
End QuickScan.

(** [k] runs of a piece of code, each on the state the run before left. *)
Fixpoint repeat_run {S : Type} (k : nat) (f : S → result S) (s : S) : result S :=
  match k with
  | O => Ok s
  | Datatypes.S k' => s' ← f s; repeat_run k' f s'
  end.

(** Elements made of a key and a tag, compared on the key alone: elements
    with one key are equal under the order and the tag tells them apart. *)
Global Instance tagged_less : Less (Z * Z) := λ a b, fst a <? fst b.

(** The fully reverse-sorted vector [n; n-1; ...; 1]. *)
Fixpoint countdown (n : nat) : list Z :=
  match n with
  | O => []
  | S k => Z.of_nat n :: countdown k
  end.

(** ** Measures on vectors *)

Section Inversions.
Context {T : Type} `{Less T}.

(** The elements of [l] that are less than [x]. *)
Fixpoint count_less (x : T) (l : list T) : Z :=
  match l with
  | [] => 0
  | y :: l' => (if op_lt y x then 1 else 0) + count_less x l'
  end.

(** The pairs of [l] that are out of order: a later element less than an
    earlier one. *)
Fixpoint inversions (l : list T) : Z :=
  match l with
  | [] => 0
  | x :: l' => count_less x l' + inversions l'
  end.

(** Neither is less than the other. *)
Definition same_rank (x y : T) : bool := negb (op_lt x y) && negb (op_lt y x).

(** The comparisons and the swaps of all the passes of [shuttle_sort], when
    [pre] has been dealt with and [rest] is to come; [f] counts one pass. *)
Fixpoint shuttle_count (f : T → list T → Z) (pre rest : list T) : Z :=
  match rest with
  | [] => 0
  | x :: rest' => f x (reverse pre) + shuttle_count f (shuttle_insert pre x) rest'
  end.
End Inversions.

(** The elements of [v] from [start] to [end'], both included. *)
Definition slice {T : Type} (v : list T) (start end' : Z) : list T :=
  take (Z.to_nat (end' - start + 1)) (drop (Z.to_nat start) v).

(** ** The utility that the driver leaves aside *)

Section WriteList.
Context `{Text Z}.

(** Lines 312 to 331.  The loop holds [i] and what has gone to the file. *)
Definition write_list_cond (count : Z) (s : Z * string) : bool :=
  fst s <=? count.

Definition write_list_body (s : Z * string) : result (ctl (Z * string)) :=
  let '(i, text) := s in
  Ok (Next (wrap (i + 1), text +:+ put i +:+ newline)).

Definition write_list (fuel : nat) (output_file : string) (count : Z)
    (w : world) : result world :=
  if open_out output_file w then
    s ← while_loop (write_list_cond count) write_list_body fuel (0, EmptyString);
    Ok (write_file output_file (snd s) w)
  else Ok (cout could_not_open w).
End WriteList.

(** What [dump_vector] sends to its file. *)
Definition dump_text {T : Type} `{Text T} (v : list T) : string :=
  foldl (λ text x, text +:+ put x +:+ newline) EmptyString v.

(** The files after [dump_vector] has been asked to write [v] to [name]. *)
Definition dumped {T : Type} `{Text T} (v : list T) (name : string)
    (locked : gset string) (files : gmap string string) : gmap string string :=
  if bool_decide (name ∉ locked) then <[name := dump_text v]> files else files.
(** ** The type [float] and its text

    [test_sorting_algorithms] reads a [vector<float>] with [data >> number]
    and [dump_vector] writes it with [out << *it].  Neither operator is code
    of the repository: they are embedded from the documentation of the
    stream library and of [printf], whose [%g] at precision 6 is what a
    stream writes a float with until it is told otherwise.

    A [float] is a finite single-precision number, the only kind that
    [operator>>] gives: [(-1)^f_neg * f_mant * 2^f_exp], with a significand
    of 24 bits and the exponent of the format. *)

Record float : Type := Float { f_neg : bool; f_mant : Z; f_exp : Z }.

Definition is_float (x : float) : Prop :=
  0 <= f_mant x < 2 ^ 24 ∧ -149 <= f_exp x <= 104 ∧
  (2 ^ 23 <= f_mant x ∨ f_exp x = -149).

(** The number that a float stands for, counted in units of [2^-149]. *)
Definition f_units (x : float) : Z :=
  (if f_neg x then -1 else 1) * (f_mant x * 2 ^ (f_exp x + 149)).

(** The built-in [<] and [>] of the finite floats. *)
Global Instance float_less : Less float | 100 :=
  λ a b, f_units a <? f_units b.
Global Instance float_greater : Greater float | 100 :=
  λ a b, f_units a >? f_units b.

(** The integer nearest to [n / d], the even one of the two when [n / d]
    lies halfway. *)
Definition round_half_even (n d : Z) : Z :=
  let q := n / d in
  let r := n mod d in
  if 2 * r <? d then q
  else if d <? 2 * r then q + 1
  else if Z.even q then q else q + 1.

(** The float nearest to [n / d], for [n >= 0] and [d > 0], as the
    conversion of [operator>>] rounds; none when the number is too large
    for a float, which fails the extraction. *)
Definition nearest_float (neg : bool) (n d : Z) : option float :=
  let e := Z.max (-149) (Z.log2 (n * 2 ^ 149 / d) - 172) in
  let m := round_half_even (n * 2 ^ Z.max 0 (- e)) (d * 2 ^ Z.max 0 e) in
  let '(m, e) := if m =? 2 ^ 24 then (2 ^ 23, e + 1) else (m, e) in
  if 104 <? e then None else Some (Float neg m e).

(** The float nearest to the decimal number [m * 10^k]. *)
Definition decimal_to_float (neg : bool) (m k : Z) : option float :=
  nearest_float neg (m * 10 ^ Z.max 0 k) (10 ^ Z.max 0 (- k)).

(** [log10 z] is one less than the number of decimal digits of [z]. *)
Fixpoint count_digits (fuel : nat) (z : Z) : Z :=
  match fuel with
  | O => 0
  | S fuel' => if z <? 10 then 0 else 1 + count_digits fuel' (z / 10)
  end.

Definition log10 (z : Z) : Z := count_digits (S (Z.to_nat (Z.log2 z))) z.

(** The exponent [X] with [10^X <= n / d < 10^(X + 1)], for a quotient
    that is not below [10^-50]. *)
Definition decimal_exponent (n d : Z) : Z := log10 (n * 10 ^ 50 / d) - 50.

(** [operator<<]: the digits. *)
Definition digit (d : Z) : ascii := ascii_of_nat (Z.to_nat (48 + d)).

(** The last [w] decimal digits of [n]. *)
Fixpoint digits (w : nat) (n : Z) : list Z :=
  match w with
  | O => []
  | S w' => digits w' (n / 10) ++ [n mod 10]
  end.

(** [%g] removes the zeros that end the fraction. *)
Fixpoint strip_zeros (ds : list Z) : list Z :=
  match ds with
  | [] => []
  | d :: ds' =>
      match strip_zeros ds' with
      | [] => if d =? 0 then [] else [d]
      | r => d :: r
      end
  end.

(** The digits [ds] with the decimal point after the first [ilen] of them;
    no point when no digit of the fraction is left. *)
Definition mantissa_text (ds : list Z) (ilen : nat) : list ascii :=
  let frac := strip_zeros (drop ilen ds) in
  (digit <$> take ilen ds) ++
  match frac with
  | [] => []
  | _ => "."%char :: (digit <$> frac)
  end.

(** [%g] at precision 6 for the number [D * 10^(X - 5)] of six digits [D]:
    the style of [%e] when the exponent [X] is below -4 or not below 6, with
    an exponent of two digits at least, and the style of [%f] otherwise. *)
Definition render (D X : Z) : list ascii :=
  let ds := digits 6 D in
  if (X <? -4) || (6 <=? X) then
    mantissa_text ds 1 ++
    "e"%char :: (if X <? 0 then "-"%char else "+"%char)
             :: (digit <$> digits 2 (Z.abs X))
  else if X <? 0 then mantissa_text (replicate (Z.to_nat (- X)) 0 ++ ds) 1
  else mantissa_text ds (S (Z.to_nat X)).

(** [out << x]: the sign, and the six digits nearest to the number, where a
    round-up to [10^6] is the next power of ten. *)
Definition put_float (x : float) : string :=
  String.string_of_list_ascii
    ((if f_neg x then ["-"%char] else []) ++
     if f_mant x =? 0 then ["0"%char]
     else
       let n := f_mant x * 2 ^ (f_exp x + 149) in
       let d := 2 ^ 149 in
       let X := decimal_exponent n d in
       let D := round_half_even (n * 10 ^ Z.max 0 (5 - X))
                                (d * 10 ^ Z.max 0 (X - 5)) in
       if D =? 1000000 then render 100000 (X + 1) else render D X).

(** [operator>>]: the white space it skips, the sign, the digits, the
    point, more digits, and an exponent.  A text with no digit, an [e] with
    no digit behind it, or a number too large fails the extraction. *)
Definition is_space (c : ascii) : bool :=
  let n := nat_of_ascii c in
  (n =? 32)%nat || ((9 <=? n)%nat && (n <=? 13)%nat).

Definition is_digit (c : ascii) : bool :=
  let n := nat_of_ascii c in (48 <=? n)%nat && (n <=? 57)%nat.

Definition digit_value (c : ascii) : Z := Z.of_nat (nat_of_ascii c) - 48.

Fixpoint skip_spaces (cs : list ascii) : list ascii :=
  match cs with
  | c :: cs' => if is_space c then skip_spaces cs' else cs
  | [] => []
  end.

Fixpoint span_digits (cs : list ascii) : list ascii * list ascii :=
  match cs with
  | c :: cs' =>
      if is_digit c then let '(ds, rest) := span_digits cs' in (c :: ds, rest)
      else ([], cs)
  | [] => ([], [])
  end.

Definition number (ds : list ascii) : Z :=
  foldl (λ a c, 10 * a + digit_value c) 0 ds.

Definition read_sign (cs : list ascii) : bool * list ascii :=
  match cs with
  | c :: cs' =>
      if Ascii.eqb c "-" then (true, cs')
      else if Ascii.eqb c "+" then (false, cs')
      else (false, cs)
  | [] => (false, [])
  end.

Definition read_exponent (cs : list ascii) : option (Z * list ascii) :=
  match cs with
  | c :: cs' =>
      if Ascii.eqb c "e" || Ascii.eqb c "E" then
        let '(neg, cs'') := read_sign cs' in
        let '(ds, rest) := span_digits cs'' in
        match ds with
        | [] => None
        | _ => Some (if neg : bool then - number ds else number ds, rest)
        end
      else Some (0, cs)
  | [] => Some (0, [])
  end.

Definition read_float (cs : list ascii) : option (float * list ascii) :=
  let '(neg, cs) := read_sign (skip_spaces cs) in
  let '(ip, cs) := span_digits cs in
  let '(fp, cs) :=
    match cs with
    | c :: cs' => if Ascii.eqb c "." then span_digits cs' else ([], cs)
    | [] => ([], [])
    end in
  match ip ++ fp with
  | [] => None
  | ds =>
      '(e, rest) ← read_exponent cs;
      x ← decimal_to_float neg (number ds) (e - Z.of_nat (length fp));
      Some (x, rest)
  end.

(** [while (data >> number) v.push_back(number);], lines 372 to 376.  An
    extraction that succeeds takes one character at least, so the length of
    the text is fuel enough. *)
Fixpoint read_floats (fuel : nat) (cs : list ascii) : list float :=
  match fuel with
  | O => []
  | S fuel' =>
      match read_float cs with
      | Some (x, rest) => x :: read_floats fuel' rest
      | None => []
      end
  end.

Definition get_all_float (text : string) : list float :=
  let cs := String.list_ascii_of_string text in read_floats (length cs) cs.

Global Instance float_text : Text float := {
  put := put_float;
  get_all := get_all_float
}.


(** The number that a list of digits writes. *)
Definition value (ds : list Z) : Z := foldl (λ a d, 10 * a + d) 0 ds.

Definition is_decimal (ds : list Z) : Prop := Forall (λ d, 0 <= d <= 9) ds.

(** Where the digits of a number end: at the end of the text, or at a
    character that is not a digit, nor the decimal point. *)
Definition ends_number (cs : list ascii) : Prop :=
  match cs with
  | c :: _ => is_digit c = false
  | [] => True
  end.

Definition ends_mantissa (cs : list ascii) : Prop :=
  match cs with
  | c :: _ => is_digit c = false ∧ Ascii.eqb c "." = false
  | [] => True
  end.

(** The floats that the loader makes of decimal numbers of six significant
    digits at most: zero, and the numbers [D * 10^k] from [1e-37] up to
    [1e38]. *)
Definition six_digits (x : float) : Prop :=
  ∃ (neg : bool) (D k : Z),
    (D = 0 ∨ (100000 <= D < 1000000 ∧ -42 <= k <= 32)) ∧
    decimal_to_float neg D k = Some x.

(** The characters that [dump_vector] sends to the file. *)
Definition lines (v : list float) : list ascii :=
  concat ((λ x, String.list_ascii_of_string (put_float x) ++ ["010"%char]) <$> v).
(** * Properties *)

(** ** Arithmetic of [int] *)

Lemma wrap_small z : -2147483648 <= z <= INT_MAX → wrap z = z.
Proof.
  unfold wrap, INT_MAX. intros Hz.
  rewrite Z.mod_small by lia. lia.
Qed.

Lemma wrap_range z : -2147483648 <= wrap z <= INT_MAX.
Proof.
  unfold wrap, INT_MAX.
  pose proof (Z.mod_pos_bound (z + 2147483648) 4294967296). lia.
Qed.

Lemma wrap_wrap z : wrap (wrap z) = wrap z.
Proof. apply wrap_small, wrap_range. Qed.

Lemma wrap_add_l a b : wrap (wrap a + b) = wrap (a + b).
Proof.
  unfold wrap.
  replace ((a + 2147483648) mod 4294967296 - 2147483648 + b + 2147483648)
    with ((a + 2147483648) mod 4294967296 + b) by lia.
  replace (a + b + 2147483648) with (a + 2147483648 + b) by lia.
  rewrite Zplus_mod_idemp_l. reflexivity.
Qed.

Lemma wrap_add_r a b : wrap (a + wrap b) = wrap (a + b).
Proof. rewrite Z.add_comm, wrap_add_l. f_equal. lia. Qed.

(** ** Reading and writing in the middle of a vector *)

Section VectorFacts.
Context {T : Type}.
Implicit Types (v l pre suf : list T) (x y : T) (it : Z).

Lemma deref_middle pre x suf it :
  it = Z.of_nat (length pre) → deref (pre ++ x :: suf) it = Ok x.
Proof.
  intros ->. unfold deref.
  destruct (Z.leb_spec 0 (Z.of_nat (length pre))); [|lia].
  rewrite Nat2Z.id, list_lookup_middle; done.
Qed.

Lemma store_middle pre x suf it y :
  it = Z.of_nat (length pre) →
  store (pre ++ x :: suf) it y = Ok (pre ++ y :: suf).
Proof.
  intros ->. unfold store.
  rewrite length_app. cbn [length].
  destruct (Z.leb_spec 0 (Z.of_nat (length pre))); [|lia].
  destruct (Z.ltb_spec (Z.of_nat (length pre))
              (Z.of_nat (length pre + S (length suf)))); [|lia].
  cbn. rewrite Nat2Z.id, insert_app_r_alt, Nat.sub_diag by lia. done.
Qed.

Lemma deref_at v pre x suf it :
  v = pre ++ x :: suf → it = Z.of_nat (length pre) → deref v it = Ok x.
Proof. intros ->. apply deref_middle. Qed.

Lemma store_at v pre x suf it y :
  v = pre ++ x :: suf → it = Z.of_nat (length pre) →
  store v it y = Ok (pre ++ y :: suf).
Proof. intros ->. apply store_middle. Qed.

End VectorFacts.

(** ** Rules for loops *)

Section LoopFacts.
Context {S : Type}.
Implicit Types (cond : S → bool) (body : S → result (ctl S)).

Lemma while_loop_done cond body fuel s :
  cond s = false → while_loop cond body fuel s = Ok s.
Proof. intros E. destruct fuel; cbn; rewrite E; reflexivity. Qed.

Lemma while_loop_next cond body fuel s s' :
  cond s = true → body s = Ok (Next s') →
  while_loop cond body (Datatypes.S fuel) s = while_loop cond body fuel s'.
Proof. intros E1 E2. cbn. rewrite E1, E2. reflexivity. Qed.

Lemma while_loop_break cond body fuel s s' :
  cond s = true → body s = Ok (Break s') →
  while_loop cond body (Datatypes.S fuel) s = Ok s'.
Proof. intros E1 E2. cbn. rewrite E1, E2. reflexivity. Qed.

(** A loop with an invariant and a measure that each iteration lowers
    returns, and its final state satisfies the postcondition. *)
Lemma while_loop_rule cond body (Inv Post : S → Prop) (m : S → nat) :
  (∀ s, Inv s → cond s = false → Post s) →
  (∀ s, Inv s → cond s = true →
     ∃ r, body s = Ok r ∧
          match r with
          | Next s' => Inv s' ∧ (m s' < m s)%nat
          | Break s' => Post s'
          end) →
  ∀ fuel s, Inv s → (m s < fuel)%nat →
    ∃ s', while_loop cond body fuel s = Ok s' ∧ Post s'.
Proof.
  intros Hexit Hstep fuel. induction fuel as [|fuel IH]; intros s HI Hm; [lia|].
  destruct (cond s) eqn:Ec.
  - destruct (Hstep s HI Ec) as (r & Hr & Hpost). destruct r as [s'|s'].
    + destruct Hpost as [HI' Hlt].
      rewrite (while_loop_next _ _ _ _ _ Ec Hr). apply IH; [done|lia].
    + rewrite (while_loop_break _ _ _ _ _ Ec Hr). eauto.
  - rewrite while_loop_done by done. eauto.
Qed.

(** What every iteration keeps still holds when the loop returns. *)
Lemma while_loop_preserves cond body (I : S → Prop) :
  (∀ s s', I s → body s = Ok (Next s') ∨ body s = Ok (Break s') → I s') →
  ∀ fuel s s', I s → while_loop cond body fuel s = Ok s' → I s'.
Proof.
  intros Hstep fuel. induction fuel as [|fuel IH]; intros s s' HI; cbn.
  - destruct (cond s); [done|]. by intros [= <-].
  - destruct (cond s); [|by intros [= <-]].
    destruct (body s) as [[s1|s1]| | |] eqn:E; [| |done..].
    + apply IH. eapply Hstep; eauto.
    + intros [= <-]. eapply Hstep; eauto.
Qed.

End LoopFacts.

(** ** Bubble sort: one pass *)

Section BubblePassFacts.
Context {T : Type} `{Less T}.
Implicit Types (v l pre suf : list T) (x y : T).

Lemma bubble_inner_body_eq pre a b suf e1 en c s st ct p :
  e1 = Z.of_nat (length pre) →
  bubble_inner_body
    (BubbleState (pre ++ a :: b :: suf) e1 (e1 + 1) en c s st ct p)
  = Ok (Next (BubbleState
                (pre ++ (if op_lt b a then b :: a :: suf else a :: b :: suf))
                (e1 + 1) (e1 + 1 + 1) en (wrap (c + 1))
                (if op_lt b a then wrap (s + 1) else s) st ct p)).
Proof.
  intros He1. unfold bubble_inner_body. cbn [b_v b_e1 b_e2 b_end b_comparisons
    b_swaps b_swaps_total b_comparisons_total b_pass].
  assert (Hb : deref (pre ++ a :: b :: suf) (e1 + 1) = Ok b).
  { replace (pre ++ a :: b :: suf) with ((pre ++ [a]) ++ b :: suf)
      by (rewrite <- app_assoc; reflexivity).
    apply deref_middle. rewrite length_app. cbn. lia. }
  rewrite Hb, (deref_middle pre a) by done. cbn.
  destruct (op_lt b a); cbn; [|reflexivity].
  rewrite (store_middle pre a) by done. cbn.
  replace (pre ++ b :: b :: suf) with ((pre ++ [b]) ++ b :: suf)
    by (rewrite <- app_assoc; reflexivity).
  rewrite store_middle by (rewrite length_app; cbn; lia). cbn.
  rewrite <- app_assoc. reflexivity.
Qed.

Lemma bubble_pass_length x l : length (bubble_pass x l) = Datatypes.S (length l).
Proof.
  revert x. induction l as [|y l IH]; intros x; cbn; [done|].
  destruct (op_lt y x); cbn; rewrite IH; done.
Qed.

Lemma bubble_swaps_range x l : 0 <= bubble_swaps x l <= Z.of_nat (length l).
Proof.
  revert x. induction l as [|y l IH]; intros x; cbn [bubble_swaps length]; [lia|].
  destruct (op_lt y x); [specialize (IH x)|specialize (IH y)]; lia.
Qed.

(** The inner loop, run from the pair at [pre], is [bubble_pass]. *)
Lemma bubble_inner_loop l : ∀ pre x suf fuel e1 c s st ct p,
  (length l ≤ fuel)%nat →
  e1 = Z.of_nat (length pre) →
  wrap c = c → wrap s = s →
  while_loop bubble_inner_cond bubble_inner_body fuel
    (BubbleState (pre ++ x :: l ++ suf) e1 (e1 + 1)
       (e1 + 1 + Z.of_nat (length l)) c s st ct p)
  = Ok (BubbleState (pre ++ bubble_pass x l ++ suf)
          (e1 + Z.of_nat (length l)) (e1 + 1 + Z.of_nat (length l))
          (e1 + 1 + Z.of_nat (length l))
          (wrap (c + Z.of_nat (length l)))
          (wrap (s + bubble_swaps x l)) st ct p).
Proof.
  induction l as [|y l IH]; intros pre x suf fuel e1 c s st ct p Hf He1 Hc Hs.
  - rewrite while_loop_done.
    + cbn. rewrite !Z.add_0_r, Hc, Hs. reflexivity.
    + unfold bubble_inner_cond. cbn. apply Z.ltb_ge. lia.
  - destruct fuel as [|fuel]; [cbn in Hf; lia|].
    erewrite while_loop_next; cycle 1.
    { unfold bubble_inner_cond. cbn [b_e2 b_end length]. apply Z.ltb_lt. lia. }
    { cbn [app]. apply bubble_inner_body_eq. done. }
    cbn [bubble_pass bubble_swaps length].
    replace (e1 + 1 + Z.of_nat (Datatypes.S (length l)))
      with (e1 + 1 + 1 + Z.of_nat (length l)) by lia.
    destruct (op_lt y x).
    + replace (pre ++ y :: x :: l ++ suf) with ((pre ++ [y]) ++ x :: l ++ suf)
        by (rewrite <- app_assoc; reflexivity).
      rewrite IH; [|cbn in Hf; lia|rewrite length_app; cbn; lia
                    |apply wrap_wrap|apply wrap_wrap].
      rewrite <- app_assoc, !wrap_add_l. cbn [app]. do 2 f_equal; first [lia | f_equal; lia].
    + replace (pre ++ x :: y :: l ++ suf) with ((pre ++ [x]) ++ y :: l ++ suf)
        by (rewrite <- app_assoc; reflexivity).
      rewrite IH; [|cbn in Hf; lia|rewrite length_app; cbn; lia
                    |apply wrap_wrap|done].
      rewrite <- app_assoc, !wrap_add_l. cbn [app]. do 2 f_equal; first [lia | f_equal; lia].
Qed.
End BubblePassFacts.

(** ** Bubble sort: the passes *)

Section BubbleOuterFacts.
Context {T : Type} `{Less T}.
Implicit Types (v l pre suf : list T) (x y : T).

Lemma bubble_init_at v : bubble_init v = bubble_at v [] 0 0 1.
Proof. unfold bubble_init, bubble_at, begin, end_, size. rewrite app_nil_r. done. Qed.

Lemma bubble_pass_snoc x l :
  ∃ init m, bubble_pass x l = init ++ [m] ∧ length init = length l.
Proof.
  destruct (bubble_pass x l) as [|z r] eqn:E using rev_ind.
  - apply (f_equal length) in E. rewrite bubble_pass_length in E. done.
  - exists r, z. split; [done|].
    apply (f_equal length) in E.
    rewrite bubble_pass_length, length_app in E. cbn in E. lia.
Qed.

Lemma bubble_outer_body_nil fuel st ct pass :
  bubble_outer_body fuel (bubble_at [] [] st ct pass)
  = Ok (Break (BubbleState [] 0 1 0 0 0 (wrap st) (wrap ct) pass)).
Proof.
  unfold bubble_outer_body, bubble_at.
  rewrite while_loop_done by done. cbn. rewrite !Z.add_0_r. done.
Qed.

Lemma bubble_outer_body_cons fuel x l suf st ct pass :
  (length l ≤ fuel)%nat →
  bubble_outer_body fuel (bubble_at (x :: l) suf st ct pass)
  = Ok (if wrap (bubble_swaps x l) =? 0 then
          Break (BubbleState (bubble_pass x l ++ suf) 0 1
                   (Z.of_nat (length (x :: l)))
                   (wrap (Z.of_nat (length l))) (wrap (bubble_swaps x l))
                   (wrap (st + bubble_swaps x l))
                   (wrap (ct + Z.of_nat (length l))) pass)
        else
          Next (BubbleState (bubble_pass x l ++ suf) 0 1
                  (Z.of_nat (length l)) 0 0
                  (wrap (st + bubble_swaps x l))
                  (wrap (ct + Z.of_nat (length l))) (wrap (pass + 1)))).
Proof.
  intros Hf. unfold bubble_outer_body, bubble_at.
  pose proof (bubble_inner_loop l [] x suf fuel 0 0 0 st ct pass Hf
                eq_refl eq_refl eq_refl) as E.
  cbn [app length] in *. rewrite !Z.add_0_l in E.
  replace (Z.of_nat (Datatypes.S (length l))) with (1 + Z.of_nat (length l))
    by lia.
  rewrite E. cbn.
  rewrite !wrap_add_r.
  unfold begin, mret, result_ret.
  destruct (wrap (bubble_swaps x l) =? 0); do 3 f_equal; lia.
Qed.

(** Reasoning on the passes: [Q] holds at the head of each pass, and the
    pass without a swap establishes [Post]. *)
Lemma bubble_sort_rule fuel
    (Q : list T → list T → Z → Z → Z → Prop) (Post : bubble_state → Prop) :
  (∀ x l suf st ct pass,
     Q (x :: l) suf st ct pass → wrap (bubble_swaps x l) = 0 →
     Post (BubbleState (bubble_pass x l ++ suf) 0 1
             (Z.of_nat (length (x :: l)))
             (wrap (Z.of_nat (length l))) (wrap (bubble_swaps x l))
             (wrap (st + bubble_swaps x l))
             (wrap (ct + Z.of_nat (length l))) pass)) →
  (∀ x l suf st ct pass init m,
     Q (x :: l) suf st ct pass → wrap (bubble_swaps x l) ≠ 0 →
     bubble_pass x l = init ++ [m] →
     Q init (m :: suf) (wrap (st + bubble_swaps x l))
       (wrap (ct + Z.of_nat (length l))) (wrap (pass + 1))) →
  ∀ x l, (length (x :: l) < fuel)%nat → Q (x :: l) [] 0 0 1 →
    ∃ s', bubble_sort fuel (x :: l) = Ok s' ∧ Post s'.
Proof.
  intros Hbreak Hnext x0 l0 Hfuel HQ0.
  unfold bubble_sort. rewrite bubble_init_at.
  apply (while_loop_rule _ _
           (λ s, ∃ x l suf st ct pass,
               s = bubble_at (x :: l) suf st ct pass ∧
               Q (x :: l) suf st ct pass ∧ (length l < fuel)%nat)
           Post (λ s, Z.to_nat (b_end s))).
  - intros s _ [=].
  - intros s (x & l & suf & st & ct & pass & -> & HQ & Hl) _.
    rewrite bubble_outer_body_cons by lia.
    eexists; split; [reflexivity|].
    destruct (Z.eqb_spec (wrap (bubble_swaps x l)) 0) as [E|E].
    + apply Hbreak; done.
    + destruct (bubble_pass_snoc x l) as (init & m & Hp & Hlen).
      assert (l ≠ []) as Hne.
      { intros ->. cbn in E. done. }
      destruct init as [|x' l']; [destruct l; cbn in Hlen; done|].
      split.
      * exists x', l', (m :: suf), (wrap (st + bubble_swaps x l)),
          (wrap (ct + Z.of_nat (length l))), (wrap (pass + 1)).
        split; [|split].
        -- unfold bubble_at. rewrite Hp, <- Hlen, <- app_assoc. done.
        -- eapply Hnext; eauto.
        -- cbn in Hlen. lia.
      * cbn [b_end bubble_at length]. lia.
  - exists x0, l0, [], 0, 0, 1. split; [done|]. split; [done|]. cbn in Hfuel. lia.
  - cbn [bubble_at b_end]. cbn in *. lia.
Qed.
End BubbleOuterFacts.

(** ** Bubble sort: what a pass does to the elements *)

Section OrderFacts.
Context {T : Type} (lt : T → T → bool) (Hswo : strict_weak_order lt).

Lemma swo_irrefl a : lt a a = false.
Proof.
  destruct (lt a a) eqn:E; [|done].
  pose proof (swo_asym lt Hswo a a E). congruence.
Qed.

Global Instance not_after_transitive : Transitive (not_after lt).
Proof.
  intros a b c Hab Hbc. unfold not_after in *.
  eapply (swo_negtrans lt Hswo); eauto.
Qed.

Lemma nondecreasing_of_sorted l : Sorted (not_after lt) l → nondecreasing lt l.
Proof. apply Sorted_StronglySorted. apply _. Qed.
End OrderFacts.

Section BubblePassProps.
Context {T : Type} `{Less T}.
Implicit Types (v l pre suf : list T) (x y : T).

Lemma bubble_pass_perm x l : bubble_pass x l ≡ₚ x :: l.
Proof.
  revert x. induction l as [|y l IH]; intros x; cbn; [done|].
  destruct (op_lt y x); rewrite IH; [apply Permutation_swap|done].
Qed.

(** A pass carries a greatest element to the end. *)
Lemma bubble_pass_last_max x l init m :
  strict_weak_order op_lt →
  bubble_pass x l = init ++ [m] →
  ∀ y, y ∈ x :: l → op_lt m y = false.
Proof.
  intros Hswo. revert x init.
  induction l as [|z l IH]; intros x init E y Hy.
  - cbn in E. destruct init as [|? [|]]; simplify_eq/=.
    apply list_elem_of_singleton in Hy as ->. by apply swo_irrefl.
  - cbn in E. destruct (op_lt z x) eqn:Hzx.
    + destruct init as [|z' init]; simplify_eq/=.
      { pose proof (bubble_pass_length x l). destruct (bubble_pass x l); done. }
      assert (Hmx : op_lt m x = false)
        by (eapply IH; [done|apply list_elem_of_here]).
      apply elem_of_cons in Hy as [->|Hy%elem_of_cons].
      * done.
      * destruct Hy as [->|Hy].
        -- eapply (swo_negtrans _ Hswo); [exact Hmx|].
           by apply (swo_asym _ Hswo).
        -- eapply IH; [done|]. by apply list_elem_of_further.
    + destruct init as [|x' init]; simplify_eq/=.
      { pose proof (bubble_pass_length z l). destruct (bubble_pass z l); done. }
      assert (Hmz : op_lt m z = false)
        by (eapply IH; [done|apply list_elem_of_here]).
      apply elem_of_cons in Hy as [->|Hy].
      * eapply (swo_negtrans _ Hswo); eauto.
      * eapply IH; done.
Qed.

(** A pass without a swap has found the elements in order. *)
Lemma bubble_swaps_zero x l :
  bubble_swaps x l = 0 →
  bubble_pass x l = x :: l ∧ Sorted (not_after op_lt) (x :: l).
Proof.
  revert x. induction l as [|y l IH]; intros x E; cbn in *.
  - split; [done|]. repeat constructor.
  - destruct (op_lt y x) eqn:Hyx.
    + pose proof (bubble_swaps_range x l). lia.
    + destruct (IH y E) as [-> HS]. split; [done|].
      constructor; [done|]. constructor. done.
Qed.

(** A pass swaps no two elements of a class of equal elements. *)
Lemma bubble_pass_filter (P : T → bool) x l :
  equal_class op_lt P →
  List.filter P (bubble_pass x l) = List.filter P (x :: l).
Proof.
  intros HP. revert x. induction l as [|y l IH]; intros x; [done|].
  cbn [bubble_pass]. destruct (op_lt y x) eqn:Hyx.
  - cbn [List.filter]. rewrite IH. cbn [List.filter].
    destruct (P y) eqn:Py, (P x) eqn:Px; try done.
    rewrite (HP y x Py Px) in Hyx. done.
  - cbn [List.filter]. rewrite IH. done.
Qed.

(** On elements that are all less than the one in hand, a pass swaps at
    every comparison. *)
Lemma bubble_pass_decreasing x l :
  Forall (λ y, op_lt y x = true) l →
  bubble_pass x l = l ++ [x] ∧ bubble_swaps x l = Z.of_nat (length l).
Proof.
  induction 1 as [|y l Hy Hl [IH1 IH2]]; cbn [bubble_pass bubble_swaps]; [done|].
  rewrite Hy, IH1, IH2. split; [done|]. cbn [length]. lia.
Qed.
End BubblePassProps.

(** ** Bubble sort: the whole routine *)

Section BubbleSortProps.
Context {T : Type} `{Less T}.
Implicit Types (v l pre suf : list T) (x y : T).

Lemma bubble_sort_nil fuel :
  bubble_sort (Datatypes.S fuel) ([] : list T)
  = Ok (BubbleState [] 0 1 0 0 0 0 0 1).
Proof.
  unfold bubble_sort. rewrite bubble_init_at.
  erewrite while_loop_break; [done|done|].
  apply bubble_outer_body_nil.
Qed.

Lemma wrap_swaps_zero x l :
  Z.of_nat (length l) <= INT_MAX → wrap (bubble_swaps x l) = 0 →
  bubble_swaps x l = 0.
Proof.
  intros Hl E. pose proof (bubble_swaps_range x l).
  rewrite wrap_small in E; [done|lia].
Qed.

Lemma bubble_sort_sorts fuel v :
  strict_weak_order op_lt →
  (length v < fuel)%nat → size v <= INT_MAX →
  ∃ s, bubble_sort fuel v = Ok s ∧ b_v s ≡ₚ v ∧ nondecreasing op_lt (b_v s).
Proof.
  intros Hswo Hfuel Hsize. destruct v as [|x0 l0].
  { destruct fuel; [cbn in Hfuel; lia|]. rewrite bubble_sort_nil.
    eexists; split; [done|]. split; [done|]. constructor. }
  apply (bubble_sort_rule fuel
           (λ p suf _ _ _,
              p ++ suf ≡ₚ x0 :: l0 ∧ nondecreasing op_lt suf ∧
              (∀ a b, a ∈ p → b ∈ suf → not_after op_lt a b))
           (λ s, b_v s ≡ₚ x0 :: l0 ∧ nondecreasing op_lt (b_v s))); [| |done|].
  - intros x l suf st ct pass (Hperm & Hsuf & Hle) Hz. cbn [b_v].
    apply wrap_swaps_zero in Hz; cycle 1.
    { apply Permutation_length in Hperm. unfold size in Hsize.
      rewrite length_app in Hperm. cbn [length] in *. lia. }
    apply bubble_swaps_zero in Hz as [-> HS]. split; [done|].
    apply StronglySorted_app_2; [done| |done].
    by apply nondecreasing_of_sorted.
  - intros x l suf st ct pass init m (Hperm & Hsuf & Hle) _ Hp.
    pose proof (bubble_pass_perm x l) as Hpp. rewrite Hp in Hpp.
    assert (Hm : m ∈ x :: l).
    { rewrite <- Hpp. apply elem_of_app. right. apply list_elem_of_here. }
    assert (Hinit : ∀ a, a ∈ init → a ∈ x :: l).
    { intros a Ha. rewrite <- Hpp. apply elem_of_app. by left. }
    split; [|split].
    + rewrite <- Hperm, <- Hpp, <- app_assoc. done.
    + apply StronglySorted_cons. split; [|done].
      apply Forall_forall. intros b Hb. by apply Hle.
    + intros a b Ha [->|Hb]%elem_of_cons.
      * unfold not_after. eapply bubble_pass_last_max; eauto.
      * apply Hle; auto.
  - split; [by rewrite app_nil_r|]. split; [constructor|].
    intros a b _ Hb. by apply elem_of_nil in Hb.
Qed.

Lemma bubble_sort_stable fuel v (P : T → bool) :
  equal_class op_lt P →
  (length v < fuel)%nat →
  ∃ s, bubble_sort fuel v = Ok s ∧ List.filter P (b_v s) = List.filter P v.
Proof.
  intros HP Hfuel. destruct v as [|x0 l0].
  { destruct fuel; [cbn in Hfuel; lia|]. rewrite bubble_sort_nil. eauto. }
  apply (bubble_sort_rule fuel
           (λ p suf _ _ _, List.filter P (p ++ suf) = List.filter P (x0 :: l0))
           (λ s, List.filter P (b_v s) = List.filter P (x0 :: l0))); [| |done|].
  - intros x l suf st ct pass HQ _. cbn [b_v].
    rewrite List.filter_app, bubble_pass_filter, <- List.filter_app; done.
  - intros x l suf st ct pass init m HQ _ Hp.
    rewrite <- HQ. change (m :: suf) with ([m] ++ suf).
    rewrite app_assoc, <- Hp.
    rewrite !List.filter_app, bubble_pass_filter; done.
  - by rewrite app_nil_r.
Qed.

Lemma bubble_sort_singleton fuel x :
  bubble_sort (Datatypes.S fuel) [x] = Ok (BubbleState [x] 0 1 1 0 0 0 0 1).
Proof.
  unfold bubble_sort. rewrite bubble_init_at.
  erewrite while_loop_break; [done|done|].
  rewrite bubble_outer_body_cons by (cbn; lia). done.
Qed.

(** The sort returns, and the pass it returns from has made no swap. *)
Lemma bubble_sort_last_pass fuel v :
  (length v < fuel)%nat → ∃ s, bubble_sort fuel v = Ok s ∧ b_swaps s = 0.
Proof.
  intros Hfuel. destruct v as [|x0 l0].
  { destruct fuel; [cbn in Hfuel; lia|]. rewrite bubble_sort_nil. eauto. }
  apply (bubble_sort_rule fuel (λ _ _ _ _ _, True) (λ s, b_swaps s = 0));
    done.
Qed.

(** A pass that makes no swap is the last one. *)
Lemma bubble_sort_stops fuel fuel' x l suf st ct pass :
  (length l ≤ fuel)%nat → bubble_swaps x l = 0 →
  ∃ s, while_loop (λ _, true) (bubble_outer_body fuel) (Datatypes.S fuel')
         (bubble_at (x :: l) suf st ct pass) = Ok s ∧
       b_v s = x :: l ++ suf ∧ b_swaps s = 0 ∧ b_pass s = pass.
Proof.
  intros Hfuel E.
  erewrite while_loop_break;
    [|done|rewrite bubble_outer_body_cons, E by done; reflexivity].
  eexists; split; [done|]. cbn.
  apply bubble_swaps_zero in E as [-> _]. done.
Qed.

Lemma bubble_sort_reverse_swaps fuel v :
  strictly_decreasing op_lt v →
  (length v < fuel)%nat → size v <= INT_MAX →
  ∃ s, bubble_sort fuel v = Ok s ∧
       b_swaps_total s = wrap (size v * (size v - 1) / 2).
Proof.
  intros Hdec Hfuel Hsize. destruct v as [|x0 l0].
  { destruct fuel; [cbn in Hfuel; lia|]. rewrite bubble_sort_nil. eauto. }
  set (n := size (x0 :: l0)) in *.
  enough (∃ s, bubble_sort fuel (x0 :: l0) = Ok s ∧
               ∃ tot, b_swaps_total s = wrap tot ∧ 2 * tot = n * (n - 1))
    as (s & Hs & tot & Hst & Htot).
  { exists s. split; [done|]. rewrite Hst. f_equal.
    rewrite <- Htot, Z.mul_comm, Z.div_mul; lia. }
  apply (bubble_sort_rule fuel
           (λ p suf st _ _,
              strictly_decreasing op_lt p ∧ size p <= INT_MAX ∧
              ∃ tot, st = wrap tot ∧
                     2 * tot = n * (n - 1) - size p * (size p - 1))
           (λ s, ∃ tot, b_swaps_total s = wrap tot ∧ 2 * tot = n * (n - 1)));
    [| |done|].
  - intros x l suf st ct pass (Hd & Hsz & tot & -> & Htot) Hz.
    cbn [b_swaps_total].
    apply StronglySorted_inv in Hd as [_ Hx].
    destruct (bubble_pass_decreasing x l Hx) as [_ Hk].
    rewrite Hk in *. unfold size in *. cbn [length] in *.
    rewrite wrap_small in Hz by (unfold INT_MAX in *; lia).
    exists tot. rewrite wrap_add_l. split; [f_equal; lia|]. nia.
  - intros x l suf st ct pass init m (Hd & Hsz & tot & -> & Htot) _ Hp.
    apply StronglySorted_inv in Hd as [Hl Hx].
    destruct (bubble_pass_decreasing x l Hx) as [Hpass Hk].
    rewrite Hpass in Hp. apply app_inj_tail in Hp as [<- <-].
    rewrite Hk. unfold size in *. cbn [length] in *.
    split; [done|]. split; [lia|].
    exists (tot + Z.of_nat (length l)). rewrite wrap_add_l.
    split; [done|]. nia.
  - split; [done|]. split; [done|]. exists 0. split; [done|]. fold n. lia.
Qed.
End BubbleSortProps.

(** ** Shuttle sort: one pass *)

Section ShuttlePassFacts.
Context {T : Type} `{Less T}.
Implicit Types (v l pre suf r : list T) (x y : T).

Lemma shuttle_ins_length x r :
  length (shuttle_ins x r) = Datatypes.S (length r).
Proof.
  induction r as [|y r IH]; cbn; [done|].
  destruct (op_lt x y); cbn; [rewrite IH|]; done.
Qed.

Lemma shuttle_ins_cons x y r :
  shuttle_ins x (y :: r)
  = if op_lt x y then y :: shuttle_ins x r else x :: y :: r.
Proof. done. Qed.

Lemma shuttle_swaps_cons x y r :
  shuttle_swaps x (y :: r) = if op_lt x y then 1 + shuttle_swaps x r else 0.
Proof. done. Qed.

Lemma shuttle_comparisons_cons x y r :
  shuttle_comparisons x (y :: r)
  = if op_lt x y then 1 + shuttle_comparisons x r else 1.
Proof. done. Qed.

Lemma shuttle_inner_cond_true l y x suf e1 s c st ct p n si :
  e1 = Z.of_nat (length l) →
  shuttle_inner_cond
    (ShuttleState (l ++ y :: x :: suf) e1 (e1 + 1) s c st ct p n si) = true.
Proof.
  intros ->. unfold shuttle_inner_cond, end_, size. cbn [s_e2 s_v].
  rewrite length_app. cbn [length]. apply negb_true_iff, Z.eqb_neq. lia.
Qed.

Lemma shuttle_inner_body_eq l y x suf e1 s c st ct p n si :
  e1 = Z.of_nat (length l) →
  shuttle_inner_body
    (ShuttleState (l ++ y :: x :: suf) e1 (e1 + 1) s c st ct p n si)
  = Ok (if op_lt x y then
          if e1 =? 0 then
            Break (ShuttleState (l ++ x :: y :: suf) e1 (e1 + 1)
                     (wrap (s + 1)) (wrap (c + 1)) st ct p n si)
          else
            Next (ShuttleState (l ++ x :: y :: suf) (e1 - 1) (e1 + 1 - 1)
                    (wrap (s + 1)) (wrap (c + 1)) st ct p n si)
        else
          Break (ShuttleState (l ++ y :: x :: suf) e1 (e1 + 1)
                   s (wrap (c + 1)) st ct p n si)).
Proof.
  intros He1. unfold shuttle_inner_body.
  cbn [s_v s_e1 s_e2 s_swaps s_comparisons s_swaps_total
         s_comparisons_total s_pass s_n s_start_index].
  assert (Hx : deref (l ++ y :: x :: suf) (e1 + 1) = Ok x).
  { replace (l ++ y :: x :: suf) with ((l ++ [y]) ++ x :: suf)
      by (rewrite <- app_assoc; done).
    apply deref_middle. rewrite length_app. cbn. lia. }
  rewrite Hx, (deref_middle l y) by done. cbn.
  destruct (op_lt x y); [|done]. cbn.
  rewrite (store_middle l y) by done. cbn.
  replace (l ++ x :: x :: suf) with ((l ++ [x]) ++ x :: suf)
    by (rewrite <- app_assoc; done).
  rewrite store_middle by (rewrite length_app; cbn; lia).
  cbn. rewrite <- app_assoc. cbn [app]. unfold begin.
  destruct (Z.eqb_spec e1 0); [done|].
  destruct (Z.gtb_spec e1 0); [done|lia].
Qed.

(** The inner loop, entered with [x] under [e2] and [y] under [e1]. *)
Lemma shuttle_inner_loop r : ∀ y x suf fuel e1 s c st ct p n si,
  (length (y :: r) ≤ fuel)%nat →
  e1 = Z.of_nat (length r) →
  wrap c = c → wrap s = s →
  ∃ e1' e2',
    while_loop shuttle_inner_cond shuttle_inner_body fuel
      (ShuttleState (reverse (y :: r) ++ x :: suf) e1 (e1 + 1)
         s c st ct p n si)
    = Ok (ShuttleState (reverse (shuttle_ins x (y :: r)) ++ suf) e1' e2'
            (wrap (s + shuttle_swaps x (y :: r)))
            (wrap (c + shuttle_comparisons x (y :: r))) st ct p n si).
Proof.
  induction r as [|z r IH]; intros y x suf fuel e1 s c st ct p n si
    Hf He1 Hc Hs.
  all: destruct fuel as [|fuel]; [cbn in Hf; lia|].
  all: rewrite (reverse_cons _ y), <- app_assoc; cbn [app].
  all: rewrite (shuttle_ins_cons x y), (shuttle_swaps_cons x y),
         (shuttle_comparisons_cons x y).
  - (* [y] is the first element of the vector *)
    pose proof (shuttle_inner_body_eq [] y x suf e1 s c st ct p n si He1)
      as Hbody.
    pose proof (shuttle_inner_cond_true [] y x suf e1 s c st ct p n si He1)
      as Hcond.
    subst e1. cbn [length Z.of_nat] in *. change (0 =? 0) with true in Hbody.
    rewrite reverse_nil. cbn [shuttle_ins shuttle_swaps shuttle_comparisons].
    destruct (op_lt x y).
    + erewrite while_loop_break; [|apply Hcond|apply Hbody].
      do 2 eexists. rewrite !Z.add_0_r. reflexivity.
    + erewrite while_loop_break; [|apply Hcond|apply Hbody].
      do 2 eexists. rewrite Z.add_0_r, Hs. reflexivity.
  - assert (He1' : e1 = Z.of_nat (length (reverse (z :: r))))
      by (rewrite length_reverse; done).
    pose proof (shuttle_inner_body_eq _ y x suf e1 s c st ct p n si He1')
      as Hbody.
    pose proof (shuttle_inner_cond_true _ y x suf e1 s c st ct p n si He1')
      as Hcond.
    destruct (Z.eqb_spec e1 0) as [E0|_]; [cbn in He1; lia|].
    destruct (op_lt x y).
    + erewrite while_loop_next; [|apply Hcond|apply Hbody].
      replace (e1 + 1 - 1) with (e1 - 1 + 1) by lia.
      destruct (IH z x (y :: suf) fuel (e1 - 1) (wrap (s + 1)) (wrap (c + 1))
                  st ct p n si) as (e1' & e2' & E);
        [cbn in *; lia|cbn in He1; lia|apply wrap_wrap|apply wrap_wrap|].
      rewrite E. exists e1', e2'.
      rewrite (reverse_cons (shuttle_ins x (z :: r)) y), <- app_assoc.
      rewrite !wrap_add_l. cbn [app].
      do 2 f_equal; f_equal; lia.
    + erewrite while_loop_break; [|apply Hcond|apply Hbody].
      do 2 eexists. rewrite Z.add_0_r, Hs.
      rewrite !reverse_cons, <- !app_assoc. reflexivity.
Qed.
End ShuttlePassFacts.

(** ** Shuttle sort: the passes *)

Section ShuttleOuterFacts.
Context {T : Type} `{Less T}.
Implicit Types (v l pre suf r : list T) (x y : T).

Lemma shuttle_insert_length pre x :
  length (shuttle_insert pre x) = Datatypes.S (length pre).
Proof.
  unfold shuttle_insert. rewrite length_reverse, shuttle_ins_length,
    length_reverse. done.
Qed.

(** One pass, from the state in which [pre] has been dealt with. *)
Lemma shuttle_pass_eq fuel pre x suf e1 e2 st ct pass n :
  pre ≠ [] → (length pre ≤ fuel)%nat →
  ∃ e1' e2',
    shuttle_pass fuel
      (ShuttleState (pre ++ x :: suf) e1 e2 0 0 st ct pass n
         (Z.of_nat (length pre) - 1))
    = Ok (ShuttleState (shuttle_insert pre x ++ suf) e1' e2' 0 0
            (wrap (st + shuttle_swaps x (reverse pre)))
            (wrap (ct + shuttle_comparisons x (reverse pre)))
            (wrap (pass + 1)) n (wrap (Z.of_nat (length pre) - 1 + 1))).
Proof.
  intros Hne Hf. unfold shuttle_pass, shuttle_insert.
  cbn [s_v s_e1 s_e2 s_swaps s_comparisons s_swaps_total
         s_comparisons_total s_pass s_n s_start_index].
  destruct pre as [|y pre' _] using rev_ind; [done|].
  rewrite reverse_snoc, length_app in *. cbn [length] in *.
  destruct (shuttle_inner_loop (reverse pre') y x suf fuel
              (begin ((pre' ++ [y]) ++ x :: suf)
               + (Z.of_nat (length pre' + 1) - 1))
              0 0 st ct pass n (Z.of_nat (length pre' + 1) - 1))
    as (e1' & e2' & E);
    [cbn; rewrite length_reverse; lia
    |unfold begin; rewrite length_reverse; lia|done|done|].
  rewrite reverse_cons, reverse_involutive in E. rewrite E.
  cbn. rewrite !wrap_add_r. rewrite !Z.add_0_l. eauto.
Qed.

Lemma shuttle_inner_body_keeps s s' :
  shuttle_inner_body s = Ok (Next s') ∨ shuttle_inner_body s = Ok (Break s') →
  s_pass s' = s_pass s ∧ s_n s' = s_n s ∧ s_start_index s' = s_start_index s.
Proof.
  unfold shuttle_inner_body.
  destruct (deref (s_v s) (s_e2 s)) as [x2| | |]; cbn; [|intros [|]; done..].
  destruct (deref (s_v s) (s_e1 s)) as [x1| | |]; cbn; [|intros [|]; done..].
  destruct (op_lt x2 x1); cbn; [|by intros [[= <-]|[= <-]]].
  destruct (store (s_v s) (s_e1 s) x2) as [v1| | |]; cbn; [|intros [|]; done..].
  destruct (store v1 (s_e2 s) x1) as [v2| | |]; cbn; [|intros [|]; done..].
  destruct (s_e1 s =? begin v2); [by intros [[= <-]|[= <-]]|].
  destruct (s_e1 s >? begin v2); by intros [[= <-]|[= <-]].
Qed.

Lemma shuttle_pass_keeps fuel s s' :
  shuttle_pass fuel s = Ok s' →
  s_pass s' = wrap (s_pass s + 1) ∧ s_n s' = s_n s.
Proof.
  unfold shuttle_pass.
  destruct (while_loop _ _ _ _) as [s1| | |] eqn:E; cbn; [|done..].
  intros [= <-]. cbn.
  apply (while_loop_preserves _ _
           (λ s0, s_pass s0 = s_pass s ∧ s_n s0 = s_n s)) in E as [-> ->];
    [done| |done].
  intros s0 s0' [<- <-] Hb. apply shuttle_inner_body_keeps in Hb.
  destruct Hb as (-> & -> & _). done.
Qed.

(** The outer loop is its body run as many times as [pass] is short of
    [n]: nothing else ends it. *)
Lemma shuttle_outer_repeat fuel k : ∀ fuel' s,
  (k ≤ fuel')%nat →
  s_pass s + Z.of_nat k = s_n s → 1 <= s_pass s → s_n s <= INT_MAX →
  while_loop shuttle_outer_cond (shuttle_outer_body fuel) fuel' s
  = repeat_run k (shuttle_pass fuel) s.
Proof.
  induction k as [|k IH]; intros fuel' s Hk Hp H1 Hn.
  - rewrite while_loop_done; [done|].
    unfold shuttle_outer_cond. apply Z.leb_gt.
    rewrite wrap_small; unfold INT_MAX in *; lia.
  - destruct fuel' as [|fuel']; [lia|].
    cbn [while_loop repeat_run].
    replace (shuttle_outer_cond s) with true; cycle 1.
    { symmetry. unfold shuttle_outer_cond. apply Z.leb_le.
      rewrite wrap_small; unfold INT_MAX in *; lia. }
    unfold shuttle_outer_body at 1.
    destruct (shuttle_pass fuel s) as [s'| | |] eqn:E; cbn; [|done..].
    apply shuttle_pass_keeps in E as [E1 E2].
    rewrite wrap_small in E1 by (unfold INT_MAX in *; lia).
    apply IH; lia.
Qed.

(** The routine carries out [shuttle_list], and counts its passes. *)
Lemma shuttle_sort_refines fuel v :
  (length v < fuel)%nat → size v <= INT_MAX →
  ∃ s, shuttle_sort fuel v = Ok s ∧ s_v s = shuttle_list v ∧
       s_pass s = Z.max 1 (size v) ∧ s_n s = size v.
Proof.
  intros Hfuel Hsize. destruct v as [|x0 l0].
  { unfold shuttle_sort. rewrite while_loop_done by done.
    eexists; split; [done|]. done. }
  unfold shuttle_sort.
  set (n := size (x0 :: l0)) in *.
  assert (Hn : wrap n = n) by (apply wrap_small; unfold n, size, INT_MAX in *; lia).
  destruct (while_loop_rule shuttle_outer_cond (shuttle_outer_body fuel)
           (λ s, ∃ pre rest e1 e2 st ct,
               s = ShuttleState (pre ++ rest) e1 e2 0 0 st ct
                     (Z.of_nat (length pre)) n (Z.of_nat (length pre) - 1) ∧
               pre ≠ [] ∧ size (pre ++ rest) = n ∧
               foldl shuttle_insert pre rest = shuttle_list (x0 :: l0))
           (λ s, s_v s = shuttle_list (x0 :: l0) ∧ s_pass s = n ∧ s_n s = n)
           (λ s, Z.to_nat (s_n s - s_pass s)) ) with fuel (shuttle_init (x0 :: l0))
    as (s & Hs & Hv & Hp & Hsn).
  - intros s (pre & rest & e1 & e2 & st & ct & -> & Hne & Hsz & Hfold) Hc.
    unfold shuttle_outer_cond in Hc. cbn [s_pass s_n s_v] in *.
    apply Z.leb_gt in Hc.
    rewrite wrap_small in Hc by (unfold n, size, INT_MAX in *; lia).
    unfold size in Hsz. rewrite length_app in Hsz.
    destruct rest; [|cbn in Hsz; lia].
    rewrite app_nil_r in *. cbn in Hfold, Hsz. split; [done|]. lia.
  - intros s (pre & rest & e1 & e2 & st & ct & -> & Hne & Hsz & Hfold) Hc.
    unfold shuttle_outer_cond in Hc. cbn [s_pass s_n s_v] in *.
    apply Z.leb_le in Hc.
    rewrite wrap_small in Hc by (unfold n, size, INT_MAX in *; lia).
    unfold size in Hsz. rewrite length_app in Hsz.
    destruct rest as [|x suf]; [cbn in Hsz; lia|]. cbn [length] in Hsz.
    unfold shuttle_outer_body.
    destruct (shuttle_pass_eq fuel pre x suf e1 e2 st ct
                (Z.of_nat (length pre)) n Hne) as (e1' & e2' & ->).
    { unfold n, size in *. cbn [length] in *. lia. }
    cbn. eexists. split; [done|].
    rewrite (wrap_small (Z.of_nat (length pre) + 1)),
      (wrap_small (Z.of_nat (length pre) - 1 + 1))
      by (unfold n, size, INT_MAX in *; cbn [length] in *; lia).
    split.
    + exists (shuttle_insert pre x), suf, e1', e2'. do 2 eexists.
      rewrite shuttle_insert_length.
      split; [do 2 f_equal; lia|].
      split; [intros E; apply (f_equal length) in E;
              rewrite shuttle_insert_length in E; done|].
      split; [|done].
      unfold size. rewrite length_app, shuttle_insert_length. lia.
    + cbn [s_n s_pass]. lia.
  - exists [x0], l0, 0, 1, 0, 0. unfold shuttle_init, begin.
    fold n. rewrite Hn. done.
  - unfold shuttle_init. cbn [s_n s_pass]. fold n. rewrite Hn.
    unfold n, size. cbn [length] in *. lia.
  - exists s. split; [done|]. split; [done|].
    split; [|done]. unfold n, size in *. cbn [length] in *. lia.
Qed.
End ShuttleOuterFacts.

(** ** Shuttle sort: what the passes do to the elements *)

Section ReverseFacts.
Context {T : Type}.
Implicit Types (l : list T).

Lemma StronglySorted_reverse (R : relation T) l :
  StronglySorted R l → StronglySorted (flip R) (reverse l).
Proof.
  induction 1 as [|x l Hl IH Hx]; [rewrite reverse_nil; constructor|].
  rewrite reverse_cons. apply StronglySorted_app_2; [|done|repeat constructor].
  intros a b Ha Hb%list_elem_of_singleton. subst b.
  rewrite elem_of_reverse in Ha.
  rewrite Forall_forall in Hx. unfold flip. by apply Hx.
Qed.

Lemma filter_reverse_bool (P : T → bool) l :
  List.filter P (reverse l) = reverse (List.filter P l).
Proof.
  induction l as [|x l IH]; [done|].
  rewrite reverse_cons, List.filter_app, IH. cbn [List.filter].
  destruct (P x); [by rewrite reverse_cons|by rewrite app_nil_r].
Qed.
End ReverseFacts.

Section ShuttleProps.
Context {T : Type} `{Less T}.
Implicit Types (v l pre suf r : list T) (x y : T).

Lemma shuttle_ins_perm x r : shuttle_ins x r ≡ₚ x :: r.
Proof.
  induction r as [|y r IH]; cbn; [done|].
  destruct (op_lt x y); [|done]. rewrite IH. apply Permutation_swap.
Qed.

Lemma shuttle_insert_perm pre x : shuttle_insert pre x ≡ₚ pre ++ [x].
Proof.
  unfold shuttle_insert.
  rewrite reverse_Permutation, shuttle_ins_perm, reverse_Permutation.
  apply Permutation_cons_append.
Qed.

Lemma shuttle_fold_perm rest : ∀ pre,
  foldl shuttle_insert pre rest ≡ₚ pre ++ rest.
Proof.
  induction rest as [|x rest IH]; intros pre; cbn [foldl].
  - by rewrite app_nil_r.
  - rewrite IH, shuttle_insert_perm, <- app_assoc. done.
Qed.

Lemma shuttle_list_perm v : shuttle_list v ≡ₚ v.
Proof. destruct v as [|x l]; [done|]. apply (shuttle_fold_perm l [x]). Qed.

(** The shuttle stops where the element belongs. *)
Lemma shuttle_ins_sorted x r :
  strict_weak_order op_lt →
  StronglySorted (flip (not_after op_lt)) r →
  StronglySorted (flip (not_after op_lt)) (shuttle_ins x r).
Proof.
  intros Hswo. induction 1 as [|y r Hr IH Hy]; cbn [shuttle_ins].
  - repeat constructor.
  - destruct (op_lt x y) eqn:Hxy.
    + constructor; [done|].
      rewrite shuttle_ins_perm. constructor; [|done].
      unfold flip, not_after. by apply (swo_asym _ Hswo).
    + constructor; [by constructor|].
      constructor; [done|].
      eapply Forall_impl; [exact Hy|]. intros z Hz.
      unfold flip, not_after in *. eapply (swo_negtrans _ Hswo); eauto.
Qed.

Lemma shuttle_insert_sorted pre x :
  strict_weak_order op_lt →
  nondecreasing op_lt pre → nondecreasing op_lt (shuttle_insert pre x).
Proof.
  intros Hswo Hpre. unfold shuttle_insert, nondecreasing.
  apply (StronglySorted_reverse (flip (not_after op_lt))).
  apply shuttle_ins_sorted; [done|].
  by apply StronglySorted_reverse.
Qed.

Lemma shuttle_fold_sorted rest : ∀ pre,
  strict_weak_order op_lt →
  nondecreasing op_lt pre → nondecreasing op_lt (foldl shuttle_insert pre rest).
Proof.
  induction rest as [|x rest IH]; intros pre Hswo Hpre; cbn [foldl]; [done|].
  apply IH; [done|]. by apply shuttle_insert_sorted.
Qed.

Lemma shuttle_list_sorted v :
  strict_weak_order op_lt → nondecreasing op_lt (shuttle_list v).
Proof.
  intros Hswo. destruct v as [|x l]; [constructor|].
  apply shuttle_fold_sorted; [done|]. repeat constructor.
Qed.

(** The shuttle passes no element of a class of equal elements. *)
Lemma shuttle_ins_filter (P : T → bool) x r :
  equal_class op_lt P →
  List.filter P (shuttle_ins x r) = List.filter P (x :: r).
Proof.
  intros HP. induction r as [|y r IH]; [done|].
  cbn [shuttle_ins]. destruct (op_lt x y) eqn:Hxy; [|done].
  cbn [List.filter] in *. rewrite IH.
  destruct (P y) eqn:Py, (P x) eqn:Px; try done.
  rewrite (HP x y Px Py) in Hxy. done.
Qed.

Lemma shuttle_insert_filter (P : T → bool) pre x :
  equal_class op_lt P →
  List.filter P (shuttle_insert pre x) = List.filter P (pre ++ [x]).
Proof.
  intros HP. unfold shuttle_insert.
  rewrite filter_reverse_bool, shuttle_ins_filter by done.
  rewrite <- filter_reverse_bool, reverse_cons, reverse_involutive. done.
Qed.

Lemma shuttle_fold_filter (P : T → bool) rest : ∀ pre,
  equal_class op_lt P →
  List.filter P (foldl shuttle_insert pre rest) = List.filter P (pre ++ rest).
Proof.
  induction rest as [|x rest IH]; intros pre HP; cbn [foldl].
  - by rewrite app_nil_r.
  - rewrite IH, !List.filter_app, shuttle_insert_filter by done.
    rewrite List.filter_app, <- app_assoc, <- List.filter_app. done.
Qed.

Lemma shuttle_list_filter (P : T → bool) v :
  equal_class op_lt P → List.filter P (shuttle_list v) = List.filter P v.
Proof.
  intros HP. destruct v as [|x l]; [done|].
  apply (shuttle_fold_filter P l [x] HP).
Qed.
End ShuttleProps.

(** ** Quick sort: the scan *)

Section QuickScanFacts.
Context {T : Type} `{Greater T}.
Implicit Types (v l pre suf left right u mid A B : list T) (x y a b p : T).

Local Ltac list_eq :=
  repeat first [rewrite <- app_assoc | progress cbn [app]]; reflexivity.
Local Ltac len_eq :=
  repeat first [rewrite length_app | progress cbn [length]]; lia.

(** The scanned element does not exceed the pivot: the scan moves on. *)
Lemma quick_body_le A a rest e1 e2 piv p :
  e1 = Z.of_nat (length A) →
  deref (A ++ a :: rest) piv = Ok p → op_gt a p = false →
  quick_body (QuickState (A ++ a :: rest) e1 e2 piv)
  = Ok (Next (QuickState (A ++ a :: rest) (e1 + 1) e2 piv)).
Proof.
  intros He1 Hp Hgt. unfold quick_body. cbn [q_v q_e1 q_e2 q_pivot_it].
  rewrite (deref_middle A a rest e1) by done. cbn. rewrite Hp. cbn.
  rewrite Hgt. done.
Qed.

(** It exceeds the pivot and is right before it: they change places. *)
Lemma quick_body_gt_adjacent A a p B e1 :
  e1 = Z.of_nat (length A) → op_gt a p = true →
  quick_body (QuickState (A ++ a :: p :: B) e1 (e1 + 1 - 1) (e1 + 1))
  = Ok (Next (QuickState (A ++ p :: a :: B) e1 (e1 + 1 - 1 - 1) (e1 + 1 - 1))).
Proof.
  intros He1 Hgt. unfold quick_body. cbn [q_v q_e1 q_e2 q_pivot_it].
  replace (e1 + 1 - 1) with e1 by lia.
  rewrite (deref_middle A a _ e1) by done. cbn.
  rewrite (deref_at _ (A ++ [a]) p B (e1 + 1)) by first [list_eq|len_eq]. cbn.
  rewrite Hgt. cbn.
  rewrite (store_middle A a _ e1) by done. cbn.
  rewrite (deref_at _ (A ++ [a]) p B (e1 + 1)) by first [list_eq|len_eq]. cbn.
  rewrite (store_middle A a _ e1) by done. cbn.
  rewrite (store_at _ (A ++ [p]) p B (e1 + 1)) by first [list_eq|len_eq]. cbn.
  rewrite <- app_assoc. done.
Qed.

(** It exceeds the pivot and is further left: the three rotate. *)
Lemma quick_body_gt_far A a mid b p B e1 piv :
  e1 = Z.of_nat (length A) →
  piv = e1 + Z.of_nat (length mid) + 2 →
  op_gt a p = true →
  quick_body (QuickState (A ++ a :: mid ++ b :: p :: B) e1 (piv - 1) piv)
  = Ok (Next (QuickState (A ++ b :: mid ++ p :: a :: B) e1
                (piv - 1 - 1) (piv - 1))).
Proof.
  intros He1 Hpiv Hgt. unfold quick_body. cbn [q_v q_e1 q_e2 q_pivot_it].
  rewrite (deref_middle A a _ e1) by done. cbn.
  rewrite (deref_at _ (A ++ a :: mid ++ [b]) p B piv)
    by first [list_eq|len_eq].
  cbn. rewrite Hgt. cbn.
  rewrite (deref_at _ (A ++ a :: mid) b (p :: B) (piv - 1))
    by first [list_eq|len_eq].
  cbn. rewrite (store_middle A a _ e1) by done. cbn.
  rewrite (deref_at _ (A ++ b :: mid ++ [b]) p B piv)
    by first [list_eq|len_eq].
  cbn.
  rewrite (store_at _ (A ++ b :: mid) b (p :: B) (piv - 1))
    by first [list_eq|len_eq].
  cbn.
  rewrite (store_at _ (A ++ b :: mid ++ [p]) p B piv)
    by first [list_eq|len_eq].
  cbn. do 3 f_equal. list_eq.
Qed.

Lemma quick_scan_loop n : ∀ u left right pre suf p fuel,
  length u = n → (n ≤ fuel)%nat →
  Forall (λ a, op_gt a p = false) left →
  Forall (λ b, op_gt b p = true) right →
  ∃ left' right',
    while_loop quick_cond quick_body fuel (quick_at pre left u p right suf)
    = Ok (quick_at pre left' [] p right' suf) ∧
    left' ++ right' ≡ₚ left ++ u ++ right ∧
    Forall (λ a, op_gt a p = false) left' ∧
    Forall (λ b, op_gt b p = true) right'.
Proof.
  induction n as [|n IH]; intros u left right pre suf p fuel Hn Hf Hl Hr.
  - destruct u; [|done]. exists left, right.
    rewrite while_loop_done; [done|].
    unfold quick_cond, quick_at. cbn [q_e1 q_pivot_it length].
    apply negb_false_iff, Z.eqb_eq. lia.
  - destruct u as [|a u']; [done|]. injection Hn as Hn.
    destruct fuel as [|fuel]; [lia|].
    assert (Hcond : quick_cond (quick_at pre left (a :: u') p right suf) = true).
    { unfold quick_cond, quick_at. cbn [q_e1 q_pivot_it length].
      apply negb_true_iff, Z.eqb_neq. lia. }
    destruct (op_gt a p) eqn:Hgt.
    + (* [a] goes to the right of the pivot *)
      destruct u' as [|b mid _] using rev_ind.
      * destruct (IH [] left (a :: right) pre suf p fuel)
          as (left' & right' & E & Hperm & Hl' & Hr');
          [done|lia|done|by constructor|].
        exists left', right'. split; [|split; [|done]].
        -- erewrite while_loop_next; [|exact Hcond|]; cycle 1.
           { unfold quick_at. cbn [length app].
             replace (pre ++ left ++ a :: p :: right ++ suf)
               with ((pre ++ left) ++ a :: p :: right ++ suf) by list_eq.
             replace (Z.of_nat (length pre) + Z.of_nat (length left)
                      + Z.of_nat 1)
               with (Z.of_nat (length pre) + Z.of_nat (length left) + 1) by lia.
             apply quick_body_gt_adjacent; [len_eq|done]. }
           rewrite <- E. f_equal. unfold quick_at. cbn [length app].
           f_equal; [list_eq|lia..].
        -- rewrite Hperm. done.
      * destruct (IH (b :: mid) left (a :: right) pre suf p fuel)
          as (left' & right' & E & Hperm & Hl' & Hr');
          [rewrite length_app in Hn; cbn in *; lia|lia|done|by constructor|].
        exists left', right'. split; [|split; [|done]].
        -- erewrite while_loop_next; [|exact Hcond|]; cycle 1.
           { unfold quick_at.
             replace (pre ++ left ++ (a :: mid ++ [b]) ++ p :: right ++ suf)
               with ((pre ++ left) ++ a :: mid ++ b :: p :: right ++ suf)
               by list_eq.
             apply quick_body_gt_far; [len_eq|len_eq|done]. }
           rewrite <- E. f_equal. unfold quick_at.
           f_equal; [list_eq|len_eq..].
        -- rewrite Hperm. apply Permutation_app_head.
           cbn [app]. rewrite <- app_assoc. cbn [app].
           rewrite <- !Permutation_middle. apply Permutation_swap.
    + (* [a] stays on the left *)
      destruct (IH u' (left ++ [a]) right pre suf p fuel)
        as (left' & right' & E & Hperm & Hl' & Hr');
        [done|lia|apply Forall_app; split; [done|by constructor]|done|].
      exists left', right'. split; [|split; [|done]].
      * erewrite while_loop_next; [|exact Hcond|]; cycle 1.
        { unfold quick_at. cbn [app].
          replace (pre ++ left ++ a :: u' ++ p :: right ++ suf)
            with ((pre ++ left) ++ a :: u' ++ p :: right ++ suf) by list_eq.
          apply quick_body_le with (p := p); [len_eq| |done].
          apply (deref_at _ (pre ++ left ++ a :: u') p (right ++ suf));
            [list_eq|len_eq]. }
        rewrite <- E. f_equal. unfold quick_at.
        f_equal; [list_eq|len_eq..].
      * rewrite Hperm, <- app_assoc. done.
Qed.
End QuickScanFacts.

(** ** Quick sort: the recursion *)

Section QuickSortFacts.
Context {T : Type} `{Greater T}.
Implicit Types (v l pre suf left right u seg : list T) (x y a b p : T).

Local Ltac list_eq :=
  repeat first [rewrite <- app_assoc | progress cbn [app]]; reflexivity.
Local Ltac len_eq :=
  repeat first [rewrite length_app | progress cbn [length]]; lia.

Lemma quick_sort_unfold fuel v start end' :
  quick_sort (Datatypes.S fuel) v start end'
  = if end' - start <? 1 then Ok v
    else
      s ← while_loop quick_cond quick_body (Datatypes.S fuel)
            (QuickState v start (end' - 1) end');
      v1 ← quick_sort fuel (q_v s) (q_pivot_it s + 1) end';
      quick_sort fuel v1 start (q_e2 s).
Proof. reflexivity. Qed.

Lemma ascending_around left p right :
  strict_weak_order op_gt →
  ascending left → ascending right →
  Forall (λ a, op_gt a p = false) left →
  Forall (λ b, op_gt b p = true) right →
  ascending (left ++ p :: right).
Proof.
  intros Hswo Hleft Hright Hl Hr. rewrite Forall_forall in Hl, Hr.
  assert (Hpr : ∀ b, b ∈ right → op_gt p b = false).
  { intros b Hb. apply (swo_asym _ Hswo). by apply Hr. }
  apply StronglySorted_app_2; [|done|].
  - intros a b Ha [->|Hb]%elem_of_cons; [by apply Hl|].
    eapply (swo_negtrans _ Hswo); [by apply Hl|by apply Hpr].
  - apply StronglySorted_cons. split; [|done].
    apply Forall_forall. done.
Qed.

(** The routine, run on the segment [seg] of the vector, returns; it
    leaves the rest of the vector alone and permutes the segment, in
    ascending order when [operator>] is a strict order. *)
Lemma quick_sort_segment fuel : ∀ seg pre suf,
  (length seg < fuel)%nat →
  ∃ seg',
    quick_sort fuel (pre ++ seg ++ suf) (Z.of_nat (length pre))
      (Z.of_nat (length pre) + Z.of_nat (length seg) - 1)
    = Ok (pre ++ seg' ++ suf) ∧
    seg' ≡ₚ seg ∧
    (strict_weak_order op_gt → ascending seg').
Proof.
  induction fuel as [|fuel IH]; intros seg pre suf Hf; [lia|].
  rewrite quick_sort_unfold.
  destruct (Z.ltb_spec (Z.of_nat (length pre) + Z.of_nat (length seg) - 1
                        - Z.of_nat (length pre)) 1) as [Hsmall|Hbig].
  { exists seg. split; [done|]. split; [done|]. intros _.
    destruct seg as [|x [|y seg]]; [constructor|repeat constructor|].
    cbn [length] in Hsmall. lia. }
  destruct seg as [|p u _] using rev_ind; [cbn in Hbig; lia|].
  rewrite length_app in Hbig, Hf. cbn [length] in Hbig, Hf.
  destruct (quick_scan_loop (length u) u [] [] pre suf p (Datatypes.S fuel))
    as (left & right & E & Hperm & Hl & Hr); [done|lia|done|done|].
  replace (QuickState (pre ++ (u ++ [p]) ++ suf) (Z.of_nat (length pre))
             (Z.of_nat (length pre) + Z.of_nat (length (u ++ [p])) - 1 - 1)
             (Z.of_nat (length pre) + Z.of_nat (length (u ++ [p])) - 1))
    with (quick_at pre [] u p [] suf)
    by (unfold quick_at; f_equal; [list_eq|len_eq..]).
  rewrite E. cbn [mbind result_bind]. unfold quick_at.
  cbn [q_v q_e2 q_pivot_it length app].
  cbn [app] in Hperm. rewrite app_nil_r in Hperm.
  assert (Hlen : (length left + length right = length u)%nat).
  { apply Permutation_length in Hperm. rewrite length_app in Hperm. done. }
  destruct (IH right (pre ++ left ++ [p]) suf) as (right' & E1 & Hp1 & Hs1);
    [lia|].
  replace (quick_sort fuel (pre ++ left ++ p :: right ++ suf)
             (Z.of_nat (length pre) + Z.of_nat (length left) + Z.of_nat 0 + 1)
             (Z.of_nat (length pre) + Z.of_nat (length (u ++ [p])) - 1))
    with (quick_sort fuel ((pre ++ left ++ [p]) ++ right ++ suf)
            (Z.of_nat (length (pre ++ left ++ [p])))
            (Z.of_nat (length (pre ++ left ++ [p]))
             + Z.of_nat (length right) - 1))
    by (f_equal; [list_eq|len_eq..]).
  rewrite E1. cbn [mbind result_bind].
  destruct (IH left pre (p :: right' ++ suf)) as (left' & E2 & Hp2 & Hs2);
    [lia|].
  replace (quick_sort fuel ((pre ++ left ++ [p]) ++ right' ++ suf)
             (Z.of_nat (length pre))
             (Z.of_nat (length pre) + Z.of_nat (length left) + Z.of_nat 0 - 1))
    with (quick_sort fuel (pre ++ left ++ p :: right' ++ suf)
            (Z.of_nat (length pre))
            (Z.of_nat (length pre) + Z.of_nat (length left) - 1))
    by (f_equal; [list_eq|len_eq..]).
  rewrite E2. exists (left' ++ p :: right').
  split; [f_equal; list_eq|]. split.
  - rewrite Hp1, Hp2, <- Hperm. symmetry.
    rewrite <- app_assoc. apply Permutation_app_head, Permutation_app_comm.
  - intros Hswo. apply ascending_around; auto.
    + by rewrite Hp2.
    + by rewrite Hp1.
Qed.
End QuickSortFacts.

(** ** Quick sort: ranges given by iterators *)

Section QuickRangeFacts.
Context {T : Type} `{Greater T}.
Implicit Types (v l pre suf left right u seg : list T) (x y a b p : T).

Local Ltac list_eq :=
  repeat first [rewrite <- app_assoc | progress cbn [app]]; reflexivity.
Local Ltac len_eq :=
  repeat first [rewrite length_app | progress cbn [length]]; lia.

(** The range from [start] to [end'], both included, cut out of [v]. *)
Lemma range_split v start end' :
  0 <= start → end' < size v → start <= end' →
  ∃ pre u p suf,
    v = pre ++ (u ++ [p]) ++ suf ∧
    Z.of_nat (length pre) = start ∧
    Z.of_nat (length u) = end' - start.
Proof.
  unfold size. intros H0 H1 H2.
  set (n := Z.to_nat start). set (k := Z.to_nat (end' - start + 1)).
  assert (Hseg : length (take k (drop n v)) = k).
  { rewrite length_take, length_drop. lia. }
  destruct (take k (drop n v)) as [|p u _] eqn:E using rev_ind.
  { cbn in Hseg. lia. }
  exists (take n v), u, p, (drop k (drop n v)).
  split; [|split].
  - rewrite <- E, take_drop, take_drop. done.
  - rewrite length_take. lia.
  - rewrite length_app in Hseg. cbn in Hseg. lia.
Qed.

(** An iteration of the scan brings [e1] and [pivot_it] one step closer,
    and keeps [e2] right before [pivot_it]. *)
Lemma quick_body_closer s s' :
  q_e2 s = q_pivot_it s - 1 →
  quick_body s = Ok (Next s') →
  q_pivot_it s' - q_e1 s' = q_pivot_it s - q_e1 s - 1 ∧
  q_e2 s' = q_pivot_it s' - 1.
Proof.
  intros He2. unfold quick_body.
  destruct (deref (q_v s) (q_e1 s)) as [x1| | |]; cbn; [|done..].
  destruct (deref (q_v s) (q_pivot_it s)) as [p| | |]; cbn; [|done..].
  destruct (op_gt x1 p); cbn.
  - destruct (deref (q_v s) (q_e2 s)) as [y| | |]; cbn; [|done..].
    destruct (store (q_v s) (q_e1 s) y) as [v1| | |]; cbn; [|done..].
    destruct (deref v1 (q_pivot_it s)) as [p'| | |]; cbn; [|done..].
    destruct (store v1 (q_e2 s) p') as [v2| | |]; cbn; [|done..].
    destruct (store v2 (q_pivot_it s) x1) as [v3| | |]; cbn; [|done..].
    intros [= <-]. cbn. lia.
  - intros [= <-]. cbn. lia.
Qed.

Lemma quick_body_never_breaks s s' : quick_body s ≠ Ok (Break s').
Proof.
  unfold quick_body.
  destruct (deref (q_v s) (q_e1 s)) as [x1| | |]; cbn; [|done..].
  destruct (deref (q_v s) (q_pivot_it s)) as [p| | |]; cbn; [|done..].
  destruct (op_gt x1 p); cbn; [|done].
  destruct (deref (q_v s) (q_e2 s)) as [y| | |]; cbn; [|done..].
  destruct (store (q_v s) (q_e1 s) y) as [v1| | |]; cbn; [|done..].
  destruct (deref v1 (q_pivot_it s)) as [p'| | |]; cbn; [|done..].
  destruct (store v1 (q_e2 s) p') as [v2| | |]; cbn; [|done..].
  destruct (store v2 (q_pivot_it s) x1) as [v3| | |]; cbn; done.
Qed.

(** The scan of a range of two elements or more returns, with the pivot
    inside the range. *)
Lemma quick_scan_range fuel v start end' :
  0 <= start → end' < size v → 1 <= end' - start →
  (Z.to_nat (end' - start) ≤ fuel)%nat →
  ∃ s, while_loop quick_cond quick_body fuel
         (QuickState v start (end' - 1) end') = Ok s ∧
       start <= q_pivot_it s <= end' ∧
       q_e1 s = q_pivot_it s ∧ q_e2 s = q_pivot_it s - 1.
Proof.
  intros H0 H1 H2 Hf.
  destruct (range_split v start end') as (pre & u & p & suf & -> & Hpre & Hu);
    [lia..|].
  destruct (quick_scan_loop (length u) u [] [] pre suf p fuel)
    as (left & right & E & Hperm & _); [done|lia|done|done|].
  replace (QuickState (pre ++ (u ++ [p]) ++ suf) start (end' - 1) end')
    with (quick_at pre [] u p [] suf)
    by (unfold quick_at; f_equal; [list_eq|len_eq..]).
  rewrite E. eexists. split; [done|].
  apply Permutation_length in Hperm. rewrite !length_app in Hperm.
  unfold quick_at. cbn [q_e1 q_e2 q_pivot_it length] in *. lia.
Qed.

(** The routine returns on every range of the vector. *)
Lemma quick_sort_range fuel v start end' :
  end' - start < 1 ∨ (0 <= start ∧ end' < size v) →
  (Z.to_nat (end' - start + 1) < fuel)%nat →
  ∃ v', quick_sort fuel v start end' = Ok v' ∧ v' ≡ₚ v.
Proof.
  intros Hr Hf. destruct (Z.ltb_spec (end' - start) 1) as [Hsmall|Hbig].
  { destruct fuel as [|fuel]; [lia|]. rewrite quick_sort_unfold.
    destruct (Z.ltb_spec (end' - start) 1); [|lia]. eauto. }
  destruct Hr as [?|[H0 H1]]; [lia|].
  destruct (range_split v start end') as (pre & u & p & suf & -> & Hpre & Hu);
    [lia..|].
  destruct (quick_sort_segment fuel (u ++ [p]) pre suf)
    as (seg' & E & Hperm & _); [rewrite length_app; cbn; lia|].
  exists (pre ++ seg' ++ suf). split; [|by rewrite Hperm].
  rewrite <- E. f_equal; len_eq.
Qed.
End QuickRangeFacts.

(** ** The scenarios of the description, run *)

Example bubble_sort_scenario1 :
  b_v <$> result_to_option (bubble_sort 6 [5; 3; 1; 4; 2])
  = Some [1; 2; 3; 4; 5].
Proof. reflexivity. Qed.

Example shuttle_sort_scenario1 :
  s_v <$> result_to_option (shuttle_sort 6 [5; 3; 1; 4; 2]) = Some [1; 2; 3; 4; 5].
Proof. reflexivity. Qed.

Example quick_sort_scenario1 :
  quick_sort_full 6 [5; 3; 1; 4; 2] = Ok [1; 2; 3; 4; 5].
Proof. reflexivity. Qed.


Example sorts_scenario2 :
  result_to_option (bubble_sort 1 ([] : list Z))
  = Some (BubbleState [] 0 1 0 0 0 0 0 1) ∧
  result_to_option (shuttle_sort 1 ([] : list Z))
  = Some (ShuttleState [] 0 1 0 0 0 0 1 0 0) ∧
  quick_sort_full 1 ([] : list Z) = Ok [].
Proof. repeat split. Qed.

Example sorts_scenario3 :
  let v : list (Z * Z) := [(1, 0); (1, 1); (2, 0); (2, 1)] in
  b_v <$> result_to_option (bubble_sort 5 v) = Some v ∧
  s_v <$> result_to_option (shuttle_sort 5 v) = Some v.
Proof. split; reflexivity. Qed.

(** * The claims *)

(** Integers, and cats by weight, compare as the routines need. *)
Lemma Z_less_swo : strict_weak_order (op_lt (T := Z)).
Proof.
  split; unfold op_lt, Z_less; intros a b.
  - intros Hab%Z.ltb_lt. apply Z.ltb_ge. lia.
  - intros c Hab%Z.ltb_ge Hbc%Z.ltb_ge. apply Z.ltb_ge. lia.
Qed.

Lemma Z_greater_swo : strict_weak_order (op_gt (T := Z)).
Proof.
  split; unfold op_gt, Z_greater; intros a b.
  - rewrite !Z.gtb_ltb. intros Hab%Z.ltb_lt. apply Z.ltb_ge. lia.
  - intros c. rewrite !Z.gtb_ltb.
    intros Hab%Z.ltb_ge Hbc%Z.ltb_ge. apply Z.ltb_ge. lia.
Qed.

Lemma Z_greater_less (a b : Z) : op_gt a b = op_lt b a.
Proof. apply Z.gtb_ltb. Qed.

Lemma Cat_less_swo : strict_weak_order (op_lt (T := Cat)).
Proof.
  split; unfold op_lt, Cat_less; intros a b.
  - rewrite !Z.gtb_ltb. intros Hab%Z.ltb_lt. apply Z.ltb_ge. lia.
  - intros c. rewrite !Z.gtb_ltb.
    intros Hab%Z.ltb_ge Hbc%Z.ltb_ge. apply Z.ltb_ge. lia.
Qed.

Section GreaterAndLess.
Context {T : Type} `{Less T, Greater T}.
Hypothesis Hgt : ∀ a b : T, op_gt a b = op_lt b a.

Lemma greater_swo : strict_weak_order (op_lt (T := T)) →
  strict_weak_order (op_gt (T := T)).
Proof.
  intros [Hasym Hneg]. split.
  - intros a b. rewrite !Hgt. apply Hasym.
  - intros a b c. rewrite !Hgt. intros Hab Hbc. eapply Hneg; eauto.
Qed.

Lemma ascending_nondecreasing (l : list T) :
  ascending l → nondecreasing op_lt l.
Proof.
  unfold ascending, nondecreasing.
  induction 1 as [|x l Hl IH Hx]; constructor; [done|].
  eapply Forall_impl; [exact Hx|]. intros y Hy.
  unfold not_after. by rewrite <- Hgt.
Qed.
End GreaterAndLess.

Lemma quick_sort_full_sorts {T : Type} `{Greater T} fuel (v : list T) :
  (length v < fuel)%nat →
  ∃ v', quick_sort_full fuel v = Ok v' ∧ v' ≡ₚ v ∧
        (strict_weak_order (op_gt (T := T)) → ascending v').
Proof.
  intros Hf. destruct (quick_sort_segment fuel v [] [] Hf) as (v' & E & Hp & Hs).
  exists v'. unfold quick_sort_full, begin, end_, size.
  rewrite app_nil_r in E. cbn [app length] in E. rewrite app_nil_r in E.
  replace (Z.of_nat (length v) - 1) with (Z.of_nat 0 + Z.of_nat (length v) - 1)
    by lia.
  done.
Qed.

(** A vector of more than [2^31] elements: [int n = v.size()] is negative,
    the test [pass <= n - 1] fails at once and [shuttle_sort] makes no pass. *)
Lemma shuttle_sort_no_pass {T : Type} `{Less T} (fuel : nat) (v : list T) :
  2147483648 < size v < 4294967296 →
  shuttle_sort fuel v = Ok (shuttle_init v).
Proof.
  intros Hsize. unfold shuttle_sort. apply while_loop_done.
  unfold shuttle_outer_cond, shuttle_init. cbn [s_pass s_n].
  assert (Hn : wrap (size v) = size v - 4294967296).
  { unfold wrap.
    replace (size v + 2147483648)
      with (size v - 2147483648 + 1 * 4294967296) by lia.
    rewrite Z.mod_add by done. rewrite Z.mod_small by lia. lia. }
  rewrite Hn. rewrite wrap_small by (unfold INT_MAX; lia).
  apply Z.leb_gt. lia.
Qed.

Lemma size_cons_replicate {T : Type} (x y : T) (n : Z) :
  0 <= n → size (x :: replicate (Z.to_nat n) y) = n + 1.
Proof.
  intros Hn. unfold size. cbn [length]. rewrite length_replicate.
  rewrite Nat2Z.inj_succ, Z2Nat.id by done. lia.
Qed.

(** A first pass of [bubble_sort] in which [swaps] comes back to 0 after
    [2^32] swaps is taken for a pass without a swap. *)
Lemma bubble_swaps_zeros (n : nat) :
  bubble_swaps 5 (replicate n 0) = Z.of_nat n.
Proof.
  induction n as [|n IH]; [done|].
  change (replicate (S n) 0) with (0 :: replicate n 0).
  cbn [bubble_swaps]. change (op_lt 0 5) with true. cbn match. lia.
Qed.

Lemma bubble_sort_wrapped_pass (n : nat) :
  let v : list Z := 5 :: 2 :: 1 :: replicate n 0 in
  wrap (2 + Z.of_nat n) = 0 →
  ∃ s rest, bubble_sort (S (length v)) v = Ok s ∧ b_v s = 2 :: 1 :: rest.
Proof.
  intros v Hwrap.
  assert (Hsw : bubble_swaps 5 (2 :: 1 :: replicate n 0) = 2 + Z.of_nat n).
  { cbn [bubble_swaps]. change (op_lt 2 5) with true.
    change (op_lt 1 5) with true. cbn match. rewrite bubble_swaps_zeros. lia. }
  unfold bubble_sort. rewrite bubble_init_at. unfold v.
  eexists _, (bubble_pass 5 (replicate n 0) ++ []).
  split.
  - apply while_loop_break; [done|].
    rewrite bubble_outer_body_cons by (cbn [length]; lia).
    rewrite Hsw, Hwrap. reflexivity.
  - cbn [b_v bubble_pass]. change (op_lt 2 5) with true.
    change (op_lt 1 5) with true. done.
Qed.

Lemma size_cons3_replicate {T : Type} (a b c y : T) (n : Z) :
  0 <= n → size (a :: b :: c :: replicate (Z.to_nat n) y) = n + 3.
Proof.
  intros Hn. unfold size. cbn [length]. rewrite length_replicate.
  rewrite !Nat2Z.inj_succ, Z2Nat.id by done. lia.
Qed.

(** C1, as stated, fails on vectors of more elements than [int] counts.
    On a vector of [2^31 + 1] elements [shuttle_sort] makes no pass and
    returns it as it received it, here with its largest element first.  On
    a vector of [2^32 + 1] elements whose first pass makes [2^32] swaps,
    [bubble_sort] stops after that pass, here with 2 before 1. *)
Lemma sorts_large_unsorted :
  let v : list Z := 1 :: replicate (Z.to_nat 2147483648) 0 in
  let u : list Z := 5 :: 2 :: 1 :: replicate (Z.to_nat 4294967294) 0 in
  size v = 2147483649 ∧
  (∃ s, shuttle_sort (S (length v)) v = Ok s ∧ s_v s = v ∧
        ¬ nondecreasing op_lt (s_v s)) ∧
  size u = 4294967297 ∧
  (∃ s, bubble_sort (S (length u)) u = Ok s ∧
        ¬ nondecreasing op_lt (b_v s)).
Proof.
  intros v u.
  assert (Hsize : size v = 2147483649).
  { unfold v. by rewrite size_cons_replicate. }
  split; [exact Hsize|]. split.
  { exists (shuttle_init v).
    split; [apply shuttle_sort_no_pass; lia|]. split; [done|].
    cbn [shuttle_init s_v]. unfold v. intros Hs.
    apply StronglySorted_inv in Hs as [_ Hall].
    rewrite Forall_forall in Hall. specialize (Hall 0).
    assert (Hin : 0 ∈ replicate (Z.to_nat 2147483648) 0).
    { apply elem_of_replicate. split; [done|]. lia. }
    specialize (Hall Hin). discriminate Hall. }
  split.
  { unfold u. by rewrite size_cons3_replicate. }
  destruct (bubble_sort_wrapped_pass (Z.to_nat 4294967294)) as (s & rest & E & Hv).
  { rewrite Z2Nat.id by done. reflexivity. }
  exists s. split; [exact E|]. rewrite Hv. intros Hs.
  apply StronglySorted_inv in Hs as [_ Hall].
  apply Forall_inv in Hall. discriminate Hall.
Qed.

(** C1, amended: for every finite sequence of elements that compare,
    [quick_sort] on the full range returns, and so do [bubble_sort] and
    [shuttle_sort] when the sequence has [INT_MAX] elements at most; what
    they leave is a permutation of the input in which no element is less
    than an earlier one. *)
Theorem sorts_permutation_nondecreasing
    {T : Type} `{Less T, Greater T} (fuel : nat) (v : list T) :
  strict_weak_order (op_lt (T := T)) →
  (∀ a b : T, op_gt a b = op_lt b a) →
  (length v < fuel)%nat →
  (size v <= INT_MAX →
   ∃ s, bubble_sort fuel v = Ok s ∧ b_v s ≡ₚ v ∧ nondecreasing op_lt (b_v s)) ∧
  (size v <= INT_MAX →
   ∃ s, shuttle_sort fuel v = Ok s ∧ s_v s ≡ₚ v ∧ nondecreasing op_lt (s_v s)) ∧
  (∃ v', quick_sort_full fuel v = Ok v' ∧ v' ≡ₚ v ∧ nondecreasing op_lt v').
Proof.
  intros Hswo Hgt Hfuel. split; [|split].
  - intros Hsize. by apply bubble_sort_sorts.
  - intros Hsize.
    destruct (shuttle_sort_refines fuel v Hfuel Hsize) as (s & E & Hv & _).
    exists s. rewrite Hv. split; [done|].
    split; [apply shuttle_list_perm|by apply shuttle_list_sorted].
  - destruct (quick_sort_full_sorts fuel v Hfuel) as (v' & E & Hp & Hs).
    exists v'. split; [done|]. split; [done|].
    apply (ascending_nondecreasing Hgt), Hs, (greater_swo Hgt Hswo).
Qed.

Lemma sorts_permutation_nondecreasing_witness :
  strict_weak_order (op_lt (T := Z)) ∧
  (∀ a b : Z, op_gt a b = op_lt b a) ∧
  (length [5; 3; 1; 4; 2] < 6)%nat ∧ size [5; 3; 1; 4; 2] <= INT_MAX ∧
  (∃ s, bubble_sort 6 [5; 3; 1; 4; 2] = Ok s ∧ b_v s ≡ₚ [5; 3; 1; 4; 2] ∧
        nondecreasing op_lt (b_v s)) ∧
  (∃ s, shuttle_sort 6 [5; 3; 1; 4; 2] = Ok s ∧ s_v s ≡ₚ [5; 3; 1; 4; 2] ∧
        nondecreasing op_lt (s_v s)) ∧
  (∃ v', quick_sort_full 6 [5; 3; 1; 4; 2] = Ok v' ∧ v' ≡ₚ [5; 3; 1; 4; 2] ∧
         nondecreasing op_lt v').
Proof.
  assert (H1 : (length [5; 3; 1; 4; 2] < 6)%nat) by (cbn; lia).
  assert (H2 : size [5; 3; 1; 4; 2] <= INT_MAX) by (vm_compute; discriminate).
  split; [exact Z_less_swo|]. split; [exact Z_greater_less|].
  split; [exact H1|]. split; [exact H2|].
  destruct (sorts_permutation_nondecreasing 6 [5; 3; 1; 4; 2]
              Z_less_swo Z_greater_less H1) as (Hb & Hs & Hq).
  split; [exact (Hb H2)|]. split; [exact (Hs H2)|]. exact Hq.
Defined.



(** C3: in [quick_sort] on a range of two elements or more, holding [u]
    and then the pivot [p], the scan returns with [e1] on [pivot_it]; the
    pivot then has the elements of the range that do not exceed it on its
    left and those that exceed it on its right.  The routine goes on with
    the range right of the pivot up to [end], then with the range from
    [start] to the element left of the pivot, and the pivot is still at
    that place when it returns, between the two ranges now in order. *)
Theorem quick_sort_pivot_placed
    {T : Type} `{Greater T} (fuel : nat) (pre u suf : list T) (p : T) :
  u ≠ [] → (length u < fuel)%nat →
  let v := pre ++ (u ++ [p]) ++ suf in
  let start := Z.of_nat (length pre) in
  let end' := start + Z.of_nat (length u) in
  ∃ s left right left' right',
    while_loop quick_cond quick_body (S fuel)
      (QuickState v start (end' - 1) end') = Ok s ∧
    q_e1 s = q_pivot_it s ∧ q_e2 s = q_pivot_it s - 1 ∧
    q_pivot_it s = start + Z.of_nat (length left) ∧
    q_v s = pre ++ left ++ p :: right ++ suf ∧
    left ++ right ≡ₚ u ∧
    Forall (λ a, op_gt a p = false) left ∧
    Forall (λ b, op_gt b p = true) right ∧
    quick_sort (S fuel) v start end'
    = (v1 ← quick_sort fuel (q_v s) (q_pivot_it s + 1) end';
       quick_sort fuel v1 start (q_pivot_it s - 1)) ∧
    quick_sort (S fuel) v start end' = Ok (pre ++ left' ++ p :: right' ++ suf) ∧
    left' ≡ₚ left ∧ right' ≡ₚ right ∧
    deref (pre ++ left' ++ p :: right' ++ suf) (q_pivot_it s) = Ok p ∧
    (strict_weak_order (op_gt (T := T)) → ascending (left' ++ p :: right')).
Proof.
  intros Hne Hf v start end'.
  assert (Hu : (1 ≤ length u)%nat) by (destruct u; [done|cbn; lia]).
  destruct (quick_scan_loop (length u) u [] [] pre suf p (S fuel))
    as (left & right & E & Hperm & Hl & Hr); [done|lia|done|done|].
  cbn [app] in Hperm. rewrite app_nil_r in Hperm.
  assert (Hlen : (length left + length right = length u)%nat).
  { apply Permutation_length in Hperm. rewrite length_app in Hperm. done. }
  assert (Hstate : QuickState v start (end' - 1) end'
                   = quick_at pre [] u p [] suf).
  { unfold quick_at, v, end', start. cbn [length app]. f_equal; [|lia..].
    rewrite <- !app_assoc. done. }
  assert (Hbig : (end' - start <? 1) = false).
  { apply Z.ltb_ge. unfold end'. lia. }
  destruct (quick_sort_segment fuel right (pre ++ left ++ [p]) suf)
    as (right' & E1 & Hp1 & Hs1); [lia|].
  destruct (quick_sort_segment fuel left pre (p :: right' ++ suf))
    as (left' & E2 & Hp2 & Hs2); [lia|].
  assert (Hrec : quick_sort (S fuel) v start end'
    = (v1 ← quick_sort fuel (pre ++ left ++ p :: right ++ suf)
              (start + Z.of_nat (length left) + 1) end';
       quick_sort fuel v1 start (start + Z.of_nat (length left) - 1))).
  { rewrite quick_sort_unfold, Hbig, Hstate, E. cbn [mbind result_bind].
    unfold quick_at. cbn [q_v q_e2 q_pivot_it length app].
    unfold start. rewrite !Z.add_0_r. done. }
  exists (QuickState (pre ++ left ++ p :: right ++ suf)
            (start + Z.of_nat (length left))
            (start + Z.of_nat (length left) - 1)
            (start + Z.of_nat (length left))), left, right, left', right'.
  cbn [q_v q_e1 q_e2 q_pivot_it].
  split.
  { rewrite Hstate, E. unfold quick_at, start. cbn [length app].
    do 2 f_equal; lia. }
  do 7 (split; [done|]).
  split; [exact Hrec|]. split; [|split; [done|split; [done|split]]].
  - rewrite Hrec.
    replace (quick_sort fuel (pre ++ left ++ p :: right ++ suf)
               (start + Z.of_nat (length left) + 1) end')
      with (quick_sort fuel ((pre ++ left ++ [p]) ++ right ++ suf)
              (Z.of_nat (length (pre ++ left ++ [p])))
              (Z.of_nat (length (pre ++ left ++ [p]))
               + Z.of_nat (length right) - 1)).
    2:{ unfold end', start. rewrite <- !app_assoc, !length_app. cbn [app length].
        f_equal; lia. }
    rewrite E1. cbn [mbind result_bind].
    rewrite <- !app_assoc. cbn [app]. rewrite <- E2. done.
  - apply (deref_at _ (pre ++ left') p (right' ++ suf)).
    + by rewrite <- app_assoc.
    + apply Permutation_length in Hp2. rewrite length_app. unfold start. lia.
  - intros Hswo. apply ascending_around; auto.
    + by rewrite Hp2.
    + by rewrite Hp1.
Qed.

Lemma quick_sort_pivot_placed_witness :
  let u : list Z := [5; 3; 1; 4] in
  u ≠ [] ∧ (length u < 4 + 1)%nat ∧
  ∃ s left right left' right',
    while_loop quick_cond quick_body 6 (QuickState [7; 5; 3; 1; 4; 2; 0] 1 4 5)
    = Ok s ∧
    q_e1 s = q_pivot_it s ∧ q_e2 s = q_pivot_it s - 1 ∧
    q_pivot_it s = 1 + Z.of_nat (length left) ∧
    q_v s = [7] ++ left ++ 2 :: right ++ [0] ∧
    left ++ right ≡ₚ u ∧
    Forall (λ a, op_gt a 2 = false) left ∧
    Forall (λ b, op_gt b 2 = true) right ∧
    quick_sort 6 [7; 5; 3; 1; 4; 2; 0] 1 5
    = (v1 ← quick_sort 5 (q_v s) (q_pivot_it s + 1) 5;
       quick_sort 5 v1 1 (q_pivot_it s - 1)) ∧
    quick_sort 6 [7; 5; 3; 1; 4; 2; 0] 1 5
    = Ok ([7] ++ left' ++ 2 :: right' ++ [0]) ∧
    left' ≡ₚ left ∧ right' ≡ₚ right ∧
    deref ([7] ++ left' ++ 2 :: right' ++ [0]) (q_pivot_it s) = Ok 2 ∧
    (strict_weak_order (op_gt (T := Z)) → ascending (left' ++ 2 :: right')).
Proof.
  intros u.
  assert (H0 : u ≠ []) by discriminate.
  assert (H1 : (length u < 4 + 1)%nat) by (cbn; lia).
  split; [exact H0|]. split; [exact H1|].
  exact (quick_sort_pivot_placed 5 [7] u [0] 2 H0 H1).
Defined.

(** C4, as stated, fails on a vector of [N = 2^31 + 1] elements: the outer
    loop of [shuttle_sort] makes no pass, not [N - 1], and [pass] is left
    at 1. *)
Lemma shuttle_sort_large_no_pass :
  let v : list Z := 0 :: replicate (Z.to_nat 2147483648) 0 in
  (1 ≤ length v)%nat ∧ size v - 1 = 2147483648 ∧
  shuttle_sort (S (length v)) v
  = repeat_run 0 (shuttle_pass (S (length v))) (shuttle_init v) ∧
  ∃ s, shuttle_sort (S (length v)) v = Ok s ∧ s_pass s = 1 ∧
       s_pass s ≠ size v.
Proof.
  intros v.
  assert (Hsize : size v = 2147483649).
  { unfold v. by rewrite size_cons_replicate. }
  assert (Hrun : shuttle_sort (S (length v)) v = Ok (shuttle_init v)).
  { apply shuttle_sort_no_pass. lia. }
  split; [apply Nat.lt_0_succ|]. split; [by rewrite Hsize|].
  split; [exact Hrun|]. exists (shuttle_init v). split; [exact Hrun|].
  split; [reflexivity|]. rewrite Hsize. discriminate.
Qed.

(** C4, amended: on a vector of [N] elements, [1 <= N <= INT_MAX], the
    outer loop of [shuttle_sort] is its body run [N - 1] times, whatever
    the elements are: no test on the data ends it earlier, and [pass],
    which starts at 1, ends at [N]. *)
Theorem shuttle_sort_passes
    {T : Type} `{Less T} (fuel : nat) (v : list T) :
  (1 ≤ length v)%nat → (length v < fuel)%nat → size v <= INT_MAX →
  shuttle_sort fuel v
  = repeat_run (length v - 1) (shuttle_pass fuel) (shuttle_init v) ∧
  ∃ s, shuttle_sort fuel v = Ok s ∧ s_pass s = size v.
Proof.
  intros Hn Hfuel Hsize. split.
  - unfold shuttle_sort. apply shuttle_outer_repeat.
    + lia.
    + unfold shuttle_init. cbn [s_pass s_n].
      rewrite wrap_small by (unfold size, INT_MAX in *; lia). unfold size. lia.
    + done.
    + unfold shuttle_init. cbn [s_n]. pose proof (wrap_range (size v)). lia.
  - destruct (shuttle_sort_refines fuel v Hfuel Hsize) as (s & E & _ & Hp & _).
    exists s. split; [done|]. unfold size in *. lia.
Qed.

Lemma shuttle_sort_passes_witness :
  (1 ≤ length [1; 2; 3; 4])%nat ∧ (length [1; 2; 3; 4] < 5)%nat ∧
  size [1; 2; 3; 4] <= INT_MAX ∧
  shuttle_sort 5 [1; 2; 3; 4]
  = repeat_run 3 (shuttle_pass 5) (shuttle_init [1; 2; 3; 4]) ∧
  ∃ s, shuttle_sort 5 [1; 2; 3; 4] = Ok s ∧ s_pass s = 4.
Proof.
  assert (H0 : (1 ≤ length [1; 2; 3; 4])%nat) by (cbn; lia).
  assert (H1 : (length [1; 2; 3; 4] < 5)%nat) by (cbn; lia).
  assert (H2 : size [1; 2; 3; 4] <= INT_MAX) by (vm_compute; discriminate).
  split; [exact H0|]. split; [exact H1|]. split; [exact H2|].
  exact (shuttle_sort_passes 5 [1; 2; 3; 4] H0 H1 H2).
Defined.

(** The vector [countdown n] is fully reverse-sorted. *)
Lemma countdown_length n : length (countdown n) = n.
Proof. induction n as [|n IH]; [done|]. cbn [countdown length]. by rewrite IH. Qed.

Lemma countdown_bound n : Forall (λ b, b <= Z.of_nat n) (countdown n).
Proof.
  induction n as [|n IH]; [constructor|]. cbn [countdown].
  constructor; [lia|]. eapply Forall_impl; [exact IH|]. intros b Hb.
  cbn beta in *. lia.
Qed.

Lemma countdown_decreasing n : strictly_decreasing (op_lt (T := Z)) (countdown n).
Proof.
  induction n as [|n IH]; [constructor|]. cbn [countdown].
  constructor; [done|].
  eapply Forall_impl; [apply countdown_bound|]. intros b Hb.
  cbn beta in *. apply Z.ltb_lt. lia.
Qed.

(** C5, as stated, fails on the reverse-sorted vector of 65537 elements:
    the 2147516416 swaps do not fit the [int] that adds them up. *)
Lemma bubble_sort_swaps_overflow :
  let v := countdown (Z.to_nat 65537) in
  strictly_decreasing (op_lt (T := Z)) v ∧
  ∃ s, bubble_sort (S (length v)) v = Ok s ∧
       b_swaps_total s = -2147450880 ∧
       b_swaps_total s ≠ size v * (size v - 1) / 2.
Proof.
  intros v. split; [apply countdown_decreasing|].
  assert (Hsz : size v = 65537).
  { unfold size, v. rewrite countdown_length. apply Z2Nat.id. done. }
  destruct (bubble_sort_reverse_swaps (S (length v)) v) as (s & E & Htot).
  - apply countdown_decreasing.
  - lia.
  - rewrite Hsz. done.
  - exists s. split; [exact E|]. rewrite Htot, Hsz. split; [reflexivity|done].
Qed.

(** C5, amended: [bubble_sort] returns, whatever the size of the vector,
    from a pass that has made no swap; a pass that makes no swap is the
    last one; and on a fully reverse-sorted vector of [n] elements, as long
    as [n * (n - 1) / 2] fits [int], the total of swaps is
    [n * (n - 1) / 2]. *)
Theorem bubble_sort_stops_and_counts
    {T : Type} `{Less T} (fuel : nat) (v : list T) :
  (length v < fuel)%nat →
  (∃ s, bubble_sort fuel v = Ok s ∧ b_swaps s = 0) ∧
  (∀ fuel' x l suf st ct pass,
     (length l ≤ fuel)%nat → bubble_swaps x l = 0 →
     ∃ s, while_loop (λ _, true) (bubble_outer_body fuel) (S fuel')
            (bubble_at (x :: l) suf st ct pass) = Ok s ∧
          b_v s = x :: l ++ suf ∧ b_swaps s = 0 ∧ b_pass s = pass) ∧
  (strictly_decreasing op_lt v →
   size v * (size v - 1) / 2 <= INT_MAX →
   ∃ s, bubble_sort fuel v = Ok s ∧
        b_swaps_total s = size v * (size v - 1) / 2).
Proof.
  intros Hfuel. split; [|split].
  - by apply bubble_sort_last_pass.
  - intros fuel' x l suf st ct pass Hl Hz. by apply bubble_sort_stops.
  - intros Hdec Hfit.
    assert (Hsize : size v <= INT_MAX).
    { unfold size, INT_MAX in *.
      pose proof (Z.mul_succ_div_gt
                    (Z.of_nat (length v) * (Z.of_nat (length v) - 1)) 2
                    eq_refl) as Hdiv.
      nia. }
    destruct (bubble_sort_reverse_swaps fuel v Hdec Hfuel Hsize)
      as (s & E & Htot).
    exists s. split; [done|]. rewrite Htot. apply wrap_small.
    split; [|done].
    assert (0 <= size v * (size v - 1)) by (unfold size; nia).
    assert (0 <= size v * (size v - 1) / 2) by (apply Z.div_pos; lia). lia.
Qed.

Lemma bubble_sort_stops_and_counts_witness :
  (length [5; 4; 3; 2; 1] < 6)%nat ∧
  strictly_decreasing (op_lt (T := Z)) [5; 4; 3; 2; 1] ∧
  size [5; 4; 3; 2; 1] * (size [5; 4; 3; 2; 1] - 1) / 2 <= INT_MAX ∧
  (∃ s, bubble_sort 6 [5; 4; 3; 2; 1] = Ok s ∧ b_swaps s = 0) ∧
  ∃ s, bubble_sort 6 [5; 4; 3; 2; 1] = Ok s ∧ b_swaps_total s = 10.
Proof.
  assert (H1 : (length [5; 4; 3; 2; 1] < 6)%nat) by (cbn; lia).
  assert (H2 : size [5; 4; 3; 2; 1] * (size [5; 4; 3; 2; 1] - 1) / 2 <= INT_MAX)
    by (vm_compute; discriminate).
  assert (H3 : strictly_decreasing (op_lt (T := Z)) [5; 4; 3; 2; 1])
    by exact (countdown_decreasing 5).
  split; [exact H1|]. split; [exact H3|]. split; [exact H2|].
  split; [exact (proj1 (bubble_sort_stops_and_counts 6 [5; 4; 3; 2; 1] H1))|].
  exact (proj2 (proj2 (bubble_sort_stops_and_counts 6 [5; 4; 3; 2; 1] H1))
           H3 H2).
Defined.

(** C6: on the empty vector and on a vector of one element the three
    routines return and leave the vector as it is; on the empty vector the
    totals of comparisons and of swaps are zero. *)
Theorem sorts_empty_singleton
    {T : Type} `{Less T, Greater T} (fuel : nat) (x : T) :
  (∃ s, bubble_sort (S fuel) ([] : list T) = Ok s ∧ b_v s = [] ∧
        b_comparisons_total s = 0 ∧ b_swaps_total s = 0) ∧
  (∃ s, shuttle_sort fuel ([] : list T) = Ok s ∧ s_v s = [] ∧
        s_comparisons_total s = 0 ∧ s_swaps_total s = 0) ∧
  quick_sort_full (S fuel) ([] : list T) = Ok [] ∧
  (∃ s, bubble_sort (S fuel) [x] = Ok s ∧ b_v s = [x]) ∧
  (∃ s, shuttle_sort fuel [x] = Ok s ∧ s_v s = [x]) ∧
  quick_sort_full (S fuel) [x] = Ok [x].
Proof.
  repeat split.
  - rewrite bubble_sort_nil. eauto.
  - unfold shuttle_sort. rewrite while_loop_done by done. eauto.
  - rewrite bubble_sort_singleton. eauto.
  - unfold shuttle_sort. rewrite while_loop_done by done. eauto.
Qed.




(** Writing to the console leaves the files as they are. *)
Lemma open_in_cout name items w : open_in name (cout items w) = open_in name w.
Proof. reflexivity. Qed.

(** C9: when the file cannot be opened, [dump_vector],
    [test_sorting_algorithms] and [test_class_sort] write the diagnostic to
    the console and return at once: the files are as they were, no element
    is read, no routine is run, and the console holds the diagnostic after
    what it held.  The caller is not told: [main] goes on to
    [test_class_sort] and returns 0. *)
Theorem open_failure_reported
    {float : Type} `{Less float, Greater float, Text float, Text Z}
    (fuel : nat) (w : world) :
  (∀ (T : Type) (text : Text T) (v : list T) (output_file : string),
     open_out output_file w = false →
     dump_vector v output_file w = cout could_not_open w) ∧
  (∀ input_file : string,
     open_in input_file w = None →
     test_sorting_algorithms (float := float) fuel input_file w
     = Ok (cout could_not_open w)) ∧
  (open_in "cats.dat" w = None →
   test_class_sort fuel w
   = Ok (cout could_not_open
           (cout [Endl;
                  Str "Sorting a user defined class using the bubble sort.";
                  Endl; Endl] w))) ∧
  (∀ argv1 : string,
     open_in argv1 w = None →
     main (float := float) fuel argv1 w
     = (w' ← test_class_sort fuel (cout could_not_open w); Ok (0, w'))) ∧
  (∀ items : list out,
     w_files (cout items w) = w_files w ∧
     w_stdout (cout items w) = w_stdout w ++ items).
Proof.
  split; [|split; [|split; [|split]]].
  - intros T text v output_file Hopen. unfold dump_vector. by rewrite Hopen.
  - intros input_file Hopen. unfold test_sorting_algorithms. by rewrite Hopen.
  - intros Hopen. unfold test_class_sort. by rewrite open_in_cout, Hopen.
  - intros argv1 Hopen. unfold main, test_sorting_algorithms.
    by rewrite Hopen.
  - done.
Qed.

Lemma open_failure_reported_witness :
  let text : Text Z := Build_Text Z (λ _, EmptyString) (λ _, []) in
  let w := World ∅ {["out1.dat"]} [] [Str "before"] in
  open_out "out1.dat" w = false ∧
  open_in "floats.dat" w = None ∧
  open_in "cats.dat" w = None ∧
  dump_vector [3; 1; 2] "out1.dat" w
  = World ∅ {["out1.dat"]} [] [Str "before"; Str "Error! Could not open file"; Endl] ∧
  test_sorting_algorithms (float := Z) 4 "floats.dat" w
  = Ok (World ∅ {["out1.dat"]} []
          [Str "before"; Str "Error! Could not open file"; Endl]) ∧
  main (float := Z) 4 "floats.dat" w
  = Ok (0, World ∅ {["out1.dat"]} []
             [Str "before"; Str "Error! Could not open file"; Endl; Endl;
              Str "Sorting a user defined class using the bubble sort.";
              Endl; Endl; Str "Error! Could not open file"; Endl]).
Proof.
  intros text w.
  assert (H1 : open_out "out1.dat" w = false) by (vm_compute; reflexivity).
  assert (H2 : open_in "floats.dat" w = None) by (vm_compute; reflexivity).
  assert (H3 : open_in "cats.dat" w = None) by (vm_compute; reflexivity).
  destruct (open_failure_reported (float := Z) 4 w)
    as (Hdump & Htest & Hcats & Hmain & _).
  split; [exact H1|]. split; [exact H2|]. split; [exact H3|].
  split; [exact (Hdump Z text [3; 1; 2] "out1.dat" H1)|].
  split; [exact (Htest "floats.dat" H2)|].
  rewrite (Hmain "floats.dat" H2).
  rewrite (proj1 (proj2 (proj2 (open_failure_reported (float := Z) 4
                                  (cout could_not_open w))))); [reflexivity|].
  exact H3.
Defined.


(** ** Writing floats and reading them back *)

(** ** Rounding a quotient *)

Lemma round_half_even_near n d q :
  0 < d → 2 * Z.abs (n - q * d) < d → round_half_even n d = q.
Proof.
  intros Hd Hnear. unfold round_half_even.
  pose proof (Z.div_mod n d ltac:(lia)) as Hdm.
  pose proof (Z.mod_pos_bound n d Hd) as Hr.
  assert (Hq : n / d = q ∨ n / d = q - 1) by nia.
  destruct Hq as [Hq|Hq]; rewrite Hq in *.
  - assert (2 * (n mod d) < d) by lia.
    destruct (Z.ltb_spec (2 * (n mod d)) d); [done|lia].
  - assert (d < 2 * (n mod d)) by lia.
    destruct (Z.ltb_spec (2 * (n mod d)) d); [lia|].
    destruct (Z.ltb_spec d (2 * (n mod d))); [lia|lia].
Qed.

Lemma round_half_even_error n d :
  0 < d → 2 * Z.abs (n - round_half_even n d * d) <= d.
Proof.
  intros Hd. unfold round_half_even.
  pose proof (Z.div_mod n d ltac:(lia)) as Hdm.
  pose proof (Z.mod_pos_bound n d Hd) as Hr.
  destruct (Z.ltb_spec (2 * (n mod d)) d); [nia|].
  destruct (Z.ltb_spec d (2 * (n mod d))); [nia|].
  destruct (Z.even (n / d)); nia.
Qed.

Lemma round_half_even_scale n d c :
  0 < d → 0 < c → round_half_even (n * c) (d * c) = round_half_even n d.
Proof.
  intros Hd Hc. unfold round_half_even.
  rewrite Z.div_mul_cancel_r by lia.
  rewrite Z.mul_mod_distr_r by lia.
  destruct (Z.ltb_spec (2 * (n mod d)) d),
    (Z.ltb_spec (2 * (n mod d * c)) (d * c)); try nia.
  destruct (Z.ltb_spec d (2 * (n mod d))),
    (Z.ltb_spec (d * c) (2 * (n mod d * c))); try nia.
Qed.

Lemma round_half_even_ratio n d n' d' :
  0 < d → 0 < d' → n * d' = n' * d →
  round_half_even n d = round_half_even n' d'.
Proof.
  intros Hd Hd' Heq.
  rewrite <- (round_half_even_scale n d d') by done.
  rewrite <- (round_half_even_scale n' d' d) by done.
  rewrite Heq. f_equal. lia.
Qed.

Lemma div_ratio n d n' d' :
  0 < d → 0 < d' → n * d' = n' * d → n / d = n' / d'.
Proof.
  intros Hd Hd' Heq.
  rewrite <- (Z.div_mul_cancel_r n d d') by lia.
  rewrite <- (Z.div_mul_cancel_r n' d' d) by lia.
  rewrite Heq. f_equal. lia.
Qed.

(** ** The decimal exponent *)

Lemma pow10_succ j : 0 <= j → 10 ^ (j + 1) = 10 ^ j * 10.
Proof. intros Hj. by rewrite Z.pow_add_r by lia. Qed.

Lemma count_digits_spec (fuel : nat) : ∀ z j,
  0 <= j < Z.of_nat fuel → 10 ^ j <= z < 10 ^ (j + 1) →
  count_digits fuel z = j.
Proof.
  induction fuel as [|fuel IH]; intros z j Hj Hz; [lia|].
  cbn [count_digits]. destruct (Z.ltb_spec z 10) as [Hlt|Hge].
  - destruct (Z.eq_dec j 0) as [->|Hne]; [done|].
    assert (10 ^ 1 <= 10 ^ j) by (apply Z.pow_le_mono_r; lia). lia.
  - destruct (Z.eq_dec j 0) as [->|Hne]; [cbn in Hz; lia|].
    rewrite (IH (z / 10) (j - 1)); [lia|lia|].
    replace (j - 1 + 1) with j by lia.
    rewrite (pow10_succ j) in Hz by lia.
    replace (10 ^ j) with (10 ^ (j - 1) * 10) in *
      by (rewrite <- pow10_succ by lia; f_equal; lia).
    split.
    + apply Z.div_le_lower_bound; lia.
    + apply Z.div_lt_upper_bound; lia.
Qed.

Lemma log10_spec z j :
  0 <= j → 10 ^ j <= z < 10 ^ (j + 1) → log10 z = j.
Proof.
  intros Hj Hz. unfold log10. apply count_digits_spec; [|done].
  split; [done|].
  assert (0 < z) by (pose proof (Z.pow_pos_nonneg 10 j); lia).
  assert (2 ^ j <= z).
  { etrans; [|apply Hz]. apply Z.pow_le_mono_l. lia. }
  assert (j <= Z.log2 z).
  { apply Z.log2_le_pow2; lia. }
  lia.
Qed.

Lemma decimal_exponent_spec n d X :
  0 < d → -50 <= X →
  10 ^ (X + 50) * d <= n * 10 ^ 50 < 10 ^ (X + 51) * d →
  decimal_exponent n d = X.
Proof.
  intros Hd HX Hn. unfold decimal_exponent.
  rewrite (log10_spec _ (X + 50)); [lia|lia|].
  replace (X + 50 + 1) with (X + 51) by lia. split.
  - apply Z.div_le_lower_bound; lia.
  - apply Z.div_lt_upper_bound; lia.
Qed.

Lemma decimal_exponent_ratio n d n' d' :
  0 < d → 0 < d' → n * d' = n' * d →
  decimal_exponent n d = decimal_exponent n' d'.
Proof.
  intros Hd Hd' Heq. unfold decimal_exponent.
  rewrite (div_ratio (n * 10 ^ 50) d (n' * 10 ^ 50) d'); [done|done|done|].
  lia.
Qed.

Lemma nearest_float_ratio neg n d n' d' :
  0 < d → 0 < d' → n * d' = n' * d →
  nearest_float neg n d = nearest_float neg n' d'.
Proof.
  intros Hd Hd' Heq. unfold nearest_float.
  rewrite (div_ratio (n * 2 ^ 149) d (n' * 2 ^ 149) d') by (done || lia).
  set (e := Z.max (-149) _).
  rewrite (round_half_even_ratio (n * 2 ^ Z.max 0 (- e)) (d * 2 ^ Z.max 0 e)
             (n' * 2 ^ Z.max 0 (- e)) (d' * 2 ^ Z.max 0 e)); [done| | |].
  - apply Z.mul_pos_pos; [done|]. apply Z.pow_pos_nonneg; lia.
  - apply Z.mul_pos_pos; [done|]. apply Z.pow_pos_nonneg; lia.
  - transitivity (n * d' * (2 ^ Z.max 0 (- e) * 2 ^ Z.max 0 e)); [ring|].
    rewrite Heq. ring.
Qed.

(** What [nearest_float] returns for a quotient that is not below the
    least normal number: the significand [m] and the exponent [e] chosen
    give [m * 2^e] within half a unit of the last place. *)
Lemma nearest_float_normal neg n d x :
  0 < d → 2 ^ 23 * d <= n * 2 ^ 149 →
  nearest_float neg n d = Some x →
  ∃ E, 0 <= E ∧
       f_neg x = neg ∧ is_float x ∧ 2 ^ 23 <= f_mant x ∧
       2 * Z.abs (f_mant x * 2 ^ (f_exp x + 149) * d - n * 2 ^ 149)
       <= 2 ^ E * d ∧
       2 ^ E * 2 ^ 23 * d <= n * 2 ^ 149.
Proof.
  intros Hd Hnormal. unfold nearest_float.
  set (s := n * 2 ^ 149 / d).
  assert (Hs : 2 ^ 23 <= s) by (apply Z.div_le_lower_bound; lia).
  assert (Hsd : s * d <= n * 2 ^ 149 < (s + 1) * d).
  { pose proof (Z.div_mod (n * 2 ^ 149) d ltac:(lia)) as Hdm.
    pose proof (Z.mod_pos_bound (n * 2 ^ 149) d Hd) as Hr.
    fold s in Hdm. lia. }
  destruct (Z.log2_spec s ltac:(lia)) as [Hlo Hhi].
  assert (HL : 23 <= Z.log2 s).
  { apply Z.log2_le_pow2; lia. }
  set (L := Z.log2 s) in *.
  rewrite (Z.max_r (-149) (L - 172)) by lia.
  set (E := L - 23).
  assert (HE : 0 <= E) by (unfold E; lia).
  assert (H2E : 0 < 2 ^ E) by (by apply Z.pow_pos_nonneg).
  assert (HLE : 2 ^ L = 2 ^ E * 2 ^ 23).
  { rewrite <- Z.pow_add_r by lia. f_equal. unfold E. lia. }
  assert (HLE1 : 2 ^ Z.succ L = 2 ^ E * 2 ^ 24).
  { rewrite <- Z.pow_add_r by lia. f_equal. unfold E. lia. }
  rewrite HLE in Hlo. rewrite HLE1 in Hhi.
  rewrite (round_half_even_ratio _ _ (n * 2 ^ 149) (d * 2 ^ E)); cycle 1.
  { apply Z.mul_pos_pos; [done|]. apply Z.pow_pos_nonneg; lia. }
  { lia. }
  { transitivity (n * d * (2 ^ Z.max 0 (- (L - 172)) * 2 ^ E)); [ring|].
    transitivity (n * d * (2 ^ 149 * 2 ^ Z.max 0 (L - 172))); [|ring].
    f_equal. rewrite <- !Z.pow_add_r by lia. f_equal. unfold E. lia. }
  set (m := round_half_even (n * 2 ^ 149) (d * 2 ^ E)).
  pose proof (round_half_even_error (n * 2 ^ 149) (d * 2 ^ E) ltac:(lia))
    as Herr. fold m in Herr.
  assert (Hlo' : 2 ^ E * 2 ^ 23 * d <= n * 2 ^ 149) by nia.
  assert (Hhi' : n * 2 ^ 149 < 2 ^ E * 2 ^ 24 * d) by nia.
  assert (Hm : 2 ^ 23 <= m <= 2 ^ 24).
  { change (2 ^ 23) with 8388608 in *. change (2 ^ 24) with 16777216 in *.
    set (u := d * 2 ^ E) in *. assert (0 < u) by (unfold u; lia).
    assert (8388608 * u <= n * 2 ^ 149 < 16777216 * u) by (unfold u; lia).
    nia. }
  destruct (Z.eqb_spec m (2 ^ 24)) as [Hcarry|Hnocarry].
  - destruct (Z.ltb_spec 104 (L - 172 + 1)); [done|]. intros [= <-].
    exists E. cbn [f_neg f_mant f_exp]. split; [done|]. split; [done|].
    split; [unfold is_float; cbn [f_mant f_exp]; lia|]. split; [done|].
    split; [|done].
    replace (2 ^ 23 * 2 ^ (L - 172 + 1 + 149)) with (m * 2 ^ E).
    + replace (m * 2 ^ E * d) with (m * (d * 2 ^ E)) by ring.
      replace (2 ^ E * d) with (d * 2 ^ E) by ring. lia.
    + rewrite Hcarry. rewrite <- !Z.pow_add_r by lia. f_equal. unfold E. lia.
  - destruct (Z.ltb_spec 104 (L - 172)); [done|]. intros [= <-].
    exists E. cbn [f_neg f_mant f_exp]. split; [done|]. split; [done|].
    split; [unfold is_float; cbn [f_mant f_exp]; lia|]. split; [lia|].
    split; [|done].
    replace (L - 172 + 149) with E by (unfold E; lia).
    replace (m * 2 ^ E * d) with (m * (d * 2 ^ E)) by ring.
    replace (2 ^ E * d) with (d * 2 ^ E) by ring. lia.
Qed.

Lemma pow10_pos j : 0 <= j → 0 < 10 ^ j.
Proof. intros Hj. by apply Z.pow_pos_nonneg. Qed.

(** A decimal number of six significant digits, in the range of the normal
    floats, is what [put_float] writes for the float nearest to it. *)
(** The decimal exponent of [a / q] when it lies between [c * 10^j] and
    [10 * c * 10^j]. *)
Lemma decimal_exponent_decade n t a Dn p50 lo hi X :
  0 < t → 0 < Dn → 0 < p50 → -50 <= X →
  a = n * Dn →
  lo * p50 = 10 ^ (X + 50) * t * Dn →
  hi * p50 = 10 ^ (X + 51) * t * Dn →
  p50 = 10 ^ 50 →
  lo <= a < hi →
  decimal_exponent n t = X.
Proof.
  intros Ht HDn Hp HX -> Hlo Hhi Hp50 Ha.
  apply decimal_exponent_spec; [done|done|]. rewrite <- Hp50.
  assert (lo * p50 <= n * Dn * p50 < hi * p50) by nia.
  rewrite Hlo, Hhi in *. clear Hlo Hhi Hp50 Ha.
  set (u := 10 ^ (X + 50) * t) in *. set (w := 10 ^ (X + 51) * t) in *.
  nia.
Qed.

Lemma put_float_six_digits neg D k x :
  100000 <= D < 1000000 → -42 <= k <= 32 →
  decimal_to_float neg D k = Some x →
  put_float x
  = String.string_of_list_ascii
      ((if neg then ["-"%char] else []) ++ render D (k + 5)).
Proof.
  intros HD Hk. unfold decimal_to_float.
  set (P := 10 ^ Z.max 0 k). set (Dn := 10 ^ Z.max 0 (- k)).
  assert (HP : 0 < P) by (apply pow10_pos; lia).
  assert (HDn : 0 < Dn) by (apply pow10_pos; lia).
  assert (HPD : P * 10 ^ 50 = 10 ^ (k + 50) * Dn).
  { unfold P, Dn. rewrite <- !Z.pow_add_r by lia. f_equal. lia. }
  assert (H10P : ∀ j, 0 <= j → 10 ^ Z.max 0 (- (k - j)) * P
                               = 10 ^ j * Dn * 10 ^ Z.max 0 (k - j)).
  { intros j Hj. unfold P, Dn. rewrite <- !Z.pow_add_r by lia. f_equal. lia. }
  assert (Hnormal : 2 ^ 23 * Dn <= D * P * 2 ^ 149).
  { assert (Dn <= 10 ^ 42) by (apply Z.pow_le_mono_r; lia).
    assert (1 <= P) by lia.
    assert (2 ^ 23 * 10 ^ 42 <= 100000 * 2 ^ 149) by (vm_compute; discriminate).
    assert (100000 * 2 ^ 149 <= D * P * 2 ^ 149).
    { apply Z.mul_le_mono_nonneg_r; [by vm_compute|]. nia. }
    assert (2 ^ 23 * Dn <= 2 ^ 23 * 10 ^ 42).
    { apply Z.mul_le_mono_nonneg_l; [by vm_compute|done]. }
    lia. }
  intros Hx.
  destruct (nearest_float_normal neg (D * P) Dn x HDn Hnormal Hx)
    as (E & HE & Hneg & Hfl & Hmant & Herr & Hlow).
  clear Hx Hnormal.
  unfold put_float. rewrite Hneg. f_equal. f_equal.
  destruct (Z.eqb_spec (f_mant x) 0) as [Hz|_].
  { change (2 ^ 23) with 8388608 in Hmant. lia. }
  change (2 ^ 23) with 8388608 in Hlow. clear Hmant Hfl Hneg.
  assert (H149 : 0 < 2 ^ 149) by (by apply Z.pow_pos_nonneg).
  assert (H50 : 0 < 10 ^ 50) by (by apply pow10_pos).
  set (t := 2 ^ 149) in *. set (p50 := 10 ^ 50) in *.
  assert (Hp50 : p50 = 10 ^ 50) by done.
  clearbody t p50.
  set (n := f_mant x * 2 ^ (f_exp x + 149)) in *. clearbody n.
  set (q := P * t).
  assert (Hq : 0 < q) by (unfold q; lia).
  set (a := n * Dn) in *.
  assert (Hb : D * P * t = D * q) by (unfold q; ring).
  rewrite Hb in Herr, Hlow.
  assert (HbD : 100000 * q <= D * q <= 999999 * q) by nia.
  assert (Hclose : 16777216 * Z.abs (a - D * q) <= D * q).
  { assert (0 < 2 ^ E) by (by apply Z.pow_pos_nonneg).
    set (u := 2 ^ E * Dn) in *.
    replace (2 ^ E * 8388608 * Dn) with (8388608 * u) in Hlow by (unfold u; ring).
    lia. }
  clear Herr Hlow.
  assert (Hscale : ∀ c, c * q * p50 = c * (10 ^ (k + 50) * t * Dn)).
  { intros c. unfold q.
    transitivity (c * t * (P * p50)); [ring|]. rewrite HPD. ring. }
  destruct (Z.le_gt_cases (100000 * q) a) as [Hcase|Hcase].
  - (* the float lies in the decade of the decimal number *)
    assert (Hup : a < 1000000 * q) by lia.
    assert (HX : decimal_exponent n t = k + 5).
    { apply (decimal_exponent_decade n t a Dn p50 (100000 * q) (1000000 * q));
        try done; try lia.
      - rewrite Hscale. replace (k + 5 + 50) with (k + 50 + 5) by lia.
        rewrite (Z.pow_add_r 10 (k + 50) 5) by lia. change (10 ^ 5) with 100000.
        ring.
      - rewrite Hscale. replace (k + 5 + 51) with (k + 50 + 6) by lia.
        rewrite (Z.pow_add_r 10 (k + 50) 6) by lia. change (10 ^ 6) with 1000000.
        ring. }
    rewrite HX.
    replace (5 - (k + 5)) with (- (k - 0)) by lia.
    replace (k + 5 - 5) with (k - 0) by lia.
    rewrite (round_half_even_ratio _ _ a q); cycle 1.
    { apply Z.mul_pos_pos; [done|]. apply pow10_pos. lia. }
    { done. }
    { unfold a, q.
      transitivity (n * t * (10 ^ Z.max 0 (- (k - 0)) * P)); [ring|].
      rewrite H10P by lia. change (10 ^ 0) with 1. ring. }
    rewrite (round_half_even_near a q D); [|done|lia].
    destruct (Z.eqb_spec D 1000000); [lia|done].
  - (* the float lies just below the power of ten that the number is *)
    assert (HD5 : D = 100000).
    { destruct (Z.eq_dec D 100000) as [|Hne]; [done|].
      assert (100001 * q <= D * q) by nia. lia. }
    subst D.
    assert (Hlo : 10000 * q <= a) by lia.
    assert (HX : decimal_exponent n t = k + 4).
    { apply (decimal_exponent_decade n t a Dn p50 (10000 * q) (100000 * q));
        try done; try lia.
      - rewrite Hscale. replace (k + 4 + 50) with (k + 50 + 4) by lia.
        rewrite (Z.pow_add_r 10 (k + 50) 4) by lia. change (10 ^ 4) with 10000.
        ring.
      - rewrite Hscale. replace (k + 4 + 51) with (k + 50 + 5) by lia.
        rewrite (Z.pow_add_r 10 (k + 50) 5) by lia. change (10 ^ 5) with 100000.
        ring. }
    rewrite HX.
    replace (5 - (k + 4)) with (- (k - 1)) by lia.
    replace (k + 4 - 5) with (k - 1) by lia.
    rewrite (round_half_even_ratio _ _ (10 * a) q); cycle 1.
    { apply Z.mul_pos_pos; [done|]. apply pow10_pos. lia. }
    { done. }
    { unfold a, q.
      transitivity (n * t * (10 ^ Z.max 0 (- (k - 1)) * P)); [ring|].
      rewrite H10P by lia. change (10 ^ 1) with 10. ring. }
    rewrite (round_half_even_near (10 * a) q 1000000); [|done|lia].
    replace (k + 4 + 1) with (k + 5) by lia. done.
Qed.

(** ** Digits and their characters *)

Lemma digit_cases d :
  0 <= d <= 9 →
  d = 0 ∨ d = 1 ∨ d = 2 ∨ d = 3 ∨ d = 4 ∨ d = 5 ∨ d = 6 ∨ d = 7 ∨ d = 8 ∨ d = 9.
Proof. lia. Qed.

Lemma digit_props d :
  0 <= d <= 9 →
  is_digit (digit d) = true ∧ digit_value (digit d) = d ∧
  is_space (digit d) = false ∧
  Ascii.eqb (digit d) "-" = false ∧ Ascii.eqb (digit d) "+" = false ∧
  Ascii.eqb (digit d) "." = false ∧
  Ascii.eqb (digit d) "e" = false ∧ Ascii.eqb (digit d) "E" = false.
Proof.
  intros Hd. destruct (digit_cases d Hd) as [->|[->|[->|[->|[->|[->|[->|[->|[->| ->]]]]]]]]];
    vm_compute; done.
Qed.

Lemma foldl_value_app l1 : ∀ l2 a,
  foldl (λ a d, 10 * a + d) a (l1 ++ l2)
  = foldl (λ a d, 10 * a + d) (foldl (λ a d, 10 * a + d) a l1) l2.
Proof. intros l2 a. apply foldl_app. Qed.

Lemma foldl_value_shift l : ∀ a,
  foldl (λ a d, 10 * a + d) a l = a * 10 ^ Z.of_nat (length l) + value l.
Proof.
  unfold value. induction l as [|d l IH]; intros a.
  - cbn. lia.
  - cbn [foldl length]. rewrite IH, (IH (10 * 0 + d)).
    rewrite Nat2Z.inj_succ, Z.pow_succ_r by lia. ring.
Qed.

Lemma value_app l1 l2 :
  value (l1 ++ l2) = value l1 * 10 ^ Z.of_nat (length l2) + value l2.
Proof.
  unfold value at 1. rewrite foldl_app. fold (value l1).
  apply foldl_value_shift.
Qed.

Lemma value_zeros j : value (replicate j 0) = 0.
Proof.
  induction j as [|j IH]; [done|].
  change (replicate (S j) 0) with ([0] ++ replicate j 0).
  rewrite value_app, IH. cbn. lia.
Qed.

Lemma value_digits w : ∀ n, 0 <= n < 10 ^ Z.of_nat w → value (digits w n) = n.
Proof.
  induction w as [|w IH]; intros n Hn.
  - cbn in *. lia.
  - cbn [digits]. rewrite value_app. cbn [length].
    rewrite Nat2Z.inj_succ, Z.pow_succ_r in Hn by lia.
    rewrite IH.
    + change (value [n mod 10]) with (10 * 0 + n mod 10).
      pose proof (Z.div_mod n 10 ltac:(lia)). change (10 ^ Z.of_nat 1) with 10.
      lia.
    + split; [apply Z.div_pos; lia|]. apply Z.div_lt_upper_bound; lia.
Qed.

Lemma digits_decimal w : ∀ n, is_decimal (digits w n).
Proof.
  induction w as [|w IH]; intros n; [constructor|].
  cbn [digits]. apply Forall_app. split; [apply IH|].
  constructor; [|constructor].
  pose proof (Z.mod_pos_bound n 10 ltac:(lia)). lia.
Qed.

Lemma digits_length w : ∀ n, length (digits w n) = w.
Proof.
  induction w as [|w IH]; intros n; [done|].
  cbn [digits]. rewrite length_app, IH. cbn. lia.
Qed.

Lemma strip_zeros_spec ds :
  ∃ j, ds = strip_zeros ds ++ replicate j 0.
Proof.
  induction ds as [|d ds [j IH]].
  - by exists 0%nat.
  - cbn [strip_zeros]. destruct (strip_zeros ds) as [|r rs] eqn:E.
    + destruct (Z.eqb_spec d 0) as [->|Hd].
      * exists (S j). cbn in *. by rewrite IH.
      * exists j. cbn in *. by rewrite IH.
    + exists j. cbn in *. by rewrite IH.
Qed.

Lemma strip_zeros_decimal ds : is_decimal ds → is_decimal (strip_zeros ds).
Proof.
  intros Hds. destruct (strip_zeros_spec ds) as [j Hj].
  rewrite Hj in Hds. by apply Forall_app in Hds as [? _].
Qed.

Lemma number_digits ds :
  is_decimal ds → number (digit <$> ds) = value ds.
Proof.
  unfold number, value. generalize 0.
  induction ds as [|d ds IH]; intros a Hds; [done|].
  apply Forall_cons in Hds as [Hd Hds]. cbn [fmap list_fmap foldl].
  destruct (digit_props d Hd) as (_ & -> & _). by apply IH.
Qed.

Lemma span_digits_digits ds rest :
  is_decimal ds → ends_number rest →
  span_digits ((digit <$> ds) ++ rest) = (digit <$> ds, rest).
Proof.
  intros Hds Hrest. induction Hds as [|d ds Hd Hds IH].
  - destruct rest as [|c rest]; [done|]. cbn in *. by rewrite Hrest.
  - cbn [fmap list_fmap app span_digits].
    destruct (digit_props d Hd) as (-> & _). fold (fmap (M := list) digit ds).
    by rewrite IH.
Qed.

Lemma decimal_to_float_scale neg m j k :
  0 <= j → decimal_to_float neg (m * 10 ^ j) k = decimal_to_float neg m (k + j).
Proof.
  intros Hj. unfold decimal_to_float. apply nearest_float_ratio.
  - apply pow10_pos. lia.
  - apply pow10_pos. lia.
  - transitivity (m * (10 ^ j * 10 ^ Z.max 0 k * 10 ^ Z.max 0 (- (k + j))));
      [ring|].
    transitivity (m * (10 ^ Z.max 0 (k + j) * 10 ^ Z.max 0 (- k))); [|ring].
    f_equal. rewrite <- !Z.pow_add_r by lia. f_equal. lia.
Qed.

Lemma read_float_mantissa (neg : bool) all ilen tail e rest :
  is_decimal all → (0 < ilen ≤ length all)%nat →
  ends_mantissa tail → read_exponent tail = Some (e, rest) →
  read_float ((if neg then ["-"%char] else []) ++ mantissa_text all ilen ++ tail)
  = (x ← decimal_to_float neg (value all)
                          (e - Z.of_nat (length all - ilen));
     Some (x, rest)).
Proof.
  intros Hall Hilen Htail Hexp.
  destruct ilen as [|il]; [lia|]. destruct all as [|d0 all']; [cbn in Hilen; lia|].
  unfold mantissa_text. cbn [take drop fmap list_fmap].
  fold (fmap (M := list) digit (take il all')).
  apply Forall_cons in Hall as [Hd0 Hall].
  destruct (digit_props d0 Hd0) as (Hdig & _ & Hsp & Hminus & Hplus & _).
  set (I := take il all'). set (Fu := drop il all').
  assert (HI : is_decimal I) by (by apply Forall_take).
  assert (HFu : is_decimal Fu) by (by apply Forall_drop).
  destruct (strip_zeros_spec Fu) as [j Hj].
  pose proof (strip_zeros_decimal Fu HFu) as HF.
  set (F := strip_zeros Fu) in *.
  assert (Hsign : read_sign (skip_spaces
            ((if neg then ["-"%char] else []) ++
             (digit d0 :: (digit <$> I)) ++
             match F with [] => [] | _ :: _ => "."%char :: (digit <$> F) end ++ tail))
          = (neg, (digit d0 :: (digit <$> I)) ++
             match F with [] => [] | _ :: _ => "."%char :: (digit <$> F) end ++ tail)).
  { destruct neg; cbn [app skip_spaces read_sign].
    - done.
    - rewrite Hsp. cbn [read_sign]. by rewrite Hminus, Hplus. }
  unfold read_float.
  rewrite <- (app_assoc (digit d0 :: (digit <$> I))).
  rewrite Hsign.
  change (digit d0 :: (digit <$> I)) with (digit <$> (d0 :: I)).
  assert (HdI : is_decimal (d0 :: I)) by (by constructor).
  assert (Hval : value (d0 :: all') = value (d0 :: I ++ F) * 10 ^ Z.of_nat j).
  { rewrite <- (take_drop il all'). fold I Fu. rewrite Hj.
    change (d0 :: I ++ F ++ replicate j 0) with ((d0 :: I) ++ F ++ replicate j 0).
    rewrite app_assoc, value_app, value_zeros, length_replicate.
    change ((d0 :: I) ++ F) with (d0 :: I ++ F). lia. }
  assert (Hlen : Z.of_nat (length (d0 :: all') - S il)
                 = Z.of_nat (length F) + Z.of_nat j).
  { cbn [length]. replace (S (length all') - S il)%nat with (length Fu).
    - rewrite Hj at 1. rewrite length_app, length_replicate. lia.
    - unfold Fu. rewrite length_drop. lia. }
  rewrite Hval, Hlen, decimal_to_float_scale by lia.
  replace (e - (Z.of_nat (length F) + Z.of_nat j) + Z.of_nat j)
    with (e - Z.of_nat (length F)) by lia.
  destruct F as [|f0 F'] eqn:EF.
  - rewrite app_nil_l.
    rewrite span_digits_digits; [|done|].
    2:{ destruct tail; [done|]. apply Htail. }
    assert (Hfp : match tail with
                  | c :: cs' => if Ascii.eqb c "." then span_digits cs' else ([], tail)
                  | [] => ([], [])
                  end = ([], tail)).
    { destruct tail as [|c tail']; [done|]. destruct Htail as [_ ->]. done. }
    rewrite Hfp. rewrite !app_nil_r. cbn [fmap list_fmap].
    fold (fmap (M := list) digit I).
    change (digit d0 :: (digit <$> I)) with (digit <$> (d0 :: I)).
    rewrite Hexp. cbn [mbind option_bind].
    rewrite number_digits by done. done.
  - rewrite span_digits_digits; [|done|done].
    cbn [app]. change (Ascii.eqb "." ".") with true. cbn match.
    rewrite span_digits_digits; [|done|].
    2:{ destruct tail; [done|]. apply Htail. }
    rewrite <- fmap_app. cbn [fmap list_fmap app].
    fold (fmap (M := list) digit (I ++ f0 :: F')).
    change (digit d0 :: (digit <$> I ++ f0 :: F')) with (digit <$> (d0 :: I ++ f0 :: F')).
    rewrite Hexp. cbn [mbind option_bind].
    rewrite number_digits.
    + cbn [length]. by rewrite length_fmap.
    + constructor; [done|]. by apply Forall_app.
Qed.

Lemma read_exponent_written X rest :
  -99 <= X <= 99 →
  read_exponent ("e"%char :: (if X <? 0 then "-"%char else "+"%char)
                   :: (digit <$> digits 2 (Z.abs X)) ++ "010"%char :: rest)
  = Some (X, "010"%char :: rest).
Proof.
  intros HX. unfold read_exponent.
  change (Ascii.eqb "e" "e" || Ascii.eqb "e" "E") with true. cbn match.
  assert (Hsign : read_sign ((if X <? 0 then "-"%char else "+"%char)
                    :: (digit <$> digits 2 (Z.abs X)) ++ "010"%char :: rest)
                  = (X <? 0, (digit <$> digits 2 (Z.abs X)) ++ "010"%char :: rest)).
  { by destruct (X <? 0). }
  rewrite Hsign.
  rewrite span_digits_digits; [|apply digits_decimal|done].
  rewrite number_digits by apply digits_decimal.
  rewrite value_digits by (change (10 ^ Z.of_nat 2) with 100; lia).
  cbn [digits app fmap list_fmap].
  destruct (Z.ltb_spec X 0); f_equal; f_equal; lia.
Qed.

(** What [render] writes, followed by a newline, reads as the decimal
    number [D * 10^(X - 5)]. *)
Lemma read_float_render (neg : bool) D X rest :
  100000 <= D < 1000000 → -99 <= X <= 99 →
  read_float ((if neg then ["-"%char] else []) ++
              render D X ++ "010"%char :: rest)
  = (x ← decimal_to_float neg D (X - 5); Some (x, "010"%char :: rest)).
Proof.
  intros HD HX. unfold render.
  pose proof (digits_decimal 6 D) as Hdec.
  pose proof (digits_length 6 D) as Hlen.
  pose proof (value_digits 6 D ltac:(change (10 ^ Z.of_nat 6) with 1000000; lia))
    as Hval.
  destruct ((X <? -4) || (6 <=? X)) eqn:Hsci.
  - rewrite <- app_assoc.
    rewrite (read_float_mantissa neg (digits 6 D) 1 _ X ("010"%char :: rest));
      [| done | lia | done | by apply read_exponent_written ].
    rewrite Hval, Hlen. do 2 f_equal.
  - apply orb_false_elim in Hsci as [H1%Z.ltb_ge H2%Z.leb_gt].
    destruct (Z.ltb_spec X 0) as [Hneg|Hpos].
    + rewrite (read_float_mantissa neg _ 1 _ 0 ("010"%char :: rest));
        [| | | done | done ].
      * rewrite value_app, value_zeros, Hval, length_app, length_replicate, Hlen.
        do 2 f_equal. lia.
      * apply Forall_app. split; [|done]. apply Forall_replicate. lia.
      * rewrite length_app, length_replicate, Hlen. lia.
    + rewrite (read_float_mantissa neg _ (S (Z.to_nat X)) _ 0 ("010"%char :: rest));
        [| done | lia | done | done ].
      rewrite Hval, Hlen. do 2 f_equal. lia.
Qed.

Lemma decimal_to_float_zero neg k :
  decimal_to_float neg 0 k = Some (Float neg 0 (-149)).
Proof.
  unfold decimal_to_float, nearest_float.
  rewrite !Z.mul_0_l. rewrite Z.div_0_l by (pose proof (pow10_pos (Z.max 0 (- k))); lia).
  change (Z.max (-149) (Z.log2 0 - 172)) with (-149).
  unfold round_half_even. rewrite Z.div_0_l, Z.mod_0_l.
  - assert (0 < 10 ^ Z.max 0 (- k) * 2 ^ Z.max 0 (-149)).
    { apply Z.mul_pos_pos; [apply pow10_pos; lia|done]. }
    destruct (Z.ltb_spec (2 * 0) (10 ^ Z.max 0 (- k) * 2 ^ Z.max 0 (-149)));
      [done|lia].
  - pose proof (pow10_pos (Z.max 0 (- k))). change (2 ^ Z.max 0 (-149)) with 1. lia.
  - pose proof (pow10_pos (Z.max 0 (- k))). change (2 ^ Z.max 0 (-149)) with 1. lia.
Qed.

Lemma read_float_zero (neg : bool) rest :
  read_float ((if neg then ["-"%char] else []) ++ "0"%char :: "010"%char :: rest)
  = Some (Float neg 0 (-149), "010"%char :: rest).
Proof.
  change ("0"%char :: "010"%char :: rest)
    with (mantissa_text [0] 1 ++ "010"%char :: rest).
  rewrite (read_float_mantissa neg [0] 1 _ 0 ("010"%char :: rest));
    [| by repeat constructor | cbn; lia | done | done ].
  by rewrite decimal_to_float_zero.
Qed.

Lemma read_float_put x rest :
  six_digits x →
  read_float (String.list_ascii_of_string (put_float x) ++ "010"%char :: rest)
  = Some (x, "010"%char :: rest).
Proof.
  intros (neg & D & k & [->|[HD Hk]] & Hx).
  - rewrite decimal_to_float_zero in Hx. injection Hx as <-.
    unfold put_float. cbn [f_neg f_mant f_exp].
    change (0 =? 0) with true. cbn match.
    rewrite String.list_ascii_of_string_of_list_ascii, <- app_assoc.
    apply read_float_zero.
  - rewrite (put_float_six_digits neg D k x HD Hk Hx).
    rewrite String.list_ascii_of_string_of_list_ascii, <- app_assoc.
    rewrite read_float_render by (done || lia).
    replace (k + 5 - 5) with k by lia. by rewrite Hx.
Qed.

Lemma read_float_newline cs :
  read_float ("010"%char :: cs) = read_float cs.
Proof. done. Qed.

Lemma list_ascii_of_string_app s1 s2 :
  String.list_ascii_of_string (s1 +:+ s2)
  = String.list_ascii_of_string s1 ++ String.list_ascii_of_string s2.
Proof.
  induction s1 as [|c s1 IH]; [done|].
  change (String c s1 +:+ s2) with (String c (s1 +:+ s2)).
  cbn [String.list_ascii_of_string app]. by f_equal.
Qed.

Lemma dump_text_lines v : ∀ acc,
  String.list_ascii_of_string
    (foldl (λ text x, text +:+ put x +:+ newline) acc v)
  = String.list_ascii_of_string acc ++ lines v.
Proof.
  induction v as [|x v IH]; intros acc.
  - cbn. by rewrite app_nil_r.
  - cbn [foldl]. rewrite IH, !list_ascii_of_string_app.
    unfold lines. cbn [fmap list_fmap concat]. by rewrite <- !app_assoc.
Qed.

Lemma lines_length v : (length v ≤ length (lines v))%nat.
Proof.
  induction v as [|x v IH]; [done|].
  unfold lines in *. cbn [fmap list_fmap concat length].
  rewrite !length_app. cbn [length]. lia.
Qed.

Lemma read_floats_lines v : ∀ fuel,
  Forall six_digits v → (length v ≤ fuel)%nat →
  read_floats fuel (lines v) = v ∧
  read_floats fuel ("010"%char :: lines v) = v.
Proof.
  induction v as [|x v IH]; intros fuel Hv Hfuel.
  - destruct fuel; done.
  - apply Forall_cons in Hv as [Hx Hv].
    destruct fuel as [|fuel]; [cbn in Hfuel; lia|].
    cbn [length] in Hfuel.
    destruct (IH fuel Hv ltac:(lia)) as [_ IH'].
    unfold lines in *. cbn [fmap list_fmap concat read_floats].
    rewrite read_float_newline.
    rewrite <- app_assoc. cbn [app].
    rewrite (read_float_put x _ Hx). by rewrite IH'.
Qed.

Lemma get_all_dump_text v :
  Forall six_digits v → get_all (dump_text v) = v.
Proof.
  intros Hv. unfold dump_text. cbn [get_all float_text]. unfold get_all_float.
  cbn zeta. rewrite dump_text_lines. cbn [String.list_ascii_of_string app].
  apply read_floats_lines; [done|apply lines_length].
Qed.

(** C8, as stated, fails on floats that six digits do not write: the sorted
    sequence of 1234567 and 7654321 is written [1.23457e+06] and
    [7.65432e+06], and read again it is 1234570 and 7654320. *)
Lemma round_trip_seven_digits :
  let x := Float false 9876536 (-3) in
  let y := Float false 15308642 (-1) in
  decimal_to_float false 1234567 0 = Some x ∧
  decimal_to_float false 7654321 0 = Some y ∧
  nondecreasing op_lt [x; y] ∧
  dump_text [x; y]
  = ("1.23457e+06" +:+ newline +:+ "7.65432e+06" +:+ newline)%string ∧
  get_all (dump_text [x; y])
  = [Float false 9876560 (-3); Float false 15308640 (-1)] ∧
  get_all (dump_text [x; y]) ≠ [x; y].
Proof.
  intros x y. split; [by vm_compute|]. split; [by vm_compute|].
  split.
  { repeat constructor. }
  split; [by vm_compute|].
  assert (E : get_all (dump_text [x; y])
              = [Float false 9876560 (-3); Float false 15308640 (-1)])
    by (by vm_compute).
  split; [exact E|]. rewrite E. discriminate.
Qed.

(** C8, amended: a sequence of floats, each the float nearest to a decimal
    number of six significant digits at most (zero, or of a magnitude from
    [1e-37] up to [1e38]), that [dump_vector] writes to a file it can open,
    is the text of that file, one element a line, and the loader reads the
    same sequence from it.  The sequence need not be sorted. *)
Theorem round_trip_six_digits
    (v : list float) (output_file : string) (w : world) :
  Forall six_digits v → open_out output_file w = true →
  open_in output_file (dump_vector v output_file w) = Some (dump_text v) ∧
  get_all (dump_text v) = v.
Proof.
  intros Hv Hopen. split; [|by apply get_all_dump_text].
  unfold dump_vector. rewrite Hopen. unfold open_in, write_file.
  cbn [w_locked w_files]. apply bool_decide_eq_true in Hopen.
  rewrite decide_False by done. by rewrite lookup_insert_eq.
Qed.

Lemma round_trip_six_digits_witness :
  let x := Float false 13421773 (-27) in
  let y := Float false 13170115 (-22) in
  let w := World ∅ ∅ [] [] in
  Forall six_digits [x; y] ∧ open_out "out1.dat" w = true ∧
  decimal_to_float false 100000 (-6) = Some x ∧
  decimal_to_float false 314000 (-5) = Some y ∧
  open_in "out1.dat" (dump_vector [x; y] "out1.dat" w)
  = Some (dump_text [x; y]) ∧
  get_all (dump_text [x; y]) = [x; y].
Proof.
  intros x y w.
  assert (Hx : decimal_to_float false 100000 (-6) = Some x) by (by vm_compute).
  assert (Hy : decimal_to_float false 314000 (-5) = Some y) by (by vm_compute).
  assert (H1 : Forall six_digits [x; y]).
  { constructor; [|constructor; [|constructor]].
    - exists false, 100000, (-6). split; [right; lia|exact Hx].
    - exists false, 314000, (-5). split; [right; lia|exact Hy]. }
  assert (H2 : open_out "out1.dat" w = true) by (by vm_compute).
  split; [exact H1|]. split; [exact H2|]. split; [exact Hx|].
  split; [exact Hy|].
  exact (round_trip_six_digits [x; y] "out1.dat" w H1 H2).
Defined.

(** * Further properties of the routines *)

(** ** Whatever the comparison answers *)

Section AnyComparison.
Context {T : Type} `{Less T}.
Implicit Types (v l pre suf : list T) (x y : T).

Lemma bubble_sort_perm fuel v :
  (length v < fuel)%nat → ∃ s, bubble_sort fuel v = Ok s ∧ b_v s ≡ₚ v.
Proof.
  intros Hfuel. destruct v as [|x0 l0].
  { destruct fuel; [cbn in Hfuel; lia|]. rewrite bubble_sort_nil. eauto. }
  apply (bubble_sort_rule fuel
           (λ p suf _ _ _, p ++ suf ≡ₚ x0 :: l0)
           (λ s, b_v s ≡ₚ x0 :: l0)); [| |done|].
  - intros x l suf st ct pass Hperm _. cbn [b_v].
    by rewrite bubble_pass_perm.
  - intros x l suf st ct pass init m Hperm _ Hp.
    rewrite <- Hperm, <- (bubble_pass_perm x l), Hp, <- app_assoc. done.
  - by rewrite app_nil_r.
Qed.
End AnyComparison.

(** No hypothesis is made on [operator<] or [operator>]: an operator that
    answers without any consistency still lets each routine return, without
    a step outside the vector, and with the elements it received. *)
Theorem sorts_return_permutation
    {T : Type} `{Less T, Greater T} (fuel : nat) (v : list T) :
  (length v < fuel)%nat → size v <= INT_MAX →
  (∃ s, bubble_sort fuel v = Ok s ∧ b_v s ≡ₚ v) ∧
  (∃ s, shuttle_sort fuel v = Ok s ∧ s_v s ≡ₚ v) ∧
  (∃ v', quick_sort_full fuel v = Ok v' ∧ v' ≡ₚ v).
Proof.
  intros Hfuel Hsize. split; [|split].
  - by apply bubble_sort_perm.
  - destruct (shuttle_sort_refines fuel v Hfuel Hsize) as (s & E & Hv & _).
    exists s. rewrite Hv. split; [done|apply shuttle_list_perm].
  - destruct (quick_sort_full_sorts fuel v Hfuel) as (v' & E & Hp & _). eauto.
Qed.

Lemma sorts_return_permutation_witness :
  let odd : Less Z := λ a b, Z.odd (a + b) in
  let odd' : Greater Z := λ a b, Z.even (a * b) in
  (length [3; 1; 2] < 4)%nat ∧ size [3; 1; 2] <= INT_MAX ∧
  (∃ s, bubble_sort 4 [3; 1; 2] = Ok s ∧ b_v s ≡ₚ [3; 1; 2]) ∧
  (∃ s, shuttle_sort 4 [3; 1; 2] = Ok s ∧ s_v s ≡ₚ [3; 1; 2]) ∧
  (∃ v', quick_sort_full 4 [3; 1; 2] = Ok v' ∧ v' ≡ₚ [3; 1; 2]).
Proof.
  intros odd odd'.
  assert (H1 : (length [3; 1; 2] < 4)%nat) by (cbn; lia).
  assert (H2 : size [3; 1; 2] <= INT_MAX) by (vm_compute; discriminate).
  split; [exact H1|]. split; [exact H2|].
  exact (@sorts_return_permutation Z odd odd' 4%nat [3; 1; 2] H1 H2).
Defined.

(** ** Counting out-of-order pairs *)

Section InversionFacts.
Context {T : Type} `{Less T}.
Implicit Types (v l pre suf A B : list T) (x y a b : T).

Lemma count_less_range x l : 0 <= count_less x l <= Z.of_nat (length l).
Proof.
  induction l as [|y l IH]; cbn [count_less length]; [lia|].
  destruct (op_lt y x); lia.
Qed.

Lemma count_less_app x l1 l2 :
  count_less x (l1 ++ l2) = count_less x l1 + count_less x l2.
Proof.
  induction l1 as [|y l1 IH]; cbn [count_less app]; [lia|]. rewrite IH. lia.
Qed.

Lemma inversions_range l :
  0 <= 2 * inversions l <= Z.of_nat (length l) * (Z.of_nat (length l) - 1).
Proof.
  induction l as [|x l IH]; cbn [inversions length]; [lia|].
  pose proof (count_less_range x l). nia.
Qed.

(** Two neighbours that are out of order, put right: one pair fewer. *)
Lemma inversions_swap A a b B :
  op_lt b a = true → op_lt a b = false →
  inversions (A ++ a :: b :: B) = inversions (A ++ b :: a :: B) + 1.
Proof.
  intros Hba Hab. induction A as [|z A IH]; cbn [inversions app count_less].
  - rewrite Hba, Hab. lia.
  - rewrite IH, !count_less_app. cbn [count_less]. lia.
Qed.

Lemma count_less_nondecreasing x l :
  Forall (not_after op_lt x) l → count_less x l = 0.
Proof.
  induction 1 as [|y l Hy Hl IH]; cbn [count_less]; [done|].
  unfold not_after in Hy. rewrite Hy, IH. done.
Qed.

Lemma inversions_nondecreasing l : nondecreasing op_lt l → inversions l = 0.
Proof.
  induction 1 as [|x l Hl IH Hx]; cbn [inversions]; [done|].
  rewrite IH, count_less_nondecreasing by done. done.
Qed.

(** A pass of [bubble_sort] removes one pair per swap. *)
Lemma bubble_pass_inversions l : ∀ x pre suf,
  (∀ a b : T, op_lt a b = true → op_lt b a = false) →
  inversions (pre ++ bubble_pass x l ++ suf) + bubble_swaps x l
  = inversions (pre ++ x :: l ++ suf).
Proof.
  induction l as [|y l IH]; intros x pre suf Hasym;
    cbn [bubble_pass bubble_swaps app]; [lia|].
  destruct (op_lt y x) eqn:Hyx.
  - rewrite (inversions_swap pre x y) by auto.
    specialize (IH x (pre ++ [y]) suf Hasym).
    rewrite <- !app_assoc in IH. cbn [app] in *. lia.
  - specialize (IH y (pre ++ [x]) suf Hasym).
    rewrite <- !app_assoc in IH. cbn [app] in *. lia.
Qed.

(** A pass of [shuttle_sort] removes one pair per swap. *)
Lemma shuttle_insert_snoc pre y x :
  shuttle_insert (pre ++ [y]) x
  = if op_lt x y then shuttle_insert pre x ++ [y] else pre ++ [y; x].
Proof.
  unfold shuttle_insert. rewrite reverse_snoc. cbn [shuttle_ins].
  destruct (op_lt x y).
  - by rewrite reverse_cons.
  - rewrite !reverse_cons, reverse_involutive, <- app_assoc. done.
Qed.

Lemma shuttle_insert_inversions pre : ∀ x suf,
  (∀ a b : T, op_lt a b = true → op_lt b a = false) →
  inversions (shuttle_insert pre x ++ suf) + shuttle_swaps x (reverse pre)
  = inversions (pre ++ x :: suf).
Proof.
  induction pre as [|y pre IH] using rev_ind; intros x suf Hasym.
  - cbn. lia.
  - rewrite shuttle_insert_snoc, reverse_snoc. cbn [shuttle_swaps].
    destruct (op_lt x y) eqn:Hxy.
    + rewrite <- !app_assoc. cbn [app].
      rewrite (inversions_swap pre y x) by auto.
      specialize (IH x (y :: suf) Hasym). lia.
    + rewrite <- !app_assoc. cbn [app]. lia.
Qed.
End InversionFacts.

(** ** The counters of [bubble_sort] *)

Section BubbleCounters.
Context {T : Type} `{Less T}.
Implicit Types (v l pre suf : list T) (x y : T).

(** What the counters hold when the routine returns, before they are
    reduced to [int]. *)
Lemma bubble_sort_counts fuel v :
  (length v < fuel)%nat → size v <= INT_MAX →
  ∃ s swaps comparisons,
    bubble_sort fuel v = Ok s ∧
    b_swaps_total s = wrap swaps ∧
    b_comparisons_total s = wrap comparisons ∧
    0 <= swaps <= comparisons ∧
    2 * comparisons <= size v * (size v - 1) ∧
    ((∀ a b : T, op_lt a b = true → op_lt b a = false) →
     swaps + inversions (b_v s) = inversions v) ∧
    1 <= b_pass s <= Z.max 1 (size v).
Proof.
  intros Hfuel Hsize. destruct v as [|x0 l0].
  { destruct fuel; [cbn in Hfuel; lia|]. rewrite bubble_sort_nil.
    exists (BubbleState [] 0 1 0 0 0 0 0 1), 0, 0.
    repeat split; vm_compute; congruence. }
  set (n := size (x0 :: l0)) in *.
  enough (∃ s, bubble_sort fuel (x0 :: l0) = Ok s ∧
               ∃ swaps comparisons,
                 b_swaps_total s = wrap swaps ∧
                 b_comparisons_total s = wrap comparisons ∧
                 0 <= swaps <= comparisons ∧
                 2 * comparisons <= n * (n - 1) ∧
                 ((∀ a b : T, op_lt a b = true → op_lt b a = false) →
                  swaps + inversions (b_v s) = inversions (x0 :: l0)) ∧
                 1 <= b_pass s <= Z.max 1 n)
    as (s & E & sw & co & ?); [by exists s, sw, co|].
  apply (bubble_sort_rule fuel
    (λ p suf st ct pass,
       ∃ sw co, st = wrap sw ∧ ct = wrap co ∧ 0 <= sw <= co ∧
                2 * co + size p * (size p - 1) = n * (n - 1) ∧
                ((∀ a b : T, op_lt a b = true → op_lt b a = false) →
                 sw + inversions (p ++ suf) = inversions (x0 :: l0)) ∧
                pass = n - size p + 1 ∧ 1 <= size p <= n)); [| |done|].
  - intros x l suf st ct pass
      (sw & co & -> & -> & Hsw & Hco & Hinv & -> & Hp) _.
    pose proof (bubble_swaps_range x l) as Hk.
    unfold size in *. cbn [length app] in *.
    exists (sw + bubble_swaps x l), (co + Z.of_nat (length l)).
    cbn [b_swaps_total b_comparisons_total b_pass b_v].
    rewrite !wrap_add_l. repeat split; try lia; [nia|].
    intros Hasym. specialize (Hinv Hasym).
    pose proof (bubble_pass_inversions l x [] suf Hasym) as Hpi.
    cbn [app] in Hpi. lia.
  - intros x l suf st ct pass init m
      (sw & co & -> & -> & Hsw & Hco & Hinv & -> & Hp) Hnz Hinit.
    pose proof (bubble_swaps_range x l) as Hk.
    assert (Hlen : length init = length l).
    { apply (f_equal length) in Hinit.
      rewrite bubble_pass_length, length_app in Hinit. cbn in Hinit. lia. }
    assert (Hl : l ≠ []) by (intros ->; cbn in Hnz; done).
    assert (1 <= Z.of_nat (length l)) by (destruct l; [done|cbn; lia]).
    unfold size in *. cbn [length app] in *.
    exists (sw + bubble_swaps x l), (co + Z.of_nat (length l)).
    rewrite !wrap_add_l, Hlen.
    split; [done|]. split; [done|]. split; [lia|]. split; [nia|].
    split; [|split; [|lia]].
    + intros Hasym. specialize (Hinv Hasym).
      pose proof (bubble_pass_inversions l x [] suf Hasym) as Hpi.
      rewrite Hinit, <- app_assoc in Hpi. cbn [app] in Hpi. lia.
    + rewrite wrap_small by (unfold INT_MAX in *; lia). lia.
  - exists 0, 0. rewrite app_nil_r. fold n. unfold n, size. cbn [length].
    repeat split; lia.
Qed.

Lemma half_fits n :
  0 <= n → n * (n - 1) / 2 <= INT_MAX →
  n <= INT_MAX ∧ 0 <= n * (n - 1) <= 2 * INT_MAX + 1.
Proof.
  intros Hn Hfit. unfold INT_MAX in *.
  pose proof (Z.mul_succ_div_gt (n * (n - 1)) 2 eq_refl) as Hdiv.
  split; [nia|]. split; [nia|lia].
Qed.

Lemma bubble_sorted_pass x l :
  Sorted (not_after op_lt) (x :: l) →
  bubble_pass x l = x :: l ∧ bubble_swaps x l = 0.
Proof.
  revert x. induction l as [|y l IH]; intros x Hs; [done|].
  apply Sorted_inv in Hs as [Hs Hx]. apply HdRel_inv in Hx.
  cbn [bubble_pass bubble_swaps]. unfold not_after in Hx. rewrite Hx.
  destruct (IH y Hs) as [-> ->]. done.
Qed.
End BubbleCounters.

(** [bubble_sort], whatever the comparison answers, makes no more swaps
    than comparisons, no more comparisons than there are pairs of elements,
    and no more passes than there are elements. *)
Theorem bubble_sort_cost {T : Type} `{Less T} (fuel : nat) (v : list T) :
  (length v < fuel)%nat → size v * (size v - 1) / 2 <= INT_MAX →
  ∃ s, bubble_sort fuel v = Ok s ∧
       0 <= b_swaps_total s <= b_comparisons_total s ∧
       b_comparisons_total s <= size v * (size v - 1) / 2 ∧
       1 <= b_pass s <= Z.max 1 (size v).
Proof.
  intros Hfuel Hfit.
  destruct (half_fits (size v)) as [Hsize Hpairs]; [unfold size; lia|done|].
  destruct (bubble_sort_counts fuel v Hfuel Hsize)
    as (s & sw & co & E & Hsw & Hco & Hle & Hpair & _ & Hpass).
  exists s. split; [done|].
  assert (co <= size v * (size v - 1) / 2)
    by (apply Z.div_le_lower_bound; lia).
  rewrite Hsw, Hco, !wrap_small by (unfold INT_MAX in *; lia). lia.
Qed.

Lemma bubble_sort_cost_witness :
  (length [3; 1; 2] < 4)%nat ∧
  size [3; 1; 2] * (size [3; 1; 2] - 1) / 2 <= INT_MAX ∧
  ∃ s, bubble_sort 4 [3; 1; 2] = Ok s ∧
       0 <= b_swaps_total s <= b_comparisons_total s ∧
       b_comparisons_total s <= size [3; 1; 2] * (size [3; 1; 2] - 1) / 2 ∧
       1 <= b_pass s <= Z.max 1 (size [3; 1; 2]).
Proof.
  assert (H1 : (length [3; 1; 2] < 4)%nat) by (cbn; lia).
  assert (H2 : size [3; 1; 2] * (size [3; 1; 2] - 1) / 2 <= INT_MAX)
    by (vm_compute; discriminate).
  split; [exact H1|]. split; [exact H2|].
  exact (bubble_sort_cost 4 [3; 1; 2] H1 H2).
Defined.

(** On a vector of [INT_MAX] elements at most that is already in order,
    [bubble_sort] makes one pass: it compares each element with the next,
    swaps nothing and returns the vector as it was. *)
Theorem bubble_sort_sorted_input {T : Type} `{Less T} (fuel : nat) (v : list T) :
  nondecreasing op_lt v →
  (length v < fuel)%nat → size v <= INT_MAX →
  ∃ s, bubble_sort fuel v = Ok s ∧ b_v s = v ∧ b_pass s = 1 ∧
       b_swaps_total s = 0 ∧
       b_comparisons_total s = Z.of_nat (length v - 1).
Proof.
  intros Hs Hfuel Hsize. destruct v as [|x l].
  { destruct fuel; [cbn in Hfuel; lia|]. rewrite bubble_sort_nil. eauto 10. }
  destruct fuel as [|fuel]; [lia|].
  destruct (bubble_sorted_pass x l) as [Hpass Hk];
    [by apply StronglySorted_Sorted|].
  unfold bubble_sort. rewrite bubble_init_at.
  erewrite while_loop_break;
    [|done|rewrite bubble_outer_body_cons, Hk by (cbn in Hfuel; lia);
           reflexivity].
  eexists. split; [done|]. cbn [b_v b_pass b_swaps_total b_comparisons_total].
  rewrite Hpass, app_nil_r. split; [done|]. split; [done|]. split; [done|].
  rewrite wrap_small by (unfold size, INT_MAX in *; cbn [length] in *; lia).
  cbn [length]. lia.
Qed.

Lemma bubble_sort_sorted_input_witness :
  nondecreasing (op_lt (T := Z)) [1; 2; 2; 5] ∧
  (length [1; 2; 2; 5] < 5)%nat ∧ size [1; 2; 2; 5] <= INT_MAX ∧
  ∃ s, bubble_sort 5 [1; 2; 2; 5] = Ok s ∧ b_v s = [1; 2; 2; 5] ∧
       b_pass s = 1 ∧ b_swaps_total s = 0 ∧ b_comparisons_total s = 3.
Proof.
  assert (H0 : nondecreasing (op_lt (T := Z)) [1; 2; 2; 5])
    by (repeat constructor).
  assert (H1 : (length [1; 2; 2; 5] < 5)%nat) by (cbn; lia).
  assert (H2 : size [1; 2; 2; 5] <= INT_MAX) by (vm_compute; discriminate).
  split; [exact H0|]. split; [exact H1|]. split; [exact H2|].
  exact (bubble_sort_sorted_input 5 [1; 2; 2; 5] H0 H1 H2).
Defined.

(** ** The counters of [shuttle_sort] *)

Section ShuttleCounters.
Context {T : Type} `{Less T}.
Implicit Types (v l pre rest suf r : list T) (x y : T).

(** The routine adds up what the passes of [shuttle_count] count. *)
Lemma shuttle_sort_totals fuel x0 l0 :
  (length (x0 :: l0) < fuel)%nat → size (x0 :: l0) <= INT_MAX →
  ∃ s, shuttle_sort fuel (x0 :: l0) = Ok s ∧
       s_v s = shuttle_list (x0 :: l0) ∧
       s_swaps_total s = wrap (shuttle_count shuttle_swaps [x0] l0) ∧
       s_comparisons_total s
       = wrap (shuttle_count shuttle_comparisons [x0] l0).
Proof.
  intros Hfuel Hsize. unfold shuttle_sort.
  set (n := size (x0 :: l0)) in *.
  set (S0 := shuttle_count shuttle_swaps [x0] l0).
  set (C0 := shuttle_count shuttle_comparisons [x0] l0).
  assert (Hn : wrap n = n) by (apply wrap_small; unfold n, size, INT_MAX in *; lia).
  apply (while_loop_rule shuttle_outer_cond (shuttle_outer_body fuel)
           (λ s, ∃ pre rest e1 e2 sw co,
               s = ShuttleState (pre ++ rest) e1 e2 0 0 (wrap sw) (wrap co)
                     (Z.of_nat (length pre)) n (Z.of_nat (length pre) - 1) ∧
               pre ≠ [] ∧ size (pre ++ rest) = n ∧
               foldl shuttle_insert pre rest = shuttle_list (x0 :: l0) ∧
               sw + shuttle_count shuttle_swaps pre rest = S0 ∧
               co + shuttle_count shuttle_comparisons pre rest = C0)
           _ (λ s, Z.to_nat (s_n s - s_pass s))).
  - intros s (pre & rest & e1 & e2 & sw & co & -> & Hne & Hsz & Hfold & Hsw & Hco)
      Hc.
    unfold shuttle_outer_cond in Hc. cbn [s_pass s_n s_v] in *.
    apply Z.leb_gt in Hc.
    rewrite wrap_small in Hc by (unfold n, size, INT_MAX in *; lia).
    unfold size in Hsz. rewrite length_app in Hsz.
    destruct rest; [|cbn in Hsz; lia].
    rewrite app_nil_r in *. cbn in Hfold, Hsw, Hco.
    cbn [s_swaps_total s_comparisons_total].
    split; [done|]. split; f_equal; lia.
  - intros s (pre & rest & e1 & e2 & sw & co & -> & Hne & Hsz & Hfold & Hsw & Hco)
      Hc.
    unfold shuttle_outer_cond in Hc. cbn [s_pass s_n s_v] in *.
    apply Z.leb_le in Hc.
    rewrite wrap_small in Hc by (unfold n, size, INT_MAX in *; lia).
    unfold size in Hsz. rewrite length_app in Hsz.
    destruct rest as [|x suf]; [cbn in Hsz; lia|]. cbn [length] in Hsz.
    unfold shuttle_outer_body.
    destruct (shuttle_pass_eq fuel pre x suf e1 e2 (wrap sw) (wrap co)
                (Z.of_nat (length pre)) n Hne) as (e1' & e2' & ->).
    { unfold n, size in *. cbn [length] in *. lia. }
    cbn. eexists. split; [done|].
    rewrite (wrap_small (Z.of_nat (length pre) + 1)),
      (wrap_small (Z.of_nat (length pre) - 1 + 1))
      by (unfold n, size, INT_MAX in *; cbn [length] in *; lia).
    rewrite !wrap_add_l.
    split.
    + exists (shuttle_insert pre x), suf, e1', e2',
        (sw + shuttle_swaps x (reverse pre)),
        (co + shuttle_comparisons x (reverse pre)).
      rewrite shuttle_insert_length.
      split; [do 2 f_equal; lia|].
      split; [intros E; apply (f_equal length) in E;
              rewrite shuttle_insert_length in E; done|].
      split; [unfold size; rewrite length_app, shuttle_insert_length; lia|].
      split; [done|]. cbn [shuttle_count] in Hsw, Hco. lia.
    + cbn [s_n s_pass]. lia.
  - exists [x0], l0, 0, 1, 0, 0. unfold shuttle_init, begin.
    fold n. rewrite Hn. repeat split; done.
  - unfold shuttle_init. cbn [s_n s_pass]. fold n. rewrite Hn.
    unfold n, size. cbn [length] in *. lia.
Qed.

Lemma shuttle_pass_range x r :
  0 <= shuttle_swaps x r <= shuttle_comparisons x r ∧
  shuttle_comparisons x r <= Z.of_nat (length r) ∧
  (r ≠ [] → 1 <= shuttle_comparisons x r).
Proof.
  induction r as [|y r IH]; cbn [shuttle_swaps shuttle_comparisons length].
  { split; [lia|]. split; [lia|done]. }
  destruct IH as ([? ?] & ? & _).
  destruct (op_lt x y); (split; [lia|]; split; [lia|]; intros _; lia).
Qed.

Lemma shuttle_count_range rest : ∀ pre,
  pre ≠ [] →
  0 <= shuttle_count shuttle_swaps pre rest
    <= shuttle_count shuttle_comparisons pre rest ∧
  Z.of_nat (length rest) <= shuttle_count shuttle_comparisons pre rest ∧
  2 * shuttle_count shuttle_comparisons pre rest
  <= size (pre ++ rest) * (size (pre ++ rest) - 1) - size pre * (size pre - 1).
Proof.
  induction rest as [|x rest IH]; intros pre Hne.
  - cbn [shuttle_count length]. rewrite app_nil_r. lia.
  - cbn [shuttle_count].
    destruct (IH (shuttle_insert pre x)) as ([? ?] & ? & Hc).
    { intros E. apply (f_equal length) in E.
      rewrite shuttle_insert_length in E. done. }
    destruct (shuttle_pass_range x (reverse pre)) as ([? ?] & ? & Hone).
    assert (reverse pre ≠ []) as Hrev.
    { intros E. apply (f_equal length) in E.
      rewrite length_reverse in E. destruct pre; done. }
    specialize (Hone Hrev).
    unfold size in *.
    rewrite !length_app, ?shuttle_insert_length, ?length_reverse in *.
    cbn [length] in *. split; [lia|]. split; [lia|]. nia.
Qed.

Lemma shuttle_count_inversions rest : ∀ pre,
  (∀ a b : T, op_lt a b = true → op_lt b a = false) →
  shuttle_count shuttle_swaps pre rest
  + inversions (foldl shuttle_insert pre rest)
  = inversions (pre ++ rest).
Proof.
  induction rest as [|x rest IH]; intros pre Hasym; cbn [shuttle_count foldl].
  - rewrite app_nil_r. lia.
  - specialize (IH (shuttle_insert pre x) Hasym).
    pose proof (shuttle_insert_inversions pre x rest Hasym). lia.
Qed.

(** On elements in order every pass stops at its first comparison. *)
Lemma shuttle_count_sorted rest : ∀ pre,
  pre ≠ [] → Sorted (not_after op_lt) (pre ++ rest) →
  foldl shuttle_insert pre rest = pre ++ rest ∧
  shuttle_count shuttle_swaps pre rest = 0 ∧
  shuttle_count shuttle_comparisons pre rest = Z.of_nat (length rest).
Proof.
  induction rest as [|x rest IH]; intros pre Hne Hs;
    cbn [shuttle_count foldl length].
  - by rewrite app_nil_r.
  - destruct pre as [|y pre _] using rev_ind; [done|].
    assert (Hxy : op_lt x y = false).
    { rewrite <- app_assoc in Hs. cbn [app] in Hs.
      clear -Hs. induction pre as [|z pre IH]; cbn [app] in Hs.
      - apply Sorted_inv in Hs as [_ Hx]. by apply HdRel_inv in Hx.
      - apply Sorted_inv in Hs as [Hs _]. auto. }
    rewrite shuttle_insert_snoc, reverse_snoc.
    cbn [shuttle_swaps shuttle_comparisons]. rewrite Hxy.
    destruct (IH (pre ++ [y; x])) as (-> & -> & ->).
    { by destruct pre. }
    { rewrite <- !app_assoc in *. done. }
    rewrite <- !app_assoc. cbn [app]. split; [done|]. lia.
Qed.
End ShuttleCounters.

(** [shuttle_sort], whatever the comparison answers, makes no more swaps
    than comparisons and no more comparisons than there are pairs of
    elements; every pass makes one comparison at least. *)
Theorem shuttle_sort_cost {T : Type} `{Less T} (fuel : nat) (v : list T) :
  (length v < fuel)%nat → size v * (size v - 1) / 2 <= INT_MAX →
  ∃ s, shuttle_sort fuel v = Ok s ∧
       0 <= s_swaps_total s <= s_comparisons_total s ∧
       size v - 1 <= s_comparisons_total s ∧
       s_comparisons_total s <= size v * (size v - 1) / 2.
Proof.
  intros Hfuel Hfit. destruct v as [|x0 l0].
  { unfold shuttle_sort. rewrite while_loop_done by done.
    eexists. split; [done|]. vm_compute. repeat split; congruence. }
  destruct (half_fits (size (x0 :: l0))) as [Hsize Hpairs];
    [unfold size; lia|done|].
  destruct (shuttle_sort_totals fuel x0 l0 Hfuel Hsize)
    as (s & E & _ & Hsw & Hco).
  destruct (shuttle_count_range l0 [x0]) as ([? ?] & ? & Hc); [done|].
  exists s. split; [done|].
  change ([x0] ++ l0) with (x0 :: l0) in Hc.
  change (size [x0]) with 1 in Hc.
  assert (shuttle_count shuttle_comparisons [x0] l0
          <= size (x0 :: l0) * (size (x0 :: l0) - 1) / 2)
    by (apply Z.div_le_lower_bound; lia).
  rewrite Hsw, Hco, !wrap_small by (unfold INT_MAX in *; lia).
  unfold size in *. cbn [length] in *. lia.
Qed.

Lemma shuttle_sort_cost_witness :
  (length [3; 1; 2] < 4)%nat ∧
  size [3; 1; 2] * (size [3; 1; 2] - 1) / 2 <= INT_MAX ∧
  ∃ s, shuttle_sort 4 [3; 1; 2] = Ok s ∧
       0 <= s_swaps_total s <= s_comparisons_total s ∧
       size [3; 1; 2] - 1 <= s_comparisons_total s ∧
       s_comparisons_total s <= size [3; 1; 2] * (size [3; 1; 2] - 1) / 2.
Proof.
  assert (H1 : (length [3; 1; 2] < 4)%nat) by (cbn; lia).
  assert (H2 : size [3; 1; 2] * (size [3; 1; 2] - 1) / 2 <= INT_MAX)
    by (vm_compute; discriminate).
  split; [exact H1|]. split; [exact H2|].
  exact (shuttle_sort_cost 4 [3; 1; 2] H1 H2).
Defined.

(** On a vector of [INT_MAX] elements at most that is already in order,
    every pass of [shuttle_sort] stops at its first comparison: one
    comparison for each element but the first, no swap, and the vector
    returned as it was. *)
Theorem shuttle_sort_sorted_input
    {T : Type} `{Less T} (fuel : nat) (v : list T) :
  nondecreasing op_lt v →
  (length v < fuel)%nat → size v <= INT_MAX →
  ∃ s, shuttle_sort fuel v = Ok s ∧ s_v s = v ∧
       s_swaps_total s = 0 ∧
       s_comparisons_total s = Z.of_nat (length v - 1).
Proof.
  intros Hs Hfuel Hsize. destruct v as [|x0 l0].
  { unfold shuttle_sort. rewrite while_loop_done by done. eauto. }
  destruct (shuttle_sort_totals fuel x0 l0 Hfuel Hsize)
    as (s & E & Hv & Hsw & Hco).
  destruct (shuttle_count_sorted l0 [x0]) as (Hfold & Hswaps & Hcomps);
    [done|by apply StronglySorted_Sorted|].
  exists s. split; [done|].
  rewrite Hv, Hsw, Hco, Hswaps, Hcomps. cbn [shuttle_list].
  rewrite Hfold. split; [done|]. split; [done|].
  rewrite wrap_small by (unfold size, INT_MAX in *; cbn [length] in *; lia).
  cbn [length]. lia.
Qed.

Lemma shuttle_sort_sorted_input_witness :
  nondecreasing (op_lt (T := Z)) [1; 2; 2; 5] ∧
  (length [1; 2; 2; 5] < 5)%nat ∧ size [1; 2; 2; 5] <= INT_MAX ∧
  ∃ s, shuttle_sort 5 [1; 2; 2; 5] = Ok s ∧ s_v s = [1; 2; 2; 5] ∧
       s_swaps_total s = 0 ∧ s_comparisons_total s = 3.
Proof.
  assert (H0 : nondecreasing (op_lt (T := Z)) [1; 2; 2; 5])
    by (repeat constructor).
  assert (H1 : (length [1; 2; 2; 5] < 5)%nat) by (cbn; lia).
  assert (H2 : size [1; 2; 2; 5] <= INT_MAX) by (vm_compute; discriminate).
  split; [exact H0|]. split; [exact H1|]. split; [exact H2|].
  exact (shuttle_sort_sorted_input 5 [1; 2; 2; 5] H0 H1 H2).
Defined.

(** [bubble_sort] and [shuttle_sort] swap neighbours only, and only when
    they are out of order, so each makes as many swaps as the vector had
    pairs out of order. *)
Theorem swaps_are_inversions {T : Type} `{Less T} (fuel : nat) (v : list T) :
  strict_weak_order (op_lt (T := T)) →
  (length v < fuel)%nat → size v * (size v - 1) / 2 <= INT_MAX →
  (∃ s, bubble_sort fuel v = Ok s ∧ b_swaps_total s = inversions v) ∧
  (∃ s, shuttle_sort fuel v = Ok s ∧ s_swaps_total s = inversions v).
Proof.
  intros Hswo Hfuel Hfit.
  destruct (half_fits (size v)) as [Hsize Hpairs]; [unfold size; lia|done|].
  pose proof (inversions_range v) as Hinv. fold (size v) in Hinv.
  pose proof (swo_asym _ Hswo) as Hasym.
  split.
  - destruct (bubble_sort_counts fuel v Hfuel Hsize)
      as (s & sw & co & E & Hsw & _ & _ & _ & Hi & _).
    destruct (bubble_sort_sorts fuel v Hswo Hfuel Hsize) as (s' & E' & _ & Hs).
    rewrite E in E'. injection E' as <-.
    exists s. split; [done|].
    specialize (Hi Hasym). rewrite (inversions_nondecreasing _ Hs) in Hi.
    rewrite Hsw, wrap_small by (unfold INT_MAX in *; lia). lia.
  - destruct v as [|x0 l0].
    { unfold shuttle_sort. rewrite while_loop_done by done. eauto. }
    destruct (shuttle_sort_totals fuel x0 l0 Hfuel Hsize)
      as (s & E & _ & Hsw & _).
    exists s. split; [done|].
    pose proof (shuttle_count_inversions l0 [x0] Hasym) as Hi.
    change (foldl shuttle_insert [x0] l0) with (shuttle_list (x0 :: l0)) in Hi.
    rewrite (inversions_nondecreasing _ (shuttle_list_sorted (x0 :: l0) Hswo))
      in Hi.
    change ([x0] ++ l0) with (x0 :: l0) in Hi.
    rewrite Hsw, wrap_small by (unfold INT_MAX in *; lia). lia.
Qed.

Lemma swaps_are_inversions_witness :
  strict_weak_order (op_lt (T := Z)) ∧
  (length [3; 1; 2] < 4)%nat ∧
  size [3; 1; 2] * (size [3; 1; 2] - 1) / 2 <= INT_MAX ∧
  inversions [3; 1; 2] = 2 ∧
  (∃ s, bubble_sort 4 [3; 1; 2] = Ok s ∧ b_swaps_total s = inversions [3; 1; 2]) ∧
  (∃ s, shuttle_sort 4 [3; 1; 2] = Ok s ∧ s_swaps_total s = inversions [3; 1; 2]).
Proof.
  assert (H1 : (length [3; 1; 2] < 4)%nat) by (cbn; lia).
  assert (H2 : size [3; 1; 2] * (size [3; 1; 2] - 1) / 2 <= INT_MAX)
    by (vm_compute; discriminate).
  split; [exact Z_less_swo|]. split; [exact H1|]. split; [exact H2|].
  split; [reflexivity|].
  exact (swaps_are_inversions 4 [3; 1; 2] Z_less_swo H1 H2).
Defined.

(** ** The routines against each other *)

Section StableUnique.
Context {T : Type} `{Less T}.
Implicit Types (v l : list T) (x y z : T).
Hypothesis Hswo : strict_weak_order (op_lt (T := T)).

Lemma same_rank_refl x : same_rank x x = true.
Proof. unfold same_rank. by rewrite (swo_irrefl _ Hswo). Qed.

Lemma same_rank_class x : equal_class op_lt (same_rank x).
Proof.
  intros a b [Ha1 Ha2]%andb_true_iff [Hb1 Hb2]%andb_true_iff.
  apply negb_true_iff in Ha1, Ha2, Hb1, Hb2.
  eapply (swo_negtrans _ Hswo); eauto.
Qed.

Lemma filter_rank_head x l1 y l2 :
  List.filter (same_rank x) (x :: l1) = List.filter (same_rank x) (y :: l2) →
  Forall (not_after op_lt y) l2 →
  op_lt x y = false.
Proof.
  cbn [List.filter]. rewrite same_rank_refl. intros E Hy.
  destruct (same_rank x y) eqn:Hxy.
  - injection E as -> _. by apply swo_irrefl.
  - assert (Hin : List.In x (List.filter (same_rank x) l2))
      by (rewrite <- E; by left).
    apply List.filter_In in Hin as [Hin _].
    rewrite Forall_forall in Hy. apply Hy. by apply list_elem_of_In.
Qed.

(** In order, with the elements of each rank in one given order: that
    leaves one vector only. *)
Lemma stable_sorted_unique l1 : ∀ l2,
  nondecreasing op_lt l1 → nondecreasing op_lt l2 →
  (∀ x, List.filter (same_rank x) l1 = List.filter (same_rank x) l2) →
  l1 = l2.
Proof.
  induction l1 as [|x l1 IH]; intros l2 Hs1 Hs2 Hf.
  - destruct l2 as [|y l2]; [done|].
    specialize (Hf y). cbn [List.filter] in Hf.
    rewrite same_rank_refl in Hf. done.
  - destruct l2 as [|y l2].
    { specialize (Hf x). cbn [List.filter] in Hf.
      rewrite same_rank_refl in Hf. done. }
    apply StronglySorted_inv in Hs1 as [Hs1 Hx].
    apply StronglySorted_inv in Hs2 as [Hs2 Hy].
    assert (Hxy : op_lt x y = false)
      by (eapply filter_rank_head; [apply Hf|done]).
    assert (Hyx : op_lt y x = false)
      by (eapply filter_rank_head; [symmetry; apply Hf|done]).
    assert (x = y) as <-.
    { pose proof (Hf x) as E. cbn [List.filter] in E.
      rewrite same_rank_refl in E. unfold same_rank at 2 in E.
      rewrite Hxy, Hyx in E. cbn in E. by injection E. }
    f_equal. apply IH; [done|done|].
    intros z. specialize (Hf z). cbn [List.filter] in Hf.
    destruct (same_rank z x); [by injection Hf|done].
Qed.
End StableUnique.

(** Under a strict weak order [bubble_sort] returns the vector that the
    insertions of [shuttle_list] build. *)
Lemma bubble_sort_shuttle_list {T : Type} `{Less T} (fuel : nat) (v : list T) :
  strict_weak_order (op_lt (T := T)) →
  (length v < fuel)%nat → size v <= INT_MAX →
  ∃ s, bubble_sort fuel v = Ok s ∧ b_v s = shuttle_list v.
Proof.
  intros Hswo Hfuel Hsize.
  destruct (bubble_sort_sorts fuel v Hswo Hfuel Hsize) as (s1 & E1 & _ & Hs1).
  exists s1. split; [done|].
  apply (stable_sorted_unique Hswo); [done|by apply shuttle_list_sorted|].
  intros x.
  destruct (bubble_sort_stable fuel v (same_rank x)) as (s1' & E1' & Hf);
    [by apply same_rank_class|done|].
  rewrite E1 in E1'. injection E1' as <-.
  rewrite Hf, shuttle_list_filter by (by apply same_rank_class). done.
Qed.

(** On a vector of [INT_MAX] elements at most, [bubble_sort] and
    [shuttle_sort] return the same vector: both put the elements in order
    and both keep equal elements as they came. *)
Theorem bubble_shuttle_same_result
    {T : Type} `{Less T} (fuel : nat) (v : list T) :
  strict_weak_order (op_lt (T := T)) →
  (length v < fuel)%nat → size v <= INT_MAX →
  ∃ s1 s2, bubble_sort fuel v = Ok s1 ∧ shuttle_sort fuel v = Ok s2 ∧
           b_v s1 = s_v s2.
Proof.
  intros Hswo Hfuel Hsize.
  destruct (bubble_sort_shuttle_list fuel v Hswo Hfuel Hsize) as (s1 & E1 & Hv1).
  destruct (shuttle_sort_refines fuel v Hfuel Hsize) as (s2 & E2 & Hv2 & _).
  exists s1, s2. split; [done|]. split; [done|]. congruence.
Qed.

Lemma bubble_shuttle_same_result_witness :
  let v : list (Z * Z) := [(2, 0); (1, 0); (2, 1); (1, 1)] in
  strict_weak_order (op_lt (T := Z * Z)) ∧
  (length v < 5)%nat ∧ size v <= INT_MAX ∧
  ∃ s1 s2, bubble_sort 5 v = Ok s1 ∧ shuttle_sort 5 v = Ok s2 ∧
           b_v s1 = s_v s2.
Proof.
  intros v.
  assert (H0 : strict_weak_order (op_lt (T := Z * Z))).
  { split; unfold op_lt, tagged_less; intros a b.
    - intros Hab%Z.ltb_lt. apply Z.ltb_ge. lia.
    - intros c Hab%Z.ltb_ge Hbc%Z.ltb_ge. apply Z.ltb_ge. lia. }
  assert (H1 : (length v < 5)%nat) by (cbn; lia).
  assert (H2 : size v <= INT_MAX) by (vm_compute; discriminate).
  split; [exact H0|]. split; [exact H1|]. split; [exact H2|].
  exact (bubble_shuttle_same_result 5 v H0 H1 H2).
Defined.

(** When no two different elements are equal under the order, the three
    routines return the same vector, on a vector of [INT_MAX] elements at
    most. *)
Theorem sorts_same_result
    {T : Type} `{Less T, Greater T} (fuel : nat) (v : list T) :
  strict_weak_order (op_lt (T := T)) →
  (∀ a b : T, op_gt a b = op_lt b a) →
  (∀ a b : T, op_lt a b = false → op_lt b a = false → a = b) →
  (length v < fuel)%nat → size v <= INT_MAX →
  ∃ s1 s2 v3,
    bubble_sort fuel v = Ok s1 ∧ shuttle_sort fuel v = Ok s2 ∧
    quick_sort_full fuel v = Ok v3 ∧ b_v s1 = v3 ∧ s_v s2 = v3.
Proof.
  intros Hswo Hgt Htotal Hfuel Hsize.
  destruct (bubble_sort_sorts fuel v Hswo Hfuel Hsize) as (s1 & E1 & Hp1 & Hs1).
  destruct (shuttle_sort_refines fuel v Hfuel Hsize) as (s2 & E2 & Hv2 & _).
  pose proof (shuttle_list_perm v) as Hp2.
  pose proof (shuttle_list_sorted v Hswo) as Hs2.
  rewrite <- Hv2 in Hp2, Hs2.
  destruct (quick_sort_full_sorts fuel v Hfuel) as (v3 & E3 & Hp3 & Hs3).
  assert (Hs3' : nondecreasing op_lt v3)
    by (apply (ascending_nondecreasing Hgt), Hs3, (greater_swo Hgt Hswo)).
  assert (AntiSymm (=) (not_after (op_lt (T := T)))) as Hanti.
  { intros a b Hab Hba. unfold not_after in *. by apply Htotal. }
  exists s1, s2, v3. do 3 (split; [done|]).
  split; apply (StronglySorted_unique (not_after op_lt)); try done.
  - by rewrite Hp1, Hp3.
  - by rewrite Hp2, Hp3.
Qed.

Lemma sorts_same_result_witness :
  strict_weak_order (op_lt (T := Z)) ∧
  (∀ a b : Z, op_gt a b = op_lt b a) ∧
  (∀ a b : Z, op_lt a b = false → op_lt b a = false → a = b) ∧
  (length [5; 3; 1; 4; 2] < 6)%nat ∧ size [5; 3; 1; 4; 2] <= INT_MAX ∧
  ∃ s1 s2 v3,
    bubble_sort 6 [5; 3; 1; 4; 2] = Ok s1 ∧
    shuttle_sort 6 [5; 3; 1; 4; 2] = Ok s2 ∧
    quick_sort_full 6 [5; 3; 1; 4; 2] = Ok v3 ∧ b_v s1 = v3 ∧ s_v s2 = v3.
Proof.
  assert (H0 : ∀ a b : Z, op_lt a b = false → op_lt b a = false → a = b).
  { intros a b Hab%Z.ltb_ge Hba%Z.ltb_ge. lia. }
  assert (H1 : (length [5; 3; 1; 4; 2] < 6)%nat) by (cbn; lia).
  assert (H2 : size [5; 3; 1; 4; 2] <= INT_MAX) by (vm_compute; discriminate).
  split; [exact Z_less_swo|]. split; [exact Z_greater_less|].
  split; [exact H0|]. split; [exact H1|]. split; [exact H2|].
  exact (sorts_same_result 6 [5; 3; 1; 4; 2]
           Z_less_swo Z_greater_less H0 H1 H2).
Defined.

(** ** [quick_sort] on a range *)

Section QuickMore.
Context {T : Type} `{Greater T}.
Implicit Types (v l pre suf left right u seg : list T) (x y a b p : T).

Local Ltac list_eq :=
  repeat first [rewrite <- app_assoc | progress cbn [app]]; reflexivity.
Local Ltac len_eq :=
  repeat first [rewrite length_app | progress cbn [length]]; lia.

(** When no element exceeds the pivot the scan moves nothing. *)
Lemma quick_scan_still u : ∀ left right pre suf p fuel,
  (length u ≤ fuel)%nat →
  Forall (λ a, op_gt a p = false) u →
  while_loop quick_cond quick_body fuel (quick_at pre left u p right suf)
  = Ok (quick_at pre (left ++ u) [] p right suf).
Proof.
  induction u as [|a u IH]; intros left right pre suf p fuel Hf Hu.
  - rewrite app_nil_r. apply while_loop_done.
    unfold quick_cond, quick_at. cbn [q_e1 q_pivot_it length].
    apply negb_false_iff, Z.eqb_eq. lia.
  - apply Forall_cons in Hu as [Ha Hu].
    destruct fuel as [|fuel]; [cbn in Hf; lia|].
    erewrite while_loop_next; cycle 1.
    { unfold quick_cond, quick_at. cbn [q_e1 q_pivot_it length].
      apply negb_true_iff, Z.eqb_neq. lia. }
    { unfold quick_at. cbn [app].
      replace (pre ++ left ++ a :: u ++ p :: right ++ suf)
        with ((pre ++ left) ++ a :: u ++ p :: right ++ suf) by list_eq.
      apply quick_body_le with (p := p); [len_eq| |done].
      apply (deref_at _ (pre ++ left ++ a :: u) p (right ++ suf));
        [list_eq|len_eq]. }
    specialize (IH (left ++ [a]) right pre suf p fuel).
    rewrite <- app_assoc in IH. cbn [app] in IH.
    rewrite <- IH; [|cbn in Hf; lia|done].
    f_equal. unfold quick_at. f_equal; [list_eq|len_eq..].
Qed.

Lemma quick_sort_still fuel : ∀ seg pre suf,
  (length seg < fuel)%nat → ascending seg →
  quick_sort fuel (pre ++ seg ++ suf) (Z.of_nat (length pre))
    (Z.of_nat (length pre) + Z.of_nat (length seg) - 1)
  = Ok (pre ++ seg ++ suf).
Proof.
  induction fuel as [|fuel IH]; intros seg pre suf Hf Hs; [lia|].
  rewrite quick_sort_unfold.
  destruct (Z.ltb_spec (Z.of_nat (length pre) + Z.of_nat (length seg) - 1
                        - Z.of_nat (length pre)) 1) as [Hsmall|Hbig]; [done|].
  destruct seg as [|p u _] using rev_ind; [cbn in Hbig; lia|].
  rewrite length_app in Hbig, Hf. cbn [length] in Hbig, Hf.
  apply StronglySorted_app in Hs as (Hup & Hu & _).
  assert (Hle : Forall (λ a, op_gt a p = false) u).
  { apply Forall_forall. intros a Ha. apply Hup; [done|]. by left. }
  replace (QuickState (pre ++ (u ++ [p]) ++ suf) (Z.of_nat (length pre))
             (Z.of_nat (length pre) + Z.of_nat (length (u ++ [p])) - 1 - 1)
             (Z.of_nat (length pre) + Z.of_nat (length (u ++ [p])) - 1))
    with (quick_at pre [] u p [] suf)
    by (unfold quick_at; f_equal; [list_eq|len_eq..]).
  rewrite quick_scan_still by (done || lia).
  cbn [mbind result_bind]. unfold quick_at.
  cbn [q_v q_e2 q_pivot_it length app].
  destruct fuel as [|fuel']; [lia|].
  rewrite (quick_sort_unfold fuel').
  destruct (Z.ltb_spec
              (Z.of_nat (length pre) + Z.of_nat (length (u ++ [p])) - 1
               - (Z.of_nat (length pre) + Z.of_nat (length u) + Z.of_nat 0 + 1))
              1) as [_|Hno]; [|rewrite length_app in Hno; cbn in Hno; lia].
  cbn [mbind result_bind].
  specialize (IH u pre (p :: suf)).
  replace (Z.of_nat (length pre) + Z.of_nat (length u) + Z.of_nat 0 - 1)
    with (Z.of_nat (length pre) + Z.of_nat (length u) - 1) by lia.
  rewrite IH by (done || lia). f_equal. list_eq.
Qed.
End QuickMore.

(** [quick_sort] returns a vector in which no element exceeds a later one
    as it received it; [operator>] need not be an order for that. *)
Theorem quick_sort_sorted_input
    {T : Type} `{Greater T} (fuel : nat) (v : list T) :
  ascending v → (length v < fuel)%nat → quick_sort_full fuel v = Ok v.
Proof.
  intros Hs Hf. pose proof (quick_sort_still fuel v [] [] Hf Hs) as E.
  unfold quick_sort_full, begin, end_, size.
  rewrite app_nil_r in E. cbn [app length] in E.
  replace (Z.of_nat (length v) - 1) with (Z.of_nat 0 + Z.of_nat (length v) - 1)
    by lia.
  done.
Qed.

Lemma quick_sort_sorted_input_witness :
  ascending [1; 2; 2; 5] ∧ (length [1; 2; 2; 5] < 5)%nat ∧
  quick_sort_full 5 [1; 2; 2; 5] = Ok [1; 2; 2; 5].
Proof.
  assert (H0 : ascending [1; 2; 2; 5]) by (repeat constructor).
  assert (H1 : (length [1; 2; 2; 5] < 5)%nat) by (cbn; lia).
  split; [exact H0|]. split; [exact H1|].
  exact (quick_sort_sorted_input 5 [1; 2; 2; 5] H0 H1).
Defined.

Section QuickFrame.
Context {T : Type} `{Greater T}.
Implicit Types (v l pre suf seg : list T).

Lemma slice_middle pre seg suf start end' :
  start = Z.of_nat (length pre) →
  end' = start + Z.of_nat (length seg) - 1 →
  slice (pre ++ seg ++ suf) start end' = seg.
Proof.
  intros -> ->. unfold slice.
  rewrite drop_app_length' by lia. apply take_app_length'. lia.
Qed.

Lemma slice_short v start end' :
  end' - start < 1 → (length (slice v start end') ≤ 1)%nat.
Proof. intros Hs. unfold slice. rewrite length_take. lia. Qed.
End QuickFrame.

(** [quick_sort] on the range from [start] to [end'] works inside the range
    only: the vector keeps its length, every element outside the range
    stays where it was, and the range holds the elements it held, in
    ascending order when [operator>] is a strict order. *)
Theorem quick_sort_range_only
    {T : Type} `{Greater T} (fuel : nat) (v : list T) (start end' : Z) :
  0 <= start → end' < size v →
  (Z.to_nat (end' - start + 1) < fuel)%nat →
  ∃ v', quick_sort fuel v start end' = Ok v' ∧
        length v' = length v ∧
        (∀ i : nat, Z.of_nat i < start ∨ end' < Z.of_nat i → v' !! i = v !! i) ∧
        slice v' start end' ≡ₚ slice v start end' ∧
        (strict_weak_order (op_gt (T := T)) → ascending (slice v' start end')).
Proof.
  intros H0 H1 Hf. destruct (Z.ltb_spec (end' - start) 1) as [Hsmall|Hbig].
  { destruct fuel as [|fuel]; [lia|]. rewrite quick_sort_unfold.
    destruct (Z.ltb_spec (end' - start) 1); [|lia].
    exists v. do 4 (split; [done|]). intros _.
    pose proof (slice_short v start end' Hsmall) as Hlen.
    destruct (slice v start end') as [|x [|y l]];
      [constructor|repeat constructor|cbn in Hlen; lia]. }
  destruct (range_split v start end') as (pre & u & p & suf & -> & Hpre & Hu);
    [lia..|].
  destruct (quick_sort_segment fuel (u ++ [p]) pre suf)
    as (seg' & E & Hperm & Hs); [rewrite length_app; cbn; lia|].
  assert (Hlen : length seg' = length (u ++ [p]))
    by (by apply Permutation_length).
  rewrite length_app in Hlen. cbn [length] in Hlen.
  exists (pre ++ seg' ++ suf).
  split; [|split; [|split; [|split]]].
  - rewrite <- E. f_equal; rewrite ?length_app; cbn [length]; lia.
  - rewrite !length_app. cbn [length]. lia.
  - intros i [Hi|Hi].
    + rewrite !lookup_app_l by lia. done.
    + rewrite !(lookup_app_r pre), !lookup_app_r
        by (rewrite ?length_app; cbn [length]; lia).
      rewrite length_app, Hlen. done.
  - rewrite !slice_middle by (rewrite ?length_app; cbn [length]; lia). done.
  - intros Hswo. rewrite slice_middle by lia. auto.
Qed.

Lemma quick_sort_range_only_witness :
  0 <= 1 ∧ 5 < size [7; 5; 3; 1; 4; 2; 0] ∧ (Z.to_nat (5 - 1 + 1) < 6)%nat ∧
  ∃ v', quick_sort 6 [7; 5; 3; 1; 4; 2; 0] 1 5 = Ok v' ∧
        length v' = length [7; 5; 3; 1; 4; 2; 0] ∧
        (∀ i : nat, Z.of_nat i < 1 ∨ 5 < Z.of_nat i →
                    v' !! i = [7; 5; 3; 1; 4; 2; 0] !! i) ∧
        slice v' 1 5 ≡ₚ slice [7; 5; 3; 1; 4; 2; 0] 1 5 ∧
        (strict_weak_order (op_gt (T := Z)) → ascending (slice v' 1 5)).
Proof.
  assert (H0 : 0 <= 1) by lia.
  assert (H1 : 5 < size [7; 5; 3; 1; 4; 2; 0]) by (vm_compute; reflexivity).
  assert (H2 : (Z.to_nat (5 - 1 + 1) < 6)%nat) by (vm_compute; lia).
  split; [exact H0|]. split; [exact H1|]. split; [exact H2|].
  exact (quick_sort_range_only 6 [7; 5; 3; 1; 4; 2; 0] 1 5 H0 H1 H2).
Defined.

(** [quick_sort] takes the last element of the range, not the place after
    it: called with [v.end()] it reads the pivot outside the vector. *)
Theorem quick_sort_end_inclusive
    {T : Type} `{Greater T} (fuel : nat) (v : list T) :
  v ≠ [] → quick_sort (S fuel) v (begin v) (end_ v) = OutOfBounds.
Proof.
  intros Hne. destruct v as [|x l]; [done|].
  rewrite quick_sort_unfold. unfold begin, end_, size.
  destruct (Z.ltb_spec (Z.of_nat (length (x :: l)) - 0) 1) as [Hs|_];
    [cbn [length] in Hs; lia|].
  cbn [while_loop]. unfold quick_cond at 1. cbn [q_e1 q_pivot_it].
  destruct (Z.eqb_spec 0 (Z.of_nat (length (x :: l)))) as [E|_];
    [cbn [length] in E; lia|].
  cbn [negb]. unfold quick_body. cbn [q_v q_e1 q_e2 q_pivot_it].
  change (deref (x :: l) 0) with (Ok x). cbn [mbind result_bind].
  assert (Hp : deref (x :: l) (Z.of_nat (length (x :: l))) = OutOfBounds).
  { unfold deref.
    destruct (Z.leb_spec 0 (Z.of_nat (length (x :: l)))); [|lia].
    rewrite Nat2Z.id. by rewrite (lookup_ge_None_2 (x :: l)). }
  rewrite Hp. done.
Qed.

Lemma quick_sort_end_inclusive_witness :
  [2; 1] ≠ ([] : list Z) ∧ quick_sort 3 [2; 1] (begin [2; 1]) (end_ [2; 1])
                           = OutOfBounds.
Proof.
  assert (H0 : [2; 1] ≠ ([] : list Z)) by discriminate.
  split; [exact H0|]. exact (quick_sort_end_inclusive 2 [2; 1] H0).
Defined.

(** * Further properties of the utilities and the driver *)

Lemma wrap_long_small z :
  -9223372036854775808 <= z <= 9223372036854775807 → wrap_long z = z.
Proof. unfold wrap_long. intros Hz. rewrite Z.mod_small by lia. lia. Qed.

(** [timevaldiff], on two readings of the clock of which the second is not
    before the first, with seconds from 0 to [9 * 10^15] and microseconds
    below [10^6], answers the time between them in milliseconds to within
    one millisecond, never negative: cut down when the microseconds of the
    second reading are not less than those of the first, and cut up
    otherwise. *)
Theorem timevaldiff_accuracy (s_sec s_usec f_sec f_usec : Z) :
  0 <= s_sec <= 9000000000000000 → 0 <= f_sec <= 9000000000000000 →
  0 <= s_usec < 1000000 → 0 <= f_usec < 1000000 →
  let elapsed := (f_sec - s_sec) * 1000000 + (f_usec - s_usec) in
  0 <= elapsed →
  let msec := timevaldiff (s_sec, s_usec) (f_sec, f_usec) in
  0 <= msec ∧
  (s_usec <= f_usec → msec * 1000 <= elapsed < msec * 1000 + 1000) ∧
  (f_usec < s_usec → msec * 1000 - 1000 < elapsed <= msec * 1000).
Proof.
  intros Hs Hf Hsu Hfu elapsed Hel msec. subst msec elapsed.
  unfold timevaldiff. cbn [fst snd].
  rewrite (wrap_long_small (f_sec - s_sec)) by lia.
  rewrite (wrap_long_small ((f_sec - s_sec) * 1000)) by lia.
  rewrite (wrap_long_small (f_usec - s_usec)) by lia.
  destruct (Z.le_gt_cases s_usec f_usec) as [Hle|Hgt].
  - rewrite Z.quot_div_nonneg by lia.
    pose proof (Z.mul_div_le (f_usec - s_usec) 1000 eq_refl).
    pose proof (Z.mul_succ_div_gt (f_usec - s_usec) 1000 eq_refl).
    rewrite wrap_long_small by lia. lia.
  - replace (f_usec - s_usec) with (- (s_usec - f_usec)) by lia.
    rewrite Z.quot_opp_l, Z.quot_div_nonneg by lia.
    pose proof (Z.mul_div_le (s_usec - f_usec) 1000 eq_refl).
    pose proof (Z.mul_succ_div_gt (s_usec - f_usec) 1000 eq_refl).
    rewrite wrap_long_small by lia. lia.
Qed.

Lemma timevaldiff_accuracy_witness :
  0 <= 10 <= 9000000000000000 ∧ 0 <= 11 <= 9000000000000000 ∧
  0 <= 999999 < 1000000 ∧ 0 <= 0 < 1000000 ∧
  0 <= (11 - 10) * 1000000 + (0 - 999999) ∧
  timevaldiff (10, 999999) (11, 0) = 1 ∧
  let msec := timevaldiff (10, 999999) (11, 0) in
  0 <= msec ∧
  (999999 <= 0 → msec * 1000 <= (11 - 10) * 1000000 + (0 - 999999)
                 < msec * 1000 + 1000) ∧
  (0 < 999999 → msec * 1000 - 1000 < (11 - 10) * 1000000 + (0 - 999999)
                <= msec * 1000).
Proof.
  assert (H1 : 0 <= 10 <= 9000000000000000) by lia.
  assert (H2 : 0 <= 11 <= 9000000000000000) by lia.
  assert (H3 : 0 <= 999999 < 1000000) by lia.
  assert (H4 : 0 <= 0 < 1000000) by lia.
  assert (H5 : 0 <= (11 - 10) * 1000000 + (0 - 999999)) by lia.
  split; [exact H1|]. split; [exact H2|]. split; [exact H3|].
  split; [exact H4|]. split; [exact H5|]. split; [reflexivity|].
  exact (timevaldiff_accuracy 10 999999 11 0 H1 H2 H3 H4 H5).
Defined.

Section WriteListFacts.
Context `{Text Z}.

Lemma write_list_loop (count : Z) (k : nat) : ∀ i text fuel,
  0 <= i → Z.of_nat k = count + 1 - i → count < INT_MAX → (k ≤ fuel)%nat →
  while_loop (write_list_cond count) write_list_body fuel (i, text)
  = Ok (count + 1,
        foldl (λ text x, text +:+ put x +:+ newline) text (seqZ i (count + 1 - i))).
Proof.
  induction k as [|k IH]; intros i text fuel Hi Hk Hc Hf.
  - rewrite while_loop_done by (unfold write_list_cond; cbn; lia).
    rewrite seqZ_nil by lia. cbn. f_equal. f_equal. lia.
  - destruct fuel as [|fuel]; [lia|].
    erewrite while_loop_next;
      [|unfold write_list_cond; cbn; lia|reflexivity].
    rewrite wrap_small by (unfold INT_MAX in *; lia).
    rewrite IH by lia.
    rewrite (seqZ_cons i) by lia. cbn [foldl].
    replace (Z.succ i) with (i + 1) by lia.
    replace (Z.pred (count + 1 - i)) with (count + 1 - (i + 1)) by lia.
    done.
Qed.

Lemma write_list_loop_forever (count : Z) fuel : ∀ s,
  INT_MAX <= count → fst s <= INT_MAX →
  while_loop (write_list_cond count) write_list_body fuel s = OutOfFuel.
Proof.
  induction fuel as [|fuel IH]; intros [i text] Hc Hi; cbn [fst] in Hi.
  - cbn. unfold write_list_cond. cbn [fst].
    destruct (Z.leb_spec i count); [done|lia].
  - erewrite while_loop_next;
      [|unfold write_list_cond; cbn; lia|reflexivity].
    apply IH; [done|]. cbn [fst]. apply wrap_range.
Qed.
End WriteListFacts.

(** [write_list] sends to its file what [dump_vector] sends for the vector
    0, 1, ..., [count]: the numbers go up, [count + 1] of them, none when
    [count] is negative; when the file cannot be opened the two report it
    alike. *)
Theorem write_list_ascending `{Text Z}
    (fuel : nat) (output_file : string) (count : Z) (w : world) :
  count < INT_MAX → (Z.to_nat (count + 1) < fuel)%nat →
  write_list fuel output_file count w
  = Ok (dump_vector (seqZ 0 (count + 1)) output_file w).
Proof.
  intros Hc Hf. unfold write_list, dump_vector.
  destruct (open_out output_file w); [|done].
  destruct (Z.le_gt_cases 0 (count + 1)) as [Hpos|Hneg].
  - rewrite (write_list_loop count (Z.to_nat (count + 1))) by lia.
    cbn. rewrite Z.sub_0_r. done.
  - rewrite while_loop_done by (unfold write_list_cond; cbn; lia).
    rewrite seqZ_nil by lia. done.
Qed.

Lemma write_list_ascending_witness :
  let text : Text Z := Build_Text Z (λ z, if z =? 0 then "0" else "n") (λ _, []) in
  let w := World ∅ ∅ [] [] in
  3 < INT_MAX ∧ (Z.to_nat (3 + 1) < 5)%nat ∧
  write_list 5 "list.dat" 3 w = Ok (dump_vector [0; 1; 2; 3] "list.dat" w).
Proof.
  intros text w.
  assert (H1 : 3 < INT_MAX) by reflexivity.
  assert (H2 : (Z.to_nat (3 + 1) < 5)%nat) by (vm_compute; lia).
  split; [exact H1|]. split; [exact H2|].
  exact (write_list_ascending 5 "list.dat" 3 w H1 H2).
Defined.

(** With [count] at the largest [int] the test [i <= count] of [write_list]
    cannot fail: no fuel makes the loop return. *)
Theorem write_list_largest_count `{Text Z}
    (fuel : nat) (output_file : string) (count : Z) (w : world) :
  INT_MAX <= count → open_out output_file w = true →
  write_list fuel output_file count w = OutOfFuel.
Proof.
  intros Hc Hopen. unfold write_list. rewrite Hopen.
  rewrite write_list_loop_forever; [done|done|]. cbn. unfold INT_MAX. lia.
Qed.

Lemma write_list_largest_count_witness :
  let text : Text Z := Build_Text Z (λ _, "n") (λ _, []) in
  let w := World ∅ ∅ [] [] in
  INT_MAX <= INT_MAX ∧ open_out "list.dat" w = true ∧
  write_list 100 "list.dat" INT_MAX w = OutOfFuel.
Proof.
  intros text w.
  assert (H1 : INT_MAX <= INT_MAX) by lia.
  assert (H2 : open_out "list.dat" w = true) by (vm_compute; reflexivity).
  split; [exact H1|]. split; [exact H2|].
  exact (write_list_largest_count 100 "list.dat" INT_MAX w H1 H2).
Defined.

(** ** What the driver does to the files *)

Lemma gettimeofday_keeps w t w1 :
  gettimeofday w = (t, w1) →
  w_files w1 = w_files w ∧ w_locked w1 = w_locked w ∧ w_stdout w1 = w_stdout w.
Proof.
  unfold gettimeofday. destruct (w_clock w); intros [= <- <-]; done.
Qed.

Lemma cout_files l w : w_files (cout l w) = w_files w.
Proof. done. Qed.

Lemma cout_locked l w : w_locked (cout l w) = w_locked w.
Proof. done. Qed.

Lemma dump_vector_files {T : Type} `{Text T} (v : list T) name w :
  w_files (dump_vector v name w) = dumped v name (w_locked w) (w_files w).
Proof.
  unfold dump_vector, dumped, open_out. destruct (bool_decide _); done.
Qed.

Lemma dump_vector_locked {T : Type} `{Text T} (v : list T) name w :
  w_locked (dump_vector v name w) = w_locked w.
Proof.
  unfold dump_vector, open_out. destruct (bool_decide _); done.
Qed.

Local Ltac clock_step :=
  match goal with
  | |- context [gettimeofday ?w0] =>
      let t := fresh "t" in
      let w1 := fresh "w" in
      let E := fresh "E" in
      destruct (gettimeofday w0) as [t w1] eqn:E;
      apply gettimeofday_keeps in E as (? & ? & ?)
  end.

Local Ltac world_step :=
  first
    [ rewrite cout_files | rewrite cout_locked
    | rewrite dump_vector_files | rewrite dump_vector_locked
    | match goal with
      | H : w_files ?x = _ |- _ => is_var x; rewrite H
      | H : w_locked ?x = _ |- _ => is_var x; rewrite H
      end ].

Section DriverFiles.
Context {float : Type} `{Less float, Greater float, Text float, Text Z}.

(** The files that [test_sorting_algorithms] leaves, given what the three
    routines return. *)
Lemma test_sorting_algorithms_files fuel input_file w text s1 s2 v3 :
  open_in input_file w = Some text →
  bubble_sort fuel (get_all text : list float) = Ok s1 →
  shuttle_sort fuel (get_all text : list float) = Ok s2 →
  quick_sort_full fuel (get_all text : list float) = Ok v3 →
  ∃ w', test_sorting_algorithms (float := float) fuel input_file w = Ok w' ∧
        w_locked w' = w_locked w ∧
        w_files w'
        = dumped v3 "out3.dat" (w_locked w)
            (dumped (s_v s2) "out2.dat" (w_locked w)
               (dumped (b_v s1) "out1.dat" (w_locked w) (w_files w))).
Proof.
  intros Hopen E1 E2 E3. unfold test_sorting_algorithms.
  rewrite Hopen, E1, E2, E3. cbn [mbind result_bind].
  repeat clock_step.
  eexists. split; [reflexivity|].
  repeat world_step.
  done.
Qed.
End DriverFiles.

Lemma dumped_other {T : Type} `{Text T} (v : list T) name locked files other :
  other ≠ name → dumped v name locked files !! other = files !! other.
Proof.
  intros Hne. unfold dumped. destruct (bool_decide _); [|done].
  by rewrite lookup_insert_ne.
Qed.

Lemma dumped_written {T : Type} `{Text T} (v : list T) name locked files :
  name ∉ locked → dumped v name locked files !! name = Some (dump_text v).
Proof.
  intros Hfree. unfold dumped. rewrite bool_decide_eq_true_2 by done.
  by rewrite lookup_insert_eq.
Qed.

Lemma foldl_cout_keeps {A : Type} (f : A → list out) (l : list A) : ∀ w,
  w_files (foldl (λ w x, cout (f x) w) w l) = w_files w ∧
  w_locked (foldl (λ w x, cout (f x) w) w l) = w_locked w.
Proof.
  induction l as [|x l IH]; intros w; [done|].
  cbn [foldl]. destruct (IH (cout (f x) w)) as [-> ->]. done.
Qed.

(** [test_class_sort] writes to the console only. *)
Lemma test_class_sort_keeps fuel w w' :
  test_class_sort fuel w = Ok w' →
  w_files w' = w_files w ∧ w_locked w' = w_locked w.
Proof.
  unfold test_class_sort. rewrite open_in_cout.
  destruct (open_in "cats.dat" w) as [text|]; [|by intros [= <-]].
  destruct (read_cats fuel text []) as [cats_v1| | |];
    cbn [mbind result_bind]; [|done..].
  destruct (bubble_sort fuel cats_v1) as [s| | |]; cbn [mbind result_bind];
    [|done..].
  intros [= <-]. rewrite cout_files, cout_locked.
  destruct (foldl_cout_keeps (λ cit, [Num (m_weight cit); Str " "]) (b_v s)
              (cout [Str "[ "] (cout [Endl;
                 Str "Sorting a user defined class using the bubble sort.";
                 Endl; Endl] w))) as [-> ->].
  done.
Qed.

Section DriverOutputs.
Context {float : Type} `{Less float, Greater float, Text float, Text Z}.

(** Whatever the input, [test_sorting_algorithms] leaves every file other
    than its three result files as it was. *)
Lemma test_sorting_algorithms_keeps fuel input_file w w' :
  test_sorting_algorithms (float := float) fuel input_file w = Ok w' →
  w_locked w' = w_locked w ∧
  ∀ name, name ≠ "out1.dat" → name ≠ "out2.dat" → name ≠ "out3.dat" →
          w_files w' !! name = w_files w !! name.
Proof.
  intros Hrun.
  destruct (open_in input_file w) as [text|] eqn:Hopen; cycle 1.
  { unfold test_sorting_algorithms in Hrun. rewrite Hopen in Hrun.
    injection Hrun as <-. done. }
  destruct (bubble_sort fuel (get_all text : list float)) as [s1| | |] eqn:E1;
    cycle 1.
  1-3: unfold test_sorting_algorithms in Hrun; rewrite Hopen, E1 in Hrun;
    destruct (gettimeofday _); done.
  destruct (shuttle_sort fuel (get_all text : list float)) as [s2| | |] eqn:E2;
    cycle 1.
  1-3: unfold test_sorting_algorithms in Hrun; rewrite Hopen, E1, E2 in Hrun;
    cbn [mbind result_bind] in Hrun; repeat destruct (gettimeofday _); done.
  destruct (quick_sort_full fuel (get_all text : list float))
    as [v3| | |] eqn:E3; cycle 1.
  1-3: unfold test_sorting_algorithms in Hrun;
    rewrite Hopen, E1, E2, E3 in Hrun;
    cbn [mbind result_bind] in Hrun; repeat destruct (gettimeofday _); done.
  destruct (test_sorting_algorithms_files fuel input_file w text s1 s2 v3
              Hopen E1 E2 E3) as (w1 & Hrun1 & Hlocked & Hfiles).
  rewrite Hrun in Hrun1. injection Hrun1 as <-.
  split; [done|]. intros name Hn1 Hn2 Hn3.
  rewrite Hfiles. by rewrite !dumped_other.
Qed.

(** When the input opens, holds [INT_MAX] elements at most, and the three
    result files can be written, [test_sorting_algorithms] returns;
    [out1.dat] and [out2.dat] then hold the same text, that of the elements
    in nondecreasing order, and [out3.dat] holds the text of the elements in
    nondecreasing order too. *)
Theorem test_sorting_algorithms_outputs fuel input_file w text :
  strict_weak_order (op_lt (T := float)) →
  (∀ a b : float, op_gt a b = op_lt b a) →
  open_in input_file w = Some text →
  (length (get_all text : list float) < fuel)%nat →
  size (get_all text : list float) <= INT_MAX →
  "out1.dat" ∉ w_locked w → "out2.dat" ∉ w_locked w →
  "out3.dat" ∉ w_locked w →
  ∃ w' (sorted v3 : list float),
    test_sorting_algorithms (float := float) fuel input_file w = Ok w' ∧
    sorted ≡ₚ get_all text ∧ nondecreasing op_lt sorted ∧
    v3 ≡ₚ get_all text ∧ nondecreasing op_lt v3 ∧
    w_files w' !! "out1.dat" = Some (dump_text sorted) ∧
    w_files w' !! "out2.dat" = Some (dump_text sorted) ∧
    w_files w' !! "out3.dat" = Some (dump_text v3).
Proof.
  intros Hswo Hgt Hopen Hfuel Hsize Hf1 Hf2 Hf3.
  destruct (bubble_sort_shuttle_list fuel _ Hswo Hfuel Hsize)
    as (s1 & E1 & Hv1).
  destruct (shuttle_sort_refines fuel _ Hfuel Hsize) as (s2 & E2 & Hv2 & _).
  destruct (quick_sort_full_sorts fuel _ Hfuel) as (v3 & E3 & Hp3 & Hs3).
  destruct (test_sorting_algorithms_files fuel input_file w text s1 s2 v3
              Hopen E1 E2 E3) as (w' & Hrun & _ & Hfiles).
  exists w', (shuttle_list (get_all text)), v3.
  split; [done|]. split; [apply shuttle_list_perm|].
  split; [by apply shuttle_list_sorted|]. split; [done|].
  split.
  { apply (ascending_nondecreasing Hgt), Hs3. by apply greater_swo. }
  rewrite Hfiles, Hv1, Hv2.
  split; [|split].
  - rewrite !dumped_other by done. by apply dumped_written.
  - rewrite dumped_other by done. by apply dumped_written.
  - by apply dumped_written.
Qed.

End DriverOutputs.

Lemma test_sorting_algorithms_outputs_witness :
  let text : Text Z := Build_Text Z (λ z, if z =? 1 then "1" else "n") (λ _, [3; 1; 2]) in
  let w := World {["floats.dat" := "3 1 2"]} ∅ [] [] in
  strict_weak_order (op_lt (T := Z)) ∧
  (∀ a b : Z, op_gt a b = op_lt b a) ∧
  open_in "floats.dat" w = Some "3 1 2" ∧
  (length (get_all "3 1 2" : list Z) < 4)%nat ∧
  size (get_all "3 1 2" : list Z) <= INT_MAX ∧
  ("out1.dat" ∉ w_locked w) ∧ ("out2.dat" ∉ w_locked w) ∧
  ("out3.dat" ∉ w_locked w) ∧
  ∃ w' (sorted v3 : list Z),
    test_sorting_algorithms (float := Z) 4 "floats.dat" w = Ok w' ∧
    sorted ≡ₚ get_all "3 1 2" ∧ nondecreasing op_lt sorted ∧
    v3 ≡ₚ get_all "3 1 2" ∧ nondecreasing op_lt v3 ∧
    w_files w' !! "out1.dat" = Some (dump_text sorted) ∧
    w_files w' !! "out2.dat" = Some (dump_text sorted) ∧
    w_files w' !! "out3.dat" = Some (dump_text v3).
Proof.
  intros text w.
  assert (H1 : open_in "floats.dat" w = Some "3 1 2")
    by (vm_compute; reflexivity).
  assert (H2 : (length (get_all "3 1 2" : list Z) < 4)%nat) by (cbn; lia).
  assert (H3 : size (get_all "3 1 2" : list Z) <= INT_MAX)
    by (vm_compute; discriminate).
  assert (H4 : "out1.dat" ∉ w_locked w) by (cbn; set_solver).
  assert (H5 : "out2.dat" ∉ w_locked w) by (cbn; set_solver).
  assert (H6 : "out3.dat" ∉ w_locked w) by (cbn; set_solver).
  split; [exact Z_less_swo|]. split; [exact Z_greater_less|].
  split; [exact H1|]. split; [exact H2|]. split; [exact H3|].
  split; [exact H4|]. split; [exact H5|]. split; [exact H6|].
  exact (test_sorting_algorithms_outputs (float := Z) 4 "floats.dat" w
           "3 1 2" Z_less_swo Z_greater_less H1 H2 H3 H4 H5 H6).
Defined.

